(** * Syft cataloging core: a shallow embedding and its verified properties

    The development follows the Go packages of the repository:
    [artifact], [sbom], [executable], [format] (modules [decoders] and
    [encoders]), [cpe] and [file] (modules [file], [zipfile] and
    [ziparchive]), with small models of the parts of Go's standard
    library they call ([bytes], [io], [filepath], [regexp]).  Every
    package first gets a module with the embedding of its code (one
    Rocq definition per Go function, same names); the statements about
    the code follow in the second half of the file.

    The other functions of these files and their callers follow in the
    modules [coordinateset], [locationset], [encoderlist], [ziptraverse],
    [specificity], [execcataloger] and [catalog], together with the
    packages [pkg], [redhat], [spdxjson], [pkgcataloging] and [source],
    over models of Go's [strings] and [sort] and of the string sets of
    go-set ([gostrings], [sort], [strset]).

    Conventions of the embedding.
    - Go [string]s are [string]s (sequences of 8-bit characters), Go
      byte slices are [list byte].
    - Fixed-width integers are [Z] with the wrap-around written out.
    - Go maps are stdpp [gmap]s; a [nil] map that the code may write to
      is an [option] of a [gmap].
    - A pair [(value, error)] is a sum; a run-time panic is a separate
      outcome where the code can reach one.
    - Where Go leaves an order open (the iteration of a map, an
      unstable sort), the statements hold for every order. *)

From Stdlib Require Import ZArith Lia List Bool Ascii String.
From Stdlib.Strings Require Import Byte.
From stdpp Require Import base option list gmap strings fin_maps sorting.

Local Open Scope string_scope.
Local Open Scope list_scope.
Local Open Scope Z_scope.

(** ** Outcomes of Go calls *)

(** [(T, error)] results: [Ok v] for [(v, nil)], [Err e] for a non-nil
    error. *)
Inductive result (E A : Type) : Type :=
| Ok (v : A)
| Err (e : E).
Arguments Ok {E A} v.
Arguments Err {E A} e.

(** ** Package [artifact] (syft/artifact/id.go, relationship.go) *)

Module artifact.

(** [type ID string] *)
Definition ID := string.

(** [type Identifiable interface { ID() ID }]: the only capability of
    an endpoint is its identifier, so an endpoint is modelled by it. *)
Record Identifiable := { identifiable_ID : ID }.

(** [type RelationshipType string] with its five declared constants;
    any other string is a relationship type as well. *)
Definition RelationshipType := string.

Definition OwnershipByFileOverlapRelationship : RelationshipType :=
  "ownership-by-file-overlap".
Definition EvidentByRelationship : RelationshipType := "evident-by".
Definition ContainsRelationship : RelationshipType := "contains".
Definition DependencyOfRelationship : RelationshipType := "dependency-of".
Definition DescribedByRelationship : RelationshipType := "described-by".

(** The five constants of the [const] block, in declaration order. *)
Definition declaredRelationshipTypes : list RelationshipType :=
  [ OwnershipByFileOverlapRelationship; EvidentByRelationship;
    ContainsRelationship; DependencyOfRelationship;
    DescribedByRelationship ].

Definition AllRelationshipTypes : list RelationshipType :=
  [ OwnershipByFileOverlapRelationship;
    ContainsRelationship;
    DependencyOfRelationship;
    DescribedByRelationship ].

(** [type Relationship struct { From, To Identifiable; Type; Data }].
    [From] and [To] are interface values and may be [nil]; [Data] is an
    opaque payload, kept as a string. *)
Record Relationship := {
  From : option Identifiable;
  To : option Identifiable;
  Type_ : RelationshipType;
  Data : option string;
}.

End artifact.

(** ** Package [sbom] (the part of it that lives in by_specificity.go) *)

Module sbom.
Import artifact.

(** Of [pkg.Package] the code below uses [ID()] only. *)
Record Package := { package_ID : ID }.

(** Of [SBOM] the code below uses the relationship list only. *)
Record SBOM := { Relationships : list Relationship }.

(** [slices.ContainsFunc(rt, func(r) bool { return t == r })] *)
Definition containsType (rt : list RelationshipType) (t : RelationshipType)
  : bool :=
  existsb (String.eqb t) rt.

(** The loop body of [RelationshipsForPackage]: [true] when the
    relationship is appended, [false] on each [continue]. *)
Definition keepsRelationship (p : Package) (rt : list RelationshipType)
    (r : Relationship) : bool :=
  match From r, To r with
  | Some from, Some _ =>
      if negb (String.eqb (identifiable_ID from) (package_ID p)) then false
      else if negb (containsType rt (Type_ r)) then false
      else true
  | _, _ => false
  end.

(** [func (s SBOM) RelationshipsForPackage(p, rt ...RelationshipType)] *)
Definition RelationshipsForPackage (s : SBOM) (p : Package)
    (rt : list RelationshipType) : list Relationship :=
  let rt := if (length rt =? 0)%nat then AllRelationshipTypes else rt in
  List.filter (keepsRelationship p rt) (Relationships s).

(** A sample SBOM: one package with a contains edge and an evident-by
    edge to the same file. *)
Definition samplePackage : Package := {| package_ID := "pkg-1" |}.
Definition sampleEdge (t : RelationshipType) : Relationship :=
  {| From := Some {| identifiable_ID := "pkg-1" |};
     To := Some {| identifiable_ID := "file-1" |};
     Type_ := t; Data := None |}.
Definition sampleSBOM : SBOM :=
  {| Relationships := [sampleEdge ContainsRelationship;
                       sampleEdge EvidentByRelationship] |}.

End sbom.


(** ** Byte slices and readers *)

Module bytes.

(** The numeric value of a byte, [0 <= byteZ b < 256]. *)
Definition byteZ (b : byte) : Z := Z.of_N (Byte.to_N b).

(** The byte of value [z mod 256] (Go's [byte(z)] conversion). *)
Definition byte_of_Z (z : Z) : byte :=
  match Byte.of_N (Z.to_N (z mod 256)) with
  | Some b => b
  | None => x00
  end.

(** [bytes.HasPrefix(s, prefix)] *)
Fixpoint HasPrefix (s prefix : list byte) {struct prefix} : bool :=
  match prefix with
  | [] => true
  | p :: prefix' =>
      match s with
      | c :: s' => Byte.eqb c p && HasPrefix s' prefix'
      | [] => false
      end
  end.

(** [make([]byte, n)] *)
Definition make (n : nat) : list byte := repeat x00 n.

End bytes.

Module io.
Import bytes.

(** The errors an in-memory [io.ReaderAt] can report. *)
Inductive error :=
| EOF
| ErrNegativeOffset.

(** [r.ReadAt(buf, off)] on a reader over the byte sequence [r], for a
    freshly made buffer of [n] bytes: the buffer after the call, the
    number of bytes read, and the error.  As [io.ReaderAt] demands, a
    short read comes with a non-nil error ([io.EOF] at end of input). *)
Definition ReadAt (r : list byte) (n : nat) (off : Z)
  : list byte * nat * option error :=
  if off <? 0 then (make n, 0%nat, Some ErrNegativeOffset)
  else
    let got := firstn n (skipn (Z.to_nat off) r) in
    let buf := got ++ make (n - length got) in
    (buf, length got, if (length got <? n)%nat then Some EOF else None).

End io.

(** ** Package [executable] (unnamed/part_012) and the formats of
  unnamed/part_008 *)

Module executable.
Import bytes.

(** [type ExecutableFormat string] and its constants (package [file]). *)
Definition ExecutableFormat := string.
Definition ELF : ExecutableFormat := "elf".
Definition MachO : ExecutableFormat := "macho".
Definition PE : ExecutableFormat := "pe".

(** Constants of Go's [debug/macho] and [debug/elf]. *)
Definition macho_Magic32 : Z := 0xfeedface.
Definition macho_Magic64 : Z := 0xfeedfacf.
Definition elf_ELFMAG : list byte := [x7f; "E"%byte; "L"%byte; "F"%byte].

(** [binary.BigEndian.Uint32] and [binary.LittleEndian.Uint32]; [None]
    is the bounds-check panic on a slice shorter than four bytes. *)
Definition BigEndian_Uint32 (b : list byte) : option Z :=
  match b with
  | b0 :: b1 :: b2 :: b3 :: _ =>
      Some (Z.lor (Z.lor (Z.lor (byteZ b3) (Z.shiftl (byteZ b2) 8))
                     (Z.shiftl (byteZ b1) 16))
              (Z.shiftl (byteZ b0) 24))
  | _ => None
  end.

Definition LittleEndian_Uint32 (b : list byte) : option Z :=
  match b with
  | b0 :: b1 :: b2 :: b3 :: _ =>
      Some (Z.lor (Z.lor (Z.lor (byteZ b0) (Z.shiftl (byteZ b1) 8))
                     (Z.shiftl (byteZ b2) 16))
              (Z.shiftl (byteZ b3) 24))
  | _ => None
  end.

(** [classOrMachOFat]: Java bytecode and Mach-O fat binaries share the
    magic number CAFEBABE; at least 8 bytes are required. *)
Definition classOrMachOFat (in_ : list byte) : bool :=
  if (length in_ <? 8)%nat then false
  else HasPrefix in_ [xca; xfe; xba; xbe].

(** [by[7] < 20], evaluated only after [classOrMachOFat] succeeded. *)
Definition byte7_below_20 (by_ : list byte) : bool :=
  match nth_error by_ 7 with
  | Some b => byteZ b <? 20
  | None => false
  end.

Definition isMacho (by_ : list byte) : bool :=
  if classOrMachOFat by_ && byte7_below_20 by_ then true
  else if (length by_ <? 4)%nat then false
  else
    match BigEndian_Uint32 by_, LittleEndian_Uint32 by_ with
    | Some be, Some le =>
        (be =? macho_Magic32) || (le =? macho_Magic32) ||
        (be =? macho_Magic64) || (le =? macho_Magic64)
    | _, _ => false
    end.

Definition isPE (by_ : list byte) : bool :=
  HasPrefix by_ ["M"%byte; "Z"%byte].

Definition isELF (by_ : list byte) : bool :=
  HasPrefix by_ elf_ELFMAG.

Inductive error :=
| ErrReadFirstSector (e : io.error)
| ErrNotEnoughBytes.

(** [findExecutableFormat]; the reader is the content of the file.  The
    empty format [""] is the "none of these" answer. *)
Definition findExecutableFormat (reader : list byte)
  : result error ExecutableFormat :=
  let '(buf, n, err) := io.ReadAt reader 512 0 in
  match err with
  | Some e => Err (ErrReadFirstSector e)
  | None =>
      if (n <? 512)%nat then Err ErrNotEnoughBytes
      else if isMacho buf then Ok MachO
      else if isPE buf then Ok PE
      else if isELF buf then Ok ELF
      else Ok ""
  end.

(** The classification as the specification words it: a buffer that
    begins with CAFEBABE and has byte 7 below 20, or begins with one of
    the Mach-O magics (FEEDFACE, FEEDFACF, in either byte order), is
    Mach-O; otherwise one that begins with MZ is PE; otherwise one that
    begins with 7F 'E' 'L' 'F' is ELF; otherwise it is none of them. *)
Definition beginsWithMachOMagic (buf : list byte) : bool :=
  HasPrefix buf [xfe; xed; xfa; xce] || HasPrefix buf [xce; xfa; xed; xfe] ||
  HasPrefix buf [xfe; xed; xfa; xcf] || HasPrefix buf [xcf; xfa; xed; xfe].

Definition classifyByMagic (buf : list byte) : ExecutableFormat :=
  if (HasPrefix buf [xca; xfe; xba; xbe] && byte7_below_20 buf)
     || beginsWithMachOMagic buf
  then MachO
  else if HasPrefix buf ["M"%byte; "Z"%byte] then PE
  else if HasPrefix buf [x7f; "E"%byte; "L"%byte; "F"%byte] then ELF
  else "".

(** Sample files: a fat Mach-O header (CAFEBABE, two architectures), a
    Java class file (CAFEBABE, class file version 52), a DOS header and
    an ELF header, each in a sector of 512 bytes, and a file of 64
    bytes that begins with the DOS magic. *)
Definition sampleFatMachO : list byte :=
  [xca; xfe; xba; xbe; x00; x00; x00; x02] ++ make 504.
Definition sampleJavaClass : list byte :=
  [xca; xfe; xba; xbe; x00; x00; x00; x34] ++ make 504.
Definition samplePE : list byte := ["M"%byte; "Z"%byte] ++ make 510.
Definition sampleELF : list byte := elf_ELFMAG ++ make 508.
Definition sampleShortPE : list byte := ["M"%byte; "Z"%byte] ++ make 62.

End executable.


(** ** Package [format]: the decoder collection
    (syft/format/decoders_collection.go, syft/sbom/format.go) *)

Module decoders.

(** [type FormatID string] *)
Definition FormatID := string.

Section Collection.

(** The content behind a non-nil [io.Reader], the decoded [SBOM] and the
    errors of the individual decoders are left abstract. *)
Variables Reader SBOM DecodeError : Type.

Inductive error :=
| ErrNoBytes                                 (* "no SBOM bytes provided" *)
| ErrVersionNotSupported (id : FormatID)     (* "sbom format found to be %q but the version is not supported" *)
| ErrNotRecognized                           (* "sbom format not recognized" *)
| ErrDecoder (e : DecodeError).

(** The four results of [Decode]:
    a pointer to the SBOM (nil on failure), the format id, the version
    and the error. *)
Definition Decoded : Type :=
  option SBOM * FormatID * string * option error.

(** [type FormatDecoder interface { Decode; Identify }].  A seekable
    reader is rewound between calls, so both methods are functions of
    the content. *)
Record FormatDecoder := {
  Decode : Reader -> Decoded;
  Identify : Reader -> FormatID * string;
}.

Record DecoderCollection := { decoders : list FormatDecoder }.

(** The [for _, d := range c.decoders] loop of [Decode] with its
    variable [bestID], followed by the two final returns. *)
Fixpoint decodeLoop (ds : list FormatDecoder) (reader : Reader)
    (bestID : FormatID) : Decoded :=
  match ds with
  | d :: ds' =>
      let '(id, version) := Identify d reader in
      if String.eqb id "" || String.eqb version "" then
        decodeLoop ds' reader (if negb (String.eqb id "") then id else bestID)
      else Decode d reader
  | [] =>
      if negb (String.eqb bestID "")
      then (None, bestID, "", Some (ErrVersionNotSupported bestID))
      else (None, "", "", Some ErrNotRecognized)
  end.

(** [func (c *DecoderCollection) Decode(reader io.Reader)]; a nil reader
    is [None]. *)
Definition Collection_Decode (c : DecoderCollection) (reader : option Reader)
  : Decoded :=
  match reader with
  | None => (None, "", "", Some ErrNoBytes)
  | Some r => decodeLoop (decoders c) r ""
  end.

(** [func (c *DecoderCollection) Identify(reader io.Reader)] *)
Fixpoint identifyLoop (ds : list FormatDecoder) (reader : Reader)
  : FormatID * string :=
  match ds with
  | d :: ds' =>
      let '(id, version) := Identify d reader in
      if negb (String.eqb id "") && negb (String.eqb version "")
      then (id, version)
      else identifyLoop ds' reader
  | [] => ("", "")
  end.

Definition Collection_Identify (c : DecoderCollection)
    (reader : option Reader) : FormatID * string :=
  match reader with
  | None => ("", "")
  | Some r => identifyLoop (decoders c) r
  end.

(** What a decoder says about a reader. *)
Definition identifiesBoth (r : Reader) (d : FormatDecoder) : bool :=
  negb (String.eqb (fst (Identify d r)) "") &&
  negb (String.eqb (snd (Identify d r)) "").

Definition identifiesID (r : Reader) (d : FormatDecoder) : bool :=
  negb (String.eqb (fst (Identify d r)) "").

End Collection.

Arguments ErrNoBytes {DecodeError}.
Arguments ErrVersionNotSupported {DecodeError} id.
Arguments ErrNotRecognized {DecodeError}.
Arguments ErrDecoder {DecodeError} e.
Arguments Decode {Reader SBOM DecodeError} _ _.
Arguments Identify {Reader SBOM DecodeError} _ _.
Arguments decoders {Reader SBOM DecodeError} _.
Arguments decodeLoop {Reader SBOM DecodeError} _ _ _.
Arguments Collection_Decode {Reader SBOM DecodeError} _ _.
Arguments identifiesBoth {Reader SBOM DecodeError} _ _.
Arguments identifiesID {Reader SBOM DecodeError} _ _.

(** Sample decoders over readers that are strings: one that does not
    know the format, one that knows the format but not the version, and
    one that knows both. *)
Definition unknownDecoder : FormatDecoder string string unit :=
  {| Decode := fun _ => (None, "", "", Some (ErrDecoder tt));
     Identify := fun _ => ("", "") |}.
Definition spdxOldDecoder : FormatDecoder string string unit :=
  {| Decode := fun _ => (None, "spdx-json", "", Some (ErrDecoder tt));
     Identify := fun _ => ("spdx-json", "") |}.
Definition cyclonedxDecoder : FormatDecoder string string unit :=
  {| Decode := fun r => (Some r, "cyclonedx-json", "1.5", None);
     Identify := fun _ => ("cyclonedx-json", "1.5") |}.

End decoders.


(** ** Package [file]: coordinates, locations and location sets
    (syft/file/coordinates.go, location.go, location_set.go) *)

Module file.

(** [type Coordinates struct { RealPath, FileSystemID string }] *)
Record Coordinates := {
  RealPath : string;
  FileSystemID : string;
}.

(** stereoscope's [file.Reference]: a comparable struct of a numeric id
    and a real path. *)
Record Reference := {
  ref_id : N;
  ref_RealPath : string;
}.

(** [type LocationData struct { Coordinates; AccessPath string;
    ref file.Reference }] *)
Record LocationData := {
  coordinates : Coordinates;
  AccessPath : string;
  ref : Reference;
}.

(** [type LocationMetadata struct { Annotations map[string]string }];
    [None] is the nil map. *)
Record LocationMetadata := {
  Annotations : option (gmap string string);
}.

(** [type Location struct { LocationData; LocationMetadata }] *)
Record Location := {
  locationData : LocationData;
  locationMetadata : LocationMetadata;
}.

#[export] Instance Coordinates_eq_dec : EqDecision Coordinates.
Proof. solve_decision. Defined.
#[export] Instance Reference_eq_dec : EqDecision Reference.
Proof. solve_decision. Defined.
#[export] Instance LocationData_eq_dec : EqDecision LocationData.
Proof. solve_decision. Defined.

(** Go compares struct keys field by field; the encoding below lists
    every field of [LocationData]. *)
Definition LocationData_fields (d : LocationData)
  : string * string * string * (N * string) :=
  (RealPath (coordinates d), FileSystemID (coordinates d), AccessPath d,
   (ref_id (ref d), ref_RealPath (ref d))).

Definition LocationData_of_fields
    (t : string * string * string * (N * string)) : LocationData :=
  let '(rp, fs, ap, (i, rrp)) := t in
  {| coordinates := {| RealPath := rp; FileSystemID := fs |};
     AccessPath := ap;
     ref := {| ref_id := i; ref_RealPath := rrp |} |}.

#[export] Instance LocationData_countable : Countable LocationData.
Proof.
  apply (inj_countable' LocationData_fields LocationData_of_fields).
  intros [[rp fs] ap [i rrp]]. reflexivity.
Defined.

(** [NewLocation(realPath)]: every constructor of the package makes an
    empty, non-nil annotation map. *)
Definition NewLocation (realPath : string) : Location :=
  {| locationData :=
       {| coordinates := {| RealPath := realPath; FileSystemID := "" |};
          AccessPath := realPath;
          ref := {| ref_id := 0; ref_RealPath := "" |} |};
     locationMetadata := {| Annotations := Some ∅ |} |}.

(** [NewVirtualLocationFromCoordinates(coordinates, accessPath)] *)
Definition NewVirtualLocationFromCoordinates (c : Coordinates)
    (accessPath : string) : Location :=
  {| locationData :=
       {| coordinates := c;
          AccessPath := accessPath;
          ref := {| ref_id := 0; ref_RealPath := "" |} |};
     locationMetadata := {| Annotations := Some ∅ |} |}.

(** [func (l Location) WithAnnotation(key, value string) Location] *)
Definition WithAnnotation (l : Location) (key value : string) : Location :=
  {| locationData := locationData l;
     locationMetadata :=
       {| Annotations :=
            Some (<[key := value]>
                    (default ∅ (Annotations (locationMetadata l)))) |} |}.

(** The error of one conflicting key in [merge]:
    "conflicting values for key=%q: %q != %q" with [k], [v], [otherV]. *)
Record mergeConflict := {
  conflictKey : string;
  conflictValue : string;
  conflictStored : string;
}.

(** One iteration of the loop of [merge] on the entry [(k, v)] of
    [other.Annotations].  The state is [m.Annotations] and the errors
    collected so far; [None] is the panic of an assignment to an entry of
    a nil map. *)
Definition mergeEntry (st : option (gmap string string) * list mergeConflict)
    (kv : string * string)
  : option (option (gmap string string) * list mergeConflict) :=
  let '(ann, errs) := st in
  let '(k, v) := kv in
  match ann with
  | Some a =>
      match a !! k with
      | Some otherV =>
          if negb (String.eqb v otherV)
          then Some (Some a, errs ++ [ {| conflictKey := k;
                                          conflictValue := v;
                                          conflictStored := otherV |} ])
          else Some (Some (<[k := v]> a), errs)
      | None => Some (Some (<[k := v]> a), errs)
      end
  | None => None
  end.

(** The loop of [merge] over the entries of [other.Annotations] in the
    order [kvs] in which [range] happens to deliver them. *)
Fixpoint mergeOver (st : option (gmap string string) * list mergeConflict)
    (kvs : list (string * string))
  : option (option (gmap string string) * list mergeConflict) :=
  match kvs with
  | [] => Some st
  | kv :: kvs' =>
      match mergeEntry st kv with
      | Some st' => mergeOver st' kvs'
      | None => None
      end
  end.

(** The entries a [range] over an annotation map visits (none for the
    nil map), in the order of [map_to_list]. *)
Definition entries (ann : option (gmap string string))
  : list (string * string) :=
  match ann with
  | Some a => map_to_list a
  | None => []
  end.

(** [func (m *LocationMetadata) merge(other LocationMetadata) error]:
    the metadata after the call and the collected errors (the returned
    [error] is nil exactly when the list is empty). *)
Definition merge (m other : LocationMetadata)
  : option (LocationMetadata * list mergeConflict) :=
  match mergeOver (Annotations m, []) (entries (Annotations other)) with
  | Some (ann, errs) => Some ({| Annotations := ann |}, errs)
  | None => None
  end.

(** A line of the debug log:
    "partial merge of location metadata: %+v". *)
Inductive logEntry :=
| PartialMerge (errs : list mergeConflict).

(** [type LocationSet struct { set map[LocationData]LocationMetadata }];
    [None] is the nil map of the zero value. *)
Record LocationSet := {
  set : option (gmap LocationData LocationMetadata);
}.

(** One iteration of the loop of [Add] on the map made in its first
    lines; the log grows by one line when [merge] returns an error.
    [merge] writes into the annotation map of the stored entry, which Go
    shares with the location that was added first; the entries of the
    set are modelled by their values, each with a map of its own. *)
Definition addOne
    (st : gmap LocationData LocationMetadata * list logEntry) (l : Location)
  : option (gmap LocationData LocationMetadata * list logEntry) :=
  let '(s, log) := st in
  match s !! locationData l with
  | Some m =>
      match merge m (locationMetadata l) with
      | Some (m', errs) =>
          let log' := match errs with
                      | [] => log
                      | _ :: _ => log ++ [PartialMerge errs]
                      end in
          Some (<[locationData l := m']> s, log')
      | None => None
      end
  | None => Some (<[locationData l := locationMetadata l]> s, log)
  end.

Fixpoint addAll
    (st : gmap LocationData LocationMetadata * list logEntry)
    (locations : list Location)
  : option (gmap LocationData LocationMetadata * list logEntry) :=
  match locations with
  | [] => Some st
  | l :: ls =>
      match addOne st l with
      | Some st' => addAll st' ls
      | None => None
      end
  end.

(** [func (s *LocationSet) Add(locations ...Location)]: the set after
    the call and the lines written to the log; [None] is a panic. *)
Definition Add (s : LocationSet) (locations : list Location)
  : option (LocationSet * list logEntry) :=
  match addAll (default ∅ (set s), []) locations with
  | Some (m, log) => Some ({| set := Some m |}, log)
  | None => None
  end.

(** [func NewLocationSet(locations ...Location) (s LocationSet)]: one
    call [s.Add(l)] per location, starting from the zero value. *)
Fixpoint newLocationSetLoop (s : LocationSet) (log : list logEntry)
    (locations : list Location) : option (LocationSet * list logEntry) :=
  match locations with
  | [] => Some (s, log)
  | l :: ls =>
      match Add s [l] with
      | Some (s', log') => newLocationSetLoop s' (log ++ log') ls
      | None => None
      end
  end.

Definition NewLocationSet (locations : list Location)
  : option (LocationSet * list logEntry) :=
  newLocationSetLoop {| set := None |} [] locations.

(** [func (s LocationSet) Contains(l Location) bool] *)
Definition Contains (s : LocationSet) (l : Location) : bool :=
  match set s with
  | None => false
  | Some m => bool_decide (is_Some (m !! locationData l))
  end.

(** [len(s.set)], the number of members. *)
Definition members (s : LocationSet) : nat :=
  match set s with
  | None => 0%nat
  | Some m => size m
  end.

(** The annotations stored for a key. *)
Definition stored (s : LocationSet) (d : LocationData)
  : option LocationMetadata :=
  match set s with
  | None => None
  | Some m => m !! d
  end.

(** The conflicts between the stored annotations [a] and the entries
    [kvs] of the other map: the keys present in both with different
    values. *)
Definition conflictOf (a : gmap string string) (kv : string * string)
  : option mergeConflict :=
  match a !! kv.1 with
  | Some otherV =>
      if negb (String.eqb kv.2 otherV)
      then Some {| conflictKey := kv.1; conflictValue := kv.2;
                   conflictStored := otherV |}
      else None
  | None => None
  end.

Definition conflictsWith (a : gmap string string)
    (kvs : list (string * string)) : list mergeConflict :=
  omap (conflictOf a) kvs.

(** Sample locations: one file of one layer reached through two
    symbolic links, and one plain path. *)
Definition etcHosts : Coordinates :=
  {| RealPath := "/etc/hosts"; FileSystemID := "a" |}.
Definition etcHostsLinkVar : Location :=
  NewVirtualLocationFromCoordinates etcHosts "/var/etc/hosts".
Definition etcHostsLinkHome : Location :=
  NewVirtualLocationFromCoordinates etcHosts "/home/wagoodman/hosts".
Definition binA : Location := NewLocation "/bin".

(** The same location as a struct literal without annotations: its
    annotation map is nil. *)
Definition bareBinA : Location :=
  {| locationData := locationData binA;
     locationMetadata := {| Annotations := None |} |}.

(** The log of one merge with the collected errors [errs]. *)
Definition mergeLog (errs : list mergeConflict) : list logEntry :=
  match errs with
  | [] => []
  | _ :: _ => [PartialMerge errs]
  end.

End file.


(** ** Package [cpe] (syft/cpe/by_specificity.go,
    by_source_then_specificity.go, merge_cpes.go) *)

Module cpe.

(** [type Source string]; [Source.String()] is the string itself. *)
Definition Source := string.

(** Modelled from the spec: the struct [Attributes] of cpe.go, which is
    not among the sources; the code below reads [Part], [Vendor],
    [Product], [Version] and [TargetSW], the other attributes of a CPE 2.3
    name are carried along.  An empty field is an unspecified one. *)
Record Attributes := {
  Part : string;
  Vendor : string;
  Product : string;
  Version : string;
  Update : string;
  Edition : string;
  SWEdition : string;
  TargetSW : string;
  TargetHW : string;
  Other : string;
  Language : string;
}.

(** Modelled from the spec: the struct [CPE] of cpe.go, attributes with
    the source that produced them. *)
Record CPE := {
  attributes : Attributes;
  source : Source;
}.

#[export] Instance Attributes_eq_dec : EqDecision Attributes.
Proof. solve_decision. Defined.
#[export] Instance CPE_eq_dec : EqDecision CPE.
Proof. solve_decision. Defined.

(** [countFieldLength]: [len] of the concatenation of five fields. *)
Definition countFieldLength (cpe : Attributes) : Z :=
  Z.of_nat (String.length
    (Part cpe ++ Vendor cpe ++ Product cpe ++ Version cpe ++ TargetSW cpe)%string).

(** The list [checksForSpecifiedField] of [weightedCountForSpecifiedFields]:
    each check says whether a field is specified and gives its weight. *)
Definition checksForSpecifiedField : list (Attributes -> bool * Z) :=
  [ (fun cpe => (negb (String.eqb (Part cpe) ""), 2));
    (fun cpe => (negb (String.eqb (Vendor cpe) ""), 3));
    (fun cpe => (negb (String.eqb (Product cpe) ""), 4));
    (fun cpe => (negb (String.eqb (Version cpe) ""), 1));
    (fun cpe => (negb (String.eqb (TargetSW cpe) ""), 1)) ].

Definition weightedCountForSpecifiedFields (cpe : Attributes) : Z :=
  fold_left
    (fun (weightedCount : Z) (fieldIsSpecified : Attributes -> bool * Z) =>
       let '(isSpecified, weight) := fieldIsSpecified cpe in
       if isSpecified then weightedCount + weight else weightedCount)
    checksForSpecifiedField 0.

Section Ordering.

(** The method [Attributes.BindToFmtString] (the CPE 2.3 formatted
    string binding) and the three [Source] constants are declared in
    cpe.go, outside the sources at hand; they are parameters here. *)
Variable BindToFmtString : Attributes -> string.
Variables NVDDictionaryLookupSource DeclaredSource GeneratedSource : Source.

(** [isMoreSpecific(i, j)] *)
Definition isMoreSpecific (i j : Attributes) : bool :=
  let iScore := weightedCountForSpecifiedFields i in
  let jScore := weightedCountForSpecifiedFields j in
  if negb (iScore =? jScore) then iScore >? jScore
  else if negb (countFieldLength i =? countFieldLength j)
       then countFieldLength i >? countFieldLength j
       else String.ltb (BindToFmtString i) (BindToFmtString j).

(** The map literal [sourceOrder] of [Less]. *)
Definition sourceOrder : gmap Source Z :=
  <[GeneratedSource := 3]>
    (<[DeclaredSource := 2]> (<[NVDDictionaryLookupSource := 1]> ∅)).

(** The closure [getRank] of [Less]. *)
Definition getRank (source : Source) : Z :=
  match sourceOrder !! source with
  | Some rank => rank
  | None => 4
  end.

(** [BySourceThenSpecificity.Less(i, j)] on the elements [b[i]], [b[j]]. *)
Definition Less (bi bj : CPE) : bool :=
  let rankI := getRank (source bi) in
  let rankJ := getRank (source bj) in
  if negb (rankI =? rankJ) then rankI <? rankJ
  else isMoreSpecific (attributes bi) (attributes bj).

(** [x] may stand before [y] in a sorted slice: [y] is not less than
    [x]. *)
Definition notAfter (x y : CPE) : Prop := Less y x = false.

#[global] Instance notAfter_dec (x y : CPE) : Decision (notAfter x y).
Proof. unfold notAfter. apply _. Defined.

(** The closure [key] of [Merge]: [fmt.Sprintf("%s:%s", ...)]. *)
Definition key (scpe : CPE) : string :=
  (source scpe ++ ":" ++ BindToFmtString (attributes scpe))%string.

(** The two loops of [Merge] that fill the map [dedupe]. *)
Definition dedupeInsert (dedupe : gmap string CPE) (s : CPE)
  : gmap string CPE :=
  <[key s := s]> dedupe.

Definition dedupe (a b : list CPE) : gmap string CPE :=
  fold_left dedupeInsert b (fold_left dedupeInsert a ∅).

(** [Merge(a, b)] with the values of [dedupe] delivered in the order of
    [map_to_list] and [sort.Sort] run as a merge sort.  Go fixes neither
    the iteration order of a map nor the order in which an unstable sort
    leaves elements that are not less than each other; [MergeResult]
    below describes every slice that [Merge] may return. *)
Definition Merge (a b : list CPE) : list CPE :=
  merge_sort notAfter ((map_to_list (dedupe a b)).*2).

(** A slice [Merge(a, b)] may return: the values of [dedupe] in some
    order that [sort.Sort] accepts as sorted ([sort.IsSorted]: no element
    is less than its predecessor). *)
Definition MergeResult (a b : list CPE) (result : list CPE) : Prop :=
  result ≡ₚ (map_to_list (dedupe a b)).*2 /\ Sorted notAfter result.

(** Equality of two CPEs by the pair (source, bound format string). *)
Definition identity (c : CPE) : Source * string :=
  (source c, BindToFmtString (attributes c)).

Definition sameCPE (c1 c2 : CPE) : bool :=
  bool_decide (identity c1 = identity c2).

(** The sort key of [Less], as the specification words it: source rank
    (ascending), weighted count of specified fields (descending), total
    field length (descending), bound format string (ascending). *)
Definition lexLess (x y : CPE) : Prop :=
  getRank (source x) < getRank (source y) \/
  getRank (source x) = getRank (source y) /\
  (weightedCountForSpecifiedFields (attributes x)
     > weightedCountForSpecifiedFields (attributes y) \/
   weightedCountForSpecifiedFields (attributes x)
     = weightedCountForSpecifiedFields (attributes y) /\
   (countFieldLength (attributes x) > countFieldLength (attributes y) \/
    countFieldLength (attributes x) = countFieldLength (attributes y) /\
    String.ltb (BindToFmtString (attributes x))
               (BindToFmtString (attributes y)) = true)).

(** On the CPEs of [l] the string [key] stands for the pair: two CPEs
    of [l] with the same key have the same source and the same bound
    format string. *)
Definition keyFaithfulOn (l : list CPE) : Prop :=
  forall c1 c2, c1 ∈ l -> c2 ∈ l -> key c1 = key c2 ->
                identity c1 = identity c2.

(** The CPEs of [l] with the key [k], as a filter. *)
Definition hasKey (k : string) (c : CPE) : bool := bool_decide (key c = k).

End Ordering.

(** The comparison of [Less] on the four sort keys. *)
Definition lexb (r1 s1 l1 : Z) (b1 : string) (r2 s2 l2 : Z) (b2 : string)
  : bool :=
  if negb (r1 =? r2) then r1 <? r2
  else if negb (s1 =? s2) then s1 >? s2
  else if negb (l1 =? l2) then l1 >? l2
  else String.ltb b1 b2.

(** The weight of a field: its weight when specified, else 0. *)
Definition weightIfSpecified (field : string) (weight : Z) : Z :=
  if String.eqb field "" then 0 else weight.

(** A binding in the shape of the CPE 2.3 formatted string, for the
    examples: the eleven attributes after the prefix, an unspecified one
    written as an asterisk. *)
Definition bindField (field : string) : string :=
  if String.eqb field "" then "*" else field.

Definition sampleBinding (a : Attributes) : string :=
  String.concat ":"
    ("cpe" :: "2.3" ::
     List.map bindField
       [Part a; Vendor a; Product a; Version a; Update a; Edition a;
        Language a; SWEdition a; TargetSW a; TargetHW a; Other a]).

(** Sample CPEs: one product named by three sources. *)
Definition attrs (vendor product version : string) : Attributes :=
  {| Part := "a"; Vendor := vendor; Product := product; Version := version;
     Update := ""; Edition := ""; SWEdition := ""; TargetSW := "";
     TargetHW := ""; Other := ""; Language := "" |}.

Definition curlDeclared : CPE :=
  {| attributes := attrs "haxx" "curl" "8.0"; source := "declared" |}.
Definition curlGenerated : CPE :=
  {| attributes := attrs "haxx" "curl" "8.0"; source := "generated" |}.
Definition curlGeneratedNoVendor : CPE :=
  {| attributes := attrs "" "curl" "8.0"; source := "generated" |}.
Definition curlNVD : CPE :=
  {| attributes := attrs "haxx" "curl" "8.0";
     source := "nvd-dictionary-lookup" |}.

(** Two sources that [sourceOrder] does not list, with the same
    attributes. *)
Definition curlFromCataloger : CPE :=
  {| attributes := attrs "haxx" "curl" "8.0"; source := "syft-cataloger" |}.
Definition curlFromUser : CPE :=
  {| attributes := attrs "haxx" "curl" "8.0"; source := "user-supplied" |}.

(** Two CPEs with one key string and different pairs: the colons of
    the second source are taken for field separators of the first
    bound string, whose last field holds colons. *)
Definition colonInOther : CPE :=
  {| attributes :=
       {| Part := ""; Vendor := ""; Product := ""; Version := "";
          Update := ""; Edition := ""; SWEdition := ""; TargetSW := "";
          TargetHW := "";
          Other := "x:cpe:2.3:a:haxx:curl:8.0:*:*:*:*:*:*:*";
          Language := "" |};
     source := "declared" |}.
Definition colonInSource : CPE :=
  {| attributes := attrs "haxx" "curl" "8.0";
     source := "declared:cpe:2.3:*:*:*:*:*:*:*:*:*:*:x" |}.

(** A source contains no [':'], the separator of [key]. *)
Fixpoint colonFree (s : string) : bool :=
  match s with
  | EmptyString => true
  | String c s' => negb (Ascii.eqb c ":"%char) && colonFree s'
  end.

End cpe.


(** ** Go's [path/filepath] and [strings] on Unix paths *)

Module filepath.

(** The elements of a path between its separators: [strings.Split(path,
    "/")]. *)
Fixpoint split (path : string) : list string :=
  match path with
  | EmptyString => [""]
  | String c rest =>
      if Ascii.eqb c "/"%char then "" :: split rest
      else match split rest with
           | elem :: elems => String c elem :: elems
           | [] => [String c ""]
           end
  end.

Definition rooted (path : string) : bool :=
  match path with
  | String c _ => Ascii.eqb c "/"%char
  | EmptyString => false
  end.

(** One element in the loop of [Clean]; [out] holds the elements written
    so far, the last one first.  An empty element and ["."] are dropped;
    [".."] removes the element before it when there is one to remove, is
    kept in front of a path that is not rooted, and is dropped at the
    root; every other element is appended. *)
Definition cleanElement (isRooted : bool) (out : list string) (elem : string)
  : list string :=
  if String.eqb elem "" then out
  else if String.eqb elem "." then out
  else if String.eqb elem ".." then
    match out with
    | top :: below =>
        if String.eqb top ".." then elem :: out else below
    | [] => if isRooted then out else [elem]
    end
  else elem :: out.

(** [filepath.Clean(path)]: the shortest path name equivalent to [path]
    by purely lexical processing. *)
Definition Clean (path : string) : string :=
  if String.eqb path "" then "."
  else
    let out := fold_left (cleanElement (rooted path)) (split path) [] in
    let body := String.concat "/" (rev out) in
    if rooted path then ("/" ++ body)%string
    else if String.eqb body "" then "." else body.

(** [filepath.Join(elem...)]: the elements from the first non-empty one
    on, joined by the separator and cleaned; [""] when all are empty. *)
Fixpoint Join (elem : list string) : string :=
  match elem with
  | [] => ""
  | e :: rest =>
      if negb (String.eqb e "") then Clean (String.concat "/" elem)
      else Join rest
  end.

(** [strings.HasPrefix(s, prefix)] *)
Definition HasPrefix (s prefix : string) : bool := String.prefix prefix s.

End filepath.

(** ** Package [file]: extraction of ZIP archives (unnamed/part_017) *)

Module zipfile.
Import filepath.

(** [type errZipSlipDetected struct { Prefix string; JoinArgs []string }] *)
Record errZipSlipDetected := {
  Prefix : string;
  JoinArgs : list string;
}.

(** [func safeJoin(prefix string, dest ...string) (string, error)] *)
Definition safeJoin (prefix : string) (dest : list string)
  : result errZipSlipDetected string :=
  let joinResult := Join (prefix :: dest) in
  let cleanJoinResult := Clean joinResult in
  if negb (HasPrefix cleanJoinResult (Clean prefix)) then
    Err {| Prefix := prefix; JoinArgs := dest |}
  else Ok joinResult.

(** [UnzipToDir(archivePath, targetDir)] on the entry names of the
    archive, in the order of [TraverseFilesInZip], where the archive is
    opened and every entry is read and written without an error: the
    paths handed to [extractSingleFile] (created or written below), and
    the refusal of [safeJoin] that stopped the traversal, if any.  The
    module [zipextract] below has [UnzipToDir] with the calls of the
    file system and their errors. *)
Fixpoint unzipEntries (targetDir : string) (names : list string)
    (written : list string) : list string * option errZipSlipDetected :=
  match names with
  | [] => (written, None)
  | name :: rest =>
      match safeJoin targetDir [name] with
      | Err e => (written, Some e)
      | Ok joinedPath => unzipEntries targetDir rest (written ++ [joinedPath])
      end
  end.

Definition UnzipToDir (names : list string) (targetDir : string)
  : list string * option errZipSlipDetected :=
  unzipEntries targetDir names [].

(** [path] lies in the directory tree of [root]: the elements of the
    cleaned root are the first elements of the cleaned path. *)
Fixpoint elementsPrefix (l1 l2 : list string) : bool :=
  match l1, l2 with
  | [], _ => true
  | x :: l1', y :: l2' => String.eqb x y && elementsPrefix l1' l2'
  | _ :: _, [] => false
  end.

Definition insideRoot (root path : string) : bool :=
  elementsPrefix (split (Clean root)) (split (Clean path)).

End zipfile.


(** ** Go's [strings] on the calls of the packages below *)

Module gostrings.

(** [strings.Split(s, sep)] for a separator of one character: the
    pieces between the separators, at least one. *)
Fixpoint Split (s : string) (sep : ascii) : list string :=
  match s with
  | EmptyString => [""]
  | String c rest =>
      if Ascii.eqb c sep then "" :: Split rest sep
      else match Split rest sep with
           | piece :: pieces => String c piece :: pieces
           | [] => [String c ""]
           end
  end.

(** No occurrence of [sep] in [s]. *)
Fixpoint free (sep : ascii) (s : string) : bool :=
  match s with
  | EmptyString => true
  | String c rest => negb (Ascii.eqb c sep) && free sep rest
  end.

(** The number of occurrences of [sep] in [s]. *)
Fixpoint count (sep : ascii) (s : string) : nat :=
  match s with
  | EmptyString => 0
  | String c rest => (if Ascii.eqb c sep then 1 else 0) + count sep rest
  end.

(** The white space of ASCII: tab, line feed, vertical tab, form feed,
    carriage return and space. *)
Definition isSpace (c : ascii) : bool :=
  let n := N_of_ascii c in
  ((9 <=? n) && (n <=? 13) || (n =? 32))%N.

(** Text of ASCII characters only. *)
Fixpoint isASCII (s : string) : bool :=
  match s with
  | EmptyString => true
  | String c rest => (N_of_ascii c <? 128)%N && isASCII rest
  end.

(** [strings.TrimSpace(s)] on ASCII text, where white space is
    [isSpace]; the statements that use it are about ASCII text. *)
Fixpoint TrimLeft (s : string) : string :=
  match s with
  | EmptyString => EmptyString
  | String c rest => if isSpace c then TrimLeft rest else s
  end.

Fixpoint TrimRight (s : string) : string :=
  match s with
  | EmptyString => EmptyString
  | String c rest =>
      match TrimRight rest with
      | EmptyString => if isSpace c then EmptyString else String c EmptyString
      | trimmed => String c trimmed
      end
  end.

Definition TrimSpace (s : string) : string := TrimRight (TrimLeft s).

(** The first character is white space. *)
Definition startsWithSpace (s : string) : bool :=
  match s with
  | String c _ => isSpace c
  | EmptyString => false
  end.

(** [strings.HasPrefix(s, prefix)] and [strings.TrimPrefix(s, prefix)]
    for a prefix of one character. *)
Definition HasPrefix (s : string) (prefix : ascii) : bool :=
  match s with
  | String c _ => Ascii.eqb c prefix
  | EmptyString => false
  end.

Definition TrimPrefix (s : string) (prefix : ascii) : string :=
  match s with
  | String c rest => if Ascii.eqb c prefix then rest else s
  | EmptyString => s
  end.

End gostrings.

(** ** Go's [regexp] on the patterns of [versionMatches] *)

Module regexp.

Inductive regex :=
| Empty                      (* matches nothing *)
| Eps                        (* the empty string *)
| Char (c : ascii)           (* a literal character *)
| AnyNotNL                   (* [.]: any character but a newline *)
| Alt (r1 r2 : regex)
| Cat (r1 r2 : regex)
| Star (r : regex).

Definition newline : ascii := "010"%char.

Fixpoint nullable (r : regex) : bool :=
  match r with
  | Empty => false
  | Eps => true
  | Char _ => false
  | AnyNotNL => false
  | Alt r1 r2 => nullable r1 || nullable r2
  | Cat r1 r2 => nullable r1 && nullable r2
  | Star _ => true
  end.

(** The derivative of [r] by the character [c]. *)
Fixpoint deriv (c : ascii) (r : regex) : regex :=
  match r with
  | Empty => Empty
  | Eps => Empty
  | Char d => if Ascii.eqb c d then Eps else Empty
  | AnyNotNL => if Ascii.eqb c newline then Empty else Eps
  | Alt r1 r2 => Alt (deriv c r1) (deriv c r2)
  | Cat r1 r2 =>
      if nullable r1 then Alt (Cat (deriv c r1) r2) (deriv c r2)
      else Cat (deriv c r1) r2
  | Star r1 => Cat (deriv c r1) (Star r1)
  end.

(** [re.MatchString(s)] for an expression anchored at both ends.  Go
    matches the runes of [s], an invalid byte counting as one rune; for
    the expressions that [Compile] below returns, whose literal
    characters are ASCII and where [.] stands under a [*], this is the
    match byte by byte. *)
Fixpoint MatchString (re : regex) (s : string) : bool :=
  match s with
  | EmptyString => nullable re
  | String c s' => MatchString (deriv c re) s'
  end.

(** The strings an expression matches. *)
Inductive matches : regex -> string -> Prop :=
| MEps : matches Eps ""
| MChar c : matches (Char c) (String c "")
| MAny c : c <> newline -> matches AnyNotNL (String c "")
| MAltL r1 r2 s : matches r1 s -> matches (Alt r1 r2) s
| MAltR r1 r2 s : matches r2 s -> matches (Alt r1 r2) s
| MCat r1 r2 s1 s2 :
    matches r1 s1 -> matches r2 s2 -> matches (Cat r1 r2) (s1 +:+ s2)
| MStar0 r : matches (Star r) ""
| MStarS r s1 s2 :
    matches r s1 -> matches (Star r) s2 -> matches (Star r) (s1 +:+ s2).

(** The outcome of [regexp.Compile]: an expression, an error, or a
    pattern outside the syntax covered here. *)
Inductive compiled :=
| Compiled (re : regex)
| CompileError
| Unsupported.

(** The characters with a meaning in the syntax of patterns. *)
Definition isMeta (c : ascii) : bool :=
  existsb (Ascii.eqb c)
    (list_ascii_of_string "\.+*?()|[]{}^$").

(** The sequence read so far followed by the last atom, on which a
    [*] may still act. *)
Definition flush (seq : regex) (last : option regex) : regex :=
  match last with
  | Some atom => Cat seq atom
  | None => seq
  end.

(** The parser, for patterns made of literal characters of ASCII,
    [\.], [.*], [*] after an atom, one level of parentheses and a final
    [$].  [stack] holds the sequence outside an open parenthesis.  A
    byte beyond ASCII is outside the syntax covered here: Go reads the
    pattern as UTF-8 and refuses one that is not valid UTF-8.  So is a
    [.] without a [*] after it, which matches one rune, of one byte or
    of several. *)
Fixpoint parseFrom (s : string) (stack : option regex) (seq : regex)
    (last : option regex) : compiled :=
  match s with
  | EmptyString => Unsupported
  | String c rest =>
      if Ascii.eqb c "$"%char then
        match rest, stack with
        | EmptyString, None => Compiled (flush seq last)
        | EmptyString, Some _ => CompileError
        | String _ _, _ => Unsupported
        end
      else if Ascii.eqb c "\"%char then
        match rest with
        | String d rest' =>
            if Ascii.eqb d "."%char
            then parseFrom rest' stack (flush seq last) (Some (Char d))
            else Unsupported
        | EmptyString => CompileError
        end
      else if Ascii.eqb c "."%char then
        match rest with
        | String d _ =>
            if Ascii.eqb d "*"%char
            then parseFrom rest stack (flush seq last) (Some AnyNotNL)
            else Unsupported
        | EmptyString => Unsupported
        end
      else if Ascii.eqb c "*"%char then
        match last with
        | Some (Star _) => CompileError
        | Some atom => parseFrom rest stack seq (Some (Star atom))
        | None => CompileError
        end
      else if Ascii.eqb c "("%char then
        match stack with
        | Some _ => Unsupported
        | None => parseFrom rest (Some (flush seq last)) Eps None
        end
      else if Ascii.eqb c ")"%char then
        match stack with
        | Some outer => parseFrom rest None outer (Some (flush seq last))
        | None => CompileError
        end
      else if isMeta c then Unsupported
      else if negb (N_of_ascii c <? 128)%N then Unsupported
      else parseFrom rest stack (flush seq last) (Some (Char c))
  end.

(** [regexp.Compile(pattern)] for a pattern that starts with [^]. *)
Definition Compile (pattern : string) : compiled :=
  match pattern with
  | String c rest =>
      if Ascii.eqb c "^"%char then parseFrom rest None Eps None
      else Unsupported
  | EmptyString => Unsupported
  end.

End regexp.

(** ** Package [format]: the encoder collection (unnamed/part_006) *)

Module encoders.

(** [const AnyVersion = ""] of package [sbom]. *)
Definition AnyVersion : string := "".

(** [type FormatEncoder interface { ID; Aliases; Version; Encode }];
    [Get] calls the first three methods only. *)
Record FormatEncoder := {
  ID : string;
  Aliases : list string;
  Version : string;
}.

#[export] Instance FormatEncoder_eq_dec : EqDecision FormatEncoder.
Proof. solve_decision. Defined.

Record EncoderCollection := { encoders : list FormatEncoder }.

(** [strings.ReplaceAll(s, old, new)] for an [old] of one character. *)
Fixpoint ReplaceAll (s : string) (old : ascii) (new : string) : string :=
  match s with
  | EmptyString => EmptyString
  | String c rest =>
      if Ascii.eqb c old then (new ++ ReplaceAll rest old new)%string
      else String c (ReplaceAll rest old new)
  end.

(** [strings.ToLower] on the letters of ASCII; other characters are
    left as they are. *)
Definition lower (c : ascii) : ascii :=
  let n := N_of_ascii c in
  if ((65 <=? n) && (n <=? 90))%N then ascii_of_N (n + 32) else c.

Fixpoint ToLower (s : string) : string :=
  match s with
  | EmptyString => EmptyString
  | String c rest => String (lower c) (ToLower rest)
  end.

(** [cleanFormatName]: the replacer removes ['-'] and ['_'], then the
    name is lowered.  [strings.ToLower] is covered for ASCII text, where
    it changes the letters A to Z alone; [None] is a name beyond
    ASCII. *)
Definition cleanFormatName (name : string) : option string :=
  if gostrings.isASCII name
  then Some (ToLower (ReplaceAll (ReplaceAll name "-"%char "") "_"%char ""))
  else None.

(** [versionMatches(version, match)]; [None] when the pattern built
    from [match] is outside the syntax covered by [regexp.Compile]
    above. *)
Definition versionMatches (version match_ : string) : option bool :=
  if String.eqb version AnyVersion || String.eqb match_ AnyVersion
  then Some true
  else
    let match_ := ReplaceAll match_ "."%char "\." in
    let match_ := ReplaceAll match_ "*"%char ".*" in
    let match_ := "^" +:+ match_ +:+ "(\..*)*$" in
    match regexp.Compile match_ with
    | regexp.Compiled matcher => Some (regexp.MatchString matcher version)
    | regexp.CompileError => Some false
    | regexp.Unsupported => None
    end.

(** The body of the inner loop of [Get] for the name [n] of the
    encoder [f]; Go's [&&] calls [versionMatches] only for a matching
    name.  [None] is a name or a pattern outside the covered part. *)
Definition considerName (name version : string) (f : FormatEncoder)
    (mostRecentFormat : option FormatEncoder) (n : string)
  : option (option FormatEncoder) :=
  match cleanFormatName n with
  | None => None
  | Some cleaned =>
      if String.eqb cleaned name then
        match versionMatches (Version f) version with
        | Some true =>
            match mostRecentFormat with
            | None => Some (Some f)
            | Some mostRecent =>
                if String.ltb (Version mostRecent) (Version f)
                then Some (Some f)
                else Some mostRecentFormat
            end
        | Some false => Some mostRecentFormat
        | None => None
        end
      else Some mostRecentFormat
  end.

Fixpoint considerNames (name version : string) (f : FormatEncoder)
    (mostRecentFormat : option FormatEncoder) (names : list string)
  : option (option FormatEncoder) :=
  match names with
  | [] => Some mostRecentFormat
  | n :: names' =>
      match considerName name version f mostRecentFormat n with
      | Some mostRecentFormat' =>
          considerNames name version f mostRecentFormat' names'
      | None => None
      end
  end.

Fixpoint considerEncoders (name version : string)
    (mostRecentFormat : option FormatEncoder) (fs : list FormatEncoder)
  : option (option FormatEncoder) :=
  match fs with
  | [] => Some mostRecentFormat
  | f :: fs' =>
      match considerNames name version f mostRecentFormat
              (ID f :: Aliases f) with
      | Some mostRecentFormat' =>
          considerEncoders name version mostRecentFormat' fs'
      | None => None
      end
  end.

(** [func (e EncoderCollection) Get(name, version string)]: the outer
    [option] is [None] when a name is beyond ASCII or a pattern is
    outside the covered syntax, the inner one is the nil result. *)
Definition Get (e : EncoderCollection) (name version : string)
  : option (option FormatEncoder) :=
  match cleanFormatName name with
  | None => None
  | Some name => considerEncoders name version None (encoders e)
  end.

(** The numbers between the dots of a version string, and the order of
    versions by these numbers. *)
Definition digitValue (c : ascii) : N := N_of_ascii c - 48.

Fixpoint numberOf (acc : N) (s : string) : N :=
  match s with
  | EmptyString => acc
  | String c rest => numberOf (10 * acc + digitValue c) rest
  end.

Fixpoint splitDots (s : string) : list string :=
  match s with
  | EmptyString => [""]
  | String c rest =>
      if Ascii.eqb c "."%char then "" :: splitDots rest
      else match splitDots rest with
           | part :: parts => String c part :: parts
           | [] => [String c ""]
           end
  end.

Definition versionNumbers (version : string) : list N :=
  List.map (numberOf 0) (splitDots version).

Fixpoint numbersBelow (v1 v2 : list N) : bool :=
  match v1, v2 with
  | [], [] => false
  | [], _ :: _ => true
  | _ :: _, [] => false
  | n1 :: v1', n2 :: v2' =>
      if (n1 <? n2)%N then true
      else if (n2 <? n1)%N then false
      else numbersBelow v1' v2'
  end.

(** The pattern string that [versionMatches] hands to
    [regexp.Compile]. *)
Definition escapeRequest (match_ : string) : string :=
  ReplaceAll (ReplaceAll match_ "."%char "\.") "*"%char ".*".

(** The expression of the starred group that [versionMatches] appends
    to the request: any number of dotted parts. *)
Definition dottedParts : regexp.regex :=
  regexp.Star (regexp.Cat (regexp.Cat regexp.Eps (regexp.Char "."))
                 (regexp.Star regexp.AnyNotNL)).

(** The request as the specification words it: a glob in which ['*']
    stands for any run of characters and every other character for
    itself ([regexp]'s [.] leaves out the newline), matched against the
    version or against the version up to one of its dots. *)
Fixpoint noNewline (s : string) : bool :=
  match s with
  | EmptyString => true
  | String c rest => negb (Ascii.eqb c regexp.newline) && noNewline rest
  end.

Inductive globMatches : string -> string -> Prop :=
| glob_nil : globMatches "" ""
| glob_star request run version :
    noNewline run = true -> globMatches request version ->
    globMatches (String "*" request) (run +:+ version)
| glob_char c request version :
    c <> "*"%char -> globMatches request version ->
    globMatches (String c request) (String c version).

Definition dottedTail (rest : string) : Prop :=
  rest = "" \/ exists t, rest = String "." t /\ noNewline t = true.

(** A request made of dots, asterisks and characters of ASCII without
    a meaning in the syntax of patterns. *)
Fixpoint plainRequest (match_ : string) : bool :=
  match match_ with
  | EmptyString => true
  | String c rest =>
      (Ascii.eqb c "."%char || Ascii.eqb c "*"%char
       || (negb (regexp.isMeta c) && (N_of_ascii c <? 128)%N))
      && plainRequest rest
  end.

(** The encoder answers to the requested name: its ID or one of its
    aliases equals the name after cleaning. *)
Definition nameMatches (name : string) (f : FormatEncoder) : bool :=
  match cleanFormatName name with
  | Some cleaned =>
      existsb (fun n => bool_decide (cleanFormatName n = Some cleaned))
        (ID f :: Aliases f)
  | None => false
  end.

(** The names of the encoders are ASCII text. *)
Definition asciiNames (e : EncoderCollection) : Prop :=
  Forall (fun f => Forall (fun n => gostrings.isASCII n = true)
                     (ID f :: Aliases f))
    (encoders e).

(** The encoder matches the request. *)
Definition matchesRequest (name version : string) (f : FormatEncoder)
  : bool :=
  nameMatches name f &&
  bool_decide (versionMatches (Version f) version = Some true).

(** The choice of [Get] between the encoder kept so far and a matching
    encoder [f]. *)
Definition moreRecent (mostRecentFormat : option FormatEncoder)
    (f : FormatEncoder) : option FormatEncoder :=
  match mostRecentFormat with
  | None => Some f
  | Some mostRecent =>
      if String.ltb (Version mostRecent) (Version f) then Some f
      else mostRecentFormat
  end.

(** Sample encoders of one format in two versions. *)
Definition cyclonedxJSON (version : string) : FormatEncoder :=
  {| ID := "cyclonedx-json"; Aliases := ["cyclonedx"; "cdx"];
     Version := version |}.

(** [v1] is a lower version than [v2]. *)
Definition versionBelow (v1 v2 : string) : bool :=
  numbersBelow (versionNumbers v1) (versionNumbers v2).

End encoders.


(** ** Package [file]: opening ZIP archives with prepended bytes
    (the part of it that lives in syft/event/parsers/parsers.go) *)

Module ziparchive.
Import bytes.

Definition directoryEndLen : Z := 22.
Definition directory64LocLen : Z := 20.
Definition directory64EndLen : Z := 56.
Definition directory64LocSignature : Z := 0x07064b50.
Definition directory64EndSignature : Z := 0x06064b50.

(** Conversions between [int64] and [uint64]. *)
Definition to_uint64 (z : Z) : Z := z mod 2 ^ 64.
Definition to_int64 (z : Z) : Z :=
  let u := z mod 2 ^ 64 in
  if u <? 2 ^ 63 then u else u - 2 ^ 64.

(** [b[i]] as a number; the reads below stay inside their buffers. *)
Definition byteAt (b : list byte) (i : nat) : Z := byteZ (nth i b x00).

(** [binary.LittleEndian.Uint16], [Uint32] and [Uint64]. *)
Definition LittleEndian_Uint16 (b : list byte) : Z :=
  Z.lor (byteAt b 0) (Z.shiftl (byteAt b 1) 8).

Definition LittleEndian_Uint32 (b : list byte) : Z :=
  Z.lor (Z.lor (Z.lor (byteAt b 0) (Z.shiftl (byteAt b 1) 8))
           (Z.shiftl (byteAt b 2) 16))
    (Z.shiftl (byteAt b 3) 24).

Definition LittleEndian_Uint64 (b : list byte) : Z :=
  Z.lor (Z.lor (Z.lor (Z.lor (Z.lor (Z.lor (Z.lor
    (byteAt b 0) (Z.shiftl (byteAt b 1) 8)) (Z.shiftl (byteAt b 2) 16))
    (Z.shiftl (byteAt b 3) 24)) (Z.shiftl (byteAt b 4) 32))
    (Z.shiftl (byteAt b 5) 40)) (Z.shiftl (byteAt b 6) 48))
    (Z.shiftl (byteAt b 7) 56).

(** [type readBuf []byte] with its three readers: the value read and
    the buffer after the read. *)
Definition readBuf := list byte.

Definition uint16 (b : readBuf) : Z * readBuf :=
  (LittleEndian_Uint16 b, skipn 2 b).
Definition uint32 (b : readBuf) : Z * readBuf :=
  (LittleEndian_Uint32 b, skipn 4 b).
Definition uint64 (b : readBuf) : Z * readBuf :=
  (LittleEndian_Uint64 b, skipn 8 b).

(** [type directoryEnd struct] *)
Record directoryEnd := {
  diskNbr : Z;
  dirDiskNbr : Z;
  dirRecordsThisDisk : Z;
  directoryRecords : Z;
  directorySize : Z;
  directoryOffset : Z;
}.

Inductive error :=
| ErrFormat                       (* zip.ErrFormat *)
| ErrRead (e : io.error)          (* an error of ReadAt *)
| ErrDirectory64End               (* "could not read directory64End" *)
| ErrNegativeLength.              (* make with a negative length panics *)

(** The test of [findSignatureInBlock] at the index [i]: the signature
    and a comment length that fits into the block. *)
Definition signatureAt (b : list byte) (i : nat) : bool :=
  (byteAt b i =? byteZ "P"%byte) && (byteAt b (i + 1) =? byteZ "K"%byte) &&
  (byteAt b (i + 2) =? 0x05) && (byteAt b (i + 3) =? 0x06).

Definition commentFits (b : list byte) (i : nat) : bool :=
  let n := Z.lor (byteAt b (i + 20)) (Z.shiftl (byteAt b (i + 21)) 8) in
  n + directoryEndLen + Z.of_nat i <=? Z.of_nat (length b).

(** The loop of [findSignatureInBlock] from the index [i] downwards. *)
Fixpoint findSignatureDown (b : list byte) (i : nat) : Z :=
  if signatureAt b i && commentFits b i then Z.of_nat i
  else match i with
       | O => -1
       | S i' => findSignatureDown b i'
       end.

(** [func findSignatureInBlock(b []byte) int] *)
Definition findSignatureInBlock (b : list byte) : Z :=
  if Z.of_nat (length b) - directoryEndLen <? 0 then -1
  else findSignatureDown b (Z.to_nat (Z.of_nat (length b) - directoryEndLen)).

(** One round of the first loop of [findArchiveStartOffset] for the
    block length [bLen]: [inl] is a return or the [break] with the
    buffer and [directoryEndOffset], [inr tt] is the next round. *)
Definition scanBlock (r : list byte) (size : Z) (i : nat) (bLen : Z)
  : result error (list byte * Z) + unit :=
  let bLen := if bLen >? size then size else bLen in
  if bLen <? 0 then inl (Err ErrNegativeLength)
  else
    let '(buf, _, err) := io.ReadAt r (Z.to_nat bLen) (size - bLen) in
    match err with
    | Some io.ErrNegativeOffset => inl (Err (ErrRead io.ErrNegativeOffset))
    | _ =>
        let p := findSignatureInBlock buf in
        if p >=? 0 then inl (Ok (skipn (Z.to_nat p) buf, size - bLen + p))
        else if (i =? 1)%nat || (bLen =? size) then inl (Err ErrFormat)
        else inr tt
    end.

(** The first loop of [findArchiveStartOffset] over the block lengths
    1024 and 65 * 1024. *)
Definition findDirectoryEnd (r : list byte) (size : Z)
  : result error (list byte * Z) :=
  match scanBlock r size 0 1024 with
  | inl res => res
  | inr _ =>
      match scanBlock r size 1 (65 * 1024) with
      | inl res => res
      | inr _ => Err ErrFormat
      end
  end.

(** [func findDirectory64End(r, directoryEndOffset) (int64, error)] *)
Definition findDirectory64End (r : list byte) (directoryEndOffset : Z)
  : Z * option error :=
  let locOffset := directoryEndOffset - directory64LocLen in
  if locOffset <? 0 then (-1, None)
  else
    let '(buf, _, err) := io.ReadAt r (Z.to_nat directory64LocLen) locOffset in
    match err with
    | Some e => (-1, Some (ErrRead e))
    | None =>
        let '(sig, b) := uint32 buf in
        if negb (sig =? directory64LocSignature) then (-1, None)
        else
          let '(disk, b) := uint32 b in
          if negb (disk =? 0) then (-1, None)
          else
            let '(p, b) := uint64 b in
            let '(disks, b) := uint32 b in
            if negb (disks =? 1) then (-1, None)
            else (to_int64 p, None)
    end.

(** [func readDirectory64End(r, offset, d) (err error)]: the updated
    directory end, or the error. *)
Definition readDirectory64End (r : list byte) (offset : Z) (d : directoryEnd)
  : result error directoryEnd :=
  let '(buf, _, err) := io.ReadAt r (Z.to_nat directory64EndLen) offset in
  match err with
  | Some e => Err (ErrRead e)
  | None =>
      let '(sig, b) := uint32 buf in
      if negb (sig =? directory64EndSignature) then Err ErrDirectory64End
      else
        let b := skipn 12 b in
        let '(v_diskNbr, b) := uint32 b in
        let '(v_dirDiskNbr, b) := uint32 b in
        let '(v_dirRecordsThisDisk, b) := uint64 b in
        let '(v_directoryRecords, b) := uint64 b in
        let '(v_directorySize, b) := uint64 b in
        let '(v_directoryOffset, b) := uint64 b in
        Ok {| diskNbr := v_diskNbr;
              dirDiskNbr := v_dirDiskNbr;
              dirRecordsThisDisk := v_dirRecordsThisDisk;
              directoryRecords := v_directoryRecords;
              directorySize := v_directorySize;
              directoryOffset := v_directoryOffset |}
  end.

(** The header read from the buffer that starts at the signature. *)
Definition readDirectoryEndRecord (buf : list byte) : directoryEnd :=
  let b := skipn 4 buf in
  let '(v_diskNbr, b) := uint16 b in
  let '(v_dirDiskNbr, b) := uint16 b in
  let '(v_dirRecordsThisDisk, b) := uint16 b in
  let '(v_directoryRecords, b) := uint16 b in
  let '(v_directorySize, b) := uint32 b in
  let '(v_directoryOffset, b) := uint32 b in
  {| diskNbr := v_diskNbr;
     dirDiskNbr := v_dirDiskNbr;
     dirRecordsThisDisk := v_dirRecordsThisDisk;
     directoryRecords := v_directoryRecords;
     directorySize := v_directorySize;
     directoryOffset := v_directoryOffset |}.

(** The sentinel test: "these values mean that the file can be a zip64
    file". *)
Definition maybeZip64 (d : directoryEnd) : bool :=
  (directoryRecords d =? 0xffff) || (directorySize d =? 0xffff) ||
  (directoryOffset d =? 0xffffffff).

(** The ZIP64 branch: the directory end offset and the directory end
    after it. *)
Definition substituteZip64 (r : list byte) (directoryEndOffset : Z)
    (d : directoryEnd) : result error (Z * directoryEnd) :=
  let '(p, err) := findDirectory64End r directoryEndOffset in
  match err with
  | Some e => Err e
  | None =>
      if p >=? 0 then
        match readDirectory64End r p d with
        | Ok d' => Ok (p, d')
        | Err e => Err e
        end
      else Ok (directoryEndOffset, d)
  end.

(** [func findArchiveStartOffset(r io.ReaderAt, size int64)
    (startOfArchive uint64, err error)]; the reader is the content of
    the file. *)
Definition findArchiveStartOffset (r : list byte) (size : Z)
  : result error Z :=
  match findDirectoryEnd r size with
  | Err e => Err e
  | Ok (buf, directoryEndOffset) =>
      let d := readDirectoryEndRecord buf in
      let located :=
        if maybeZip64 d then substituteZip64 r directoryEndOffset d
        else Ok (directoryEndOffset, d) in
      match located with
      | Err e => Err e
      | Ok (directoryEndOffset, d) =>
          let startOfArchive :=
            to_uint64 (to_uint64 directoryEndOffset - directorySize d
                       - directoryOffset d) in
          let o := to_int64 (directoryOffset d) in
          if (o <? 0) || (o >=? size) then Err ErrFormat
          else Ok startOfArchive
      end
  end.

Section Open.

(** [zip.NewReader(io.NewSectionReader(f, offset, size), size)] of
    Go's [archive/zip]: a function of the bytes of the section, [None]
    for an error. *)
Variable Reader : Type.
Variable zip_NewReader : list byte -> Z -> option Reader.

Inductive openError :=
| ErrOpen                                 (* os.Open or Stat failed *)
| ErrCannotFindBeginning (e : error)      (* "cannot find beginning of zip archive" *)
| ErrUnableToOpen.                        (* "unable to open ZipReadCloser" *)

(** The bytes that [io.NewSectionReader(f, off, n)] exposes. *)
Definition sectionBytes (f : list byte) (off n : Z) : list byte :=
  if (off <? 0) || (n <? 0) then []
  else firstn (Z.to_nat n) (skipn (Z.to_nat off) f).

(** [func OpenZip(filepath string)], which returns a [ZipReadCloser] or
    an error, on a file system that maps a path to the content of its
    file. *)
Definition OpenZip (fs : string -> option (list byte)) (filepath : string)
  : result openError Reader :=
  match fs filepath with
  | None => Err ErrOpen
  | Some f =>
      let fi_Size := Z.of_nat (length f) in
      match findArchiveStartOffset f fi_Size with
      | Err e => Err (ErrCannotFindBeginning e)
      | Ok offset =>
          let size := fi_Size - to_int64 offset in
          match zip_NewReader (sectionBytes f (to_int64 offset) size) size with
          | Some r => Ok r
          | None => Err ErrUnableToOpen
          end
      end
  end.

End Open.

(** An end-of-central-directory record as [findSignatureInBlock]
    accepts it starts at the index [i] of [b]. *)
Definition recordAt (b : list byte) (i : nat) : bool :=
  signatureAt b i && commentFits b i.

(** The little-endian bytes of a number. *)
Definition le16 (z : Z) : list byte :=
  [byte_of_Z z; byte_of_Z (z / 2 ^ 8)].
Definition le32 (z : Z) : list byte :=
  [byte_of_Z z; byte_of_Z (z / 2 ^ 8); byte_of_Z (z / 2 ^ 16);
   byte_of_Z (z / 2 ^ 24)].
Definition le64 (z : Z) : list byte :=
  le32 z ++ le32 (z / 2 ^ 32).

(** The end-of-central-directory record of an archive on one disk, with
    the length of the comment that follows it. *)
Definition endRecord (records dirSize dirOffset commentLen : Z)
  : list byte :=
  ["P"%byte; "K"%byte; x05; x06] ++ le16 0 ++ le16 0 ++ le16 records ++
  le16 records ++ le32 dirSize ++ le32 dirOffset ++ le16 commentLen.

(** The ZIP64 end-of-central-directory record and its locator. *)
Definition end64Record (records dirSize dirOffset : Z) : list byte :=
  le32 directory64EndSignature ++ le64 44 ++ le16 45 ++ le16 45 ++
  le32 0 ++ le32 0 ++ le64 records ++ le64 records ++ le64 dirSize ++
  le64 dirOffset.

Definition end64Locator (end64Offset : Z) : list byte :=
  le32 directory64LocSignature ++ le32 0 ++ le64 end64Offset ++ le32 1.

(** The local file header and the central directory header of a stored
    entry without content (CRC-32 and sizes are 0), dated 1980-01-01. *)
Definition localFileHeader (name : list byte) : list byte :=
  le32 0x04034b50 ++ le16 45 ++ le16 0 ++ le16 0 ++ le16 0 ++ le16 0x21 ++
  le32 0 ++ le32 0 ++ le32 0 ++ le16 (Z.of_nat (length name)) ++ le16 0 ++
  name.

Definition centralHeader (name : list byte) (localOffset : Z) : list byte :=
  le32 0x02014b50 ++ le16 45 ++ le16 45 ++ le16 0 ++ le16 0 ++ le16 0 ++
  le16 0x21 ++ le32 0 ++ le32 0 ++ le32 0 ++
  le16 (Z.of_nat (length name)) ++ le16 0 ++ le16 0 ++ le16 0 ++ le16 0 ++
  le32 0 ++ le32 localOffset ++ name.

(** Sample archives with the one empty entry [a]: the local entry of 31
    bytes, the central directory of 47 bytes, and the end records in the
    classic format (with a comment) and in the ZIP64 format, where the
    end record holds the sentinel values. *)
Definition sampleBody : list byte := localFileHeader ["a"%byte].
Definition sampleDirectory : list byte := centralHeader ["a"%byte] 0.

Definition sampleArchive (comment : list byte) : list byte :=
  sampleBody ++ sampleDirectory ++
  endRecord 1 47 31 (Z.of_nat (length comment)) ++ comment.

Definition sampleArchive64 : list byte :=
  sampleBody ++ sampleDirectory ++ end64Record 1 47 31 ++ end64Locator 78 ++
  endRecord 0xffff 0xffffffff 0xffffffff 0.

(** [n] prepended bytes. *)
Definition prepended (n : Z) : list byte := repeat x00 (Z.to_nat n).

End ziparchive.


(** ** Go's [sort.Strings] and the string sets of go-set *)

Module sort.

(** [x <= y] in Go's byte-wise order of strings: [y < x] is false. *)
Definition stringLe (x y : string) : Prop := String.ltb y x = false.

#[global] Instance stringLe_dec (x y : string) : Decision (stringLe x y).
Proof. unfold stringLe. apply _. Defined.

(** [sort.Strings(x)] sorts in increasing order.  Equal strings cannot
    be told apart, so the sorting algorithm does not show in the
    result; it is run as a merge sort. *)
Definition Strings (x : list string) : list string := merge_sort stringLe x.

End sort.

Module strset.

(** [strset.Set], a [map[string]struct{}]. *)
Definition Set_ := gset string.

(** [strset.New()] *)
Definition New : Set_ := ∅.

(** [s.Add(items...)] *)
Definition Add (s : Set_) (items : list string) : Set_ :=
  s ∪ list_to_set items.

(** [s.List()]: the members in the order in which the map happens to be
    ranged over; [elements] is one such order, and the statements about
    the callers hold for every one. *)
Definition List (s : Set_) : list string := elements s.

End strset.

(** ** Package [file]: coordinate sets (unnamed/part_011) and the rest
    of location sets (syft/file/location_set.go) *)

Module coordinateset.
Import file.

#[export] Instance Coordinates_countable : Countable Coordinates.
Proof.
  apply (inj_countable' (fun c => (RealPath c, FileSystemID c))
           (fun p => {| RealPath := p.1; FileSystemID := p.2 |})).
  intros [rp fs]. reflexivity.
Defined.

(** [type CoordinateSet struct { set map[Coordinates]struct{} }];
    [None] is the nil map of the zero value. *)
Record CoordinateSet := { set : option (gset Coordinates) }.

(** [func (s *CoordinateSet) Add(coordinates ...Coordinates)] *)
Definition Add (s : CoordinateSet) (coordinates : list Coordinates)
  : CoordinateSet :=
  {| set := Some (fold_left (fun m l => {[ l ]} ∪ m) coordinates
                    (default ∅ (set s))) |}.

(** [func NewCoordinateSet(coordinates ...Coordinates) (s CoordinateSet)]:
    one call [s.Add(l)] per argument, starting from the zero value. *)
Definition NewCoordinateSet (coordinates : list Coordinates) : CoordinateSet :=
  fold_left (fun s l => Add s [l]) coordinates {| set := None |}.

(** [func (s CoordinateSet) Remove(coordinates ...Coordinates)]; the
    map is shared with the caller, whose set is the result. *)
Definition Remove (s : CoordinateSet) (coordinates : list Coordinates)
  : CoordinateSet :=
  match set s with
  | None => s
  | Some m =>
      {| set := Some (fold_left (fun m l => m ∖ {[ l ]}) coordinates m) |}
  end.

(** [func (s CoordinateSet) Contains(l Coordinates) bool] *)
Definition Contains (s : CoordinateSet) (l : Coordinates) : bool :=
  match set s with
  | None => false
  | Some m => bool_decide (l ∈ m)
  end.

(** The [less] closure of [ToSlice]. *)
Definition less (ci cj : Coordinates) : bool :=
  if String.eqb (RealPath ci) (RealPath cj)
  then String.ltb (FileSystemID ci) (FileSystemID cj)
  else String.ltb (RealPath ci) (RealPath cj).

(** [x] may stand before [y] in the sorted slice. *)
Definition notAfter (x y : Coordinates) : Prop := less y x = false.

#[global] Instance notAfter_dec (x y : Coordinates) : Decision (notAfter x y).
Proof. unfold notAfter. apply _. Defined.

(** [func (s CoordinateSet) ToSlice() []Coordinates]: the keys in the
    order in which the map is ranged over, then [sort.SliceStable]; a
    nil slice and an empty slice are both the empty list. *)
Definition ToSliceOf (order : list Coordinates) : list Coordinates :=
  merge_sort notAfter order.

Definition ToSlice (s : CoordinateSet) : list Coordinates :=
  match set s with
  | None => []
  | Some m => ToSliceOf (elements m)
  end.

(** [func (s CoordinateSet) Paths() []string] *)
Definition pathSet (cs : list Coordinates) : strset.Set_ :=
  fold_left (fun paths c => strset.Add paths [RealPath c]) cs strset.New.

Definition Paths (s : CoordinateSet) : list string :=
  match set s with
  | None => []
  | Some _ => sort.Strings (strset.List (pathSet (ToSlice s)))
  end.

End coordinateset.

Module locationset.
Import file.
Export coordinateset.

(** [func (s LocationSet) Remove(locations ...Location)]; the map is
    shared with the caller, whose set is the result. *)
Definition Remove (s : LocationSet) (locations : list Location)
  : LocationSet :=
  match file.set s with
  | None => s
  | Some m =>
      {| file.set :=
           Some (fold_left (fun m l => delete (locationData l) m)
                   locations m) |}
  end.

(** [func (s *LocationSet) CoordinateSet() CoordinateSet] with the keys
    of the map ranged over in the order [keys]. *)
Definition coordinateSetOver (keys : list LocationData) : CoordinateSet :=
  fold_left (fun set l => coordinateset.Add set [coordinates l]) keys
    (NewCoordinateSet []).

Definition CoordinateSet_ (s : LocationSet) : CoordinateSet :=
  match file.set s with
  | None => NewCoordinateSet []
  | Some m => coordinateSetOver (map_to_list m).*1
  end.

(** [func (s *LocationSet) Empty() bool] *)
Definition Empty (s : LocationSet) : bool :=
  match file.set s with
  | None => true
  | Some m => (size m =? 0)%nat
  end.

(** An annotation map that was made, as by every constructor of
    [Location]. *)
Definition initialised (md : LocationMetadata) : Prop :=
  Annotations md <> None.

(** The real paths of the members of a location set. *)
Definition realPaths (s : LocationSet) : gset string :=
  match file.set s with
  | None => ∅
  | Some m => set_map (fun d => RealPath (coordinates d)) (dom m)
  end.

Section Hash.

(** [hashstructure.Hash(v, FormatV2, &HashOptions{ZeroNil: true,
    SlicesAsSets: true})] on a slice of strings is a function of the
    library, a parameter here. *)
Variable HashError : Type.
Variable hashstructure_Hash : list string -> result HashError Z.

(** [func (s LocationSet) Hash() (uint64, error)] *)
Definition Hash (s : LocationSet) : result HashError Z :=
  hashstructure_Hash (Paths (CoordinateSet_ s)).

End Hash.

(** [func (l Location) Path() string] *)
Definition Path (l : Location) : string :=
  if negb (String.eqb (AccessPath (locationData l)) "")
  then AccessPath (locationData l)
  else RealPath (coordinates (locationData l)).

(** [func (l Location) Equals(other Location) bool] *)
Definition Equals (l other : Location) : bool :=
  String.eqb (RealPath (coordinates (locationData l)))
             (RealPath (coordinates (locationData other))) &&
  String.eqb (AccessPath (locationData l)) (AccessPath (locationData other)) &&
  String.eqb (FileSystemID (coordinates (locationData l)))
             (FileSystemID (coordinates (locationData other))).

(** Sample sets: one file reached through one link, and the same real
    path reached through another link and found in a second layer. *)
Definition sampleSetVar : LocationSet :=
  {| file.set :=
       Some {[ locationData etcHostsLinkVar :=
                 locationMetadata etcHostsLinkVar ]} |}.

Definition sampleSetHome : LocationSet :=
  {| file.set :=
       Some (<[ locationData etcHostsLinkHome :=
                  locationMetadata etcHostsLinkHome ]>
               {[ locationData
                    (NewVirtualLocationFromCoordinates
                       {| RealPath := "/etc/hosts"; FileSystemID := "b" |}
                       "/etc/hosts") := {| Annotations := None |} ]}) |}.

End locationset.

(** ** Package [format]: the listings of an encoder collection and
    [GetByString] (unnamed/part_006) *)

Module encoderlist.
Import encoders.
Export gostrings.

(** The string set [idSet] that the first loop of [IDs] fills. *)
Definition idSet (e : EncoderCollection) : strset.Set_ :=
  fold_left (fun idSet f => strset.Add idSet [ID f]) (encoders e) strset.New.

(** [func (e EncoderCollection) IDs() []sbom.FormatID] *)
Definition IDs (e : EncoderCollection) : list string :=
  let idList := sort.Strings (strset.List (idSet e)) in
  fold_left (fun ids id => ids ++ [id]) idList [].

(** The string that the loop of [NameVersions] adds for an encoder:
    the id alone when the version is [sbom.AnyVersion], and
    [fmt.Sprintf("%s@%s", f.ID(), f.Version())] otherwise. *)
Definition nameVersion (f : FormatEncoder) : string :=
  if String.eqb (Version f) AnyVersion then ID f
  else ID f +:+ "@" +:+ Version f.

Definition nameVersionSet (e : EncoderCollection) : strset.Set_ :=
  fold_left (fun set f => strset.Add set [nameVersion f]) (encoders e)
    strset.New.

(** [func (e EncoderCollection) NameVersions() []string] *)
Definition NameVersions (e : EncoderCollection) : list string :=
  sort.Strings (strset.List (nameVersionSet e)).

Definition aliasSet (e : EncoderCollection) : strset.Set_ :=
  fold_left (fun aliases f => strset.Add aliases (Aliases f)) (encoders e)
    strset.New.

(** [func (e EncoderCollection) Aliases() []string] *)
Definition Collection_Aliases (e : EncoderCollection) : list string :=
  sort.Strings (strset.List (aliasSet e)).

(** The text before and after the first occurrence of [sep] in [s],
    if there is one. *)
Fixpoint cut (sep : ascii) (s : string) : option (string * string) :=
  match s with
  | EmptyString => None
  | String c rest =>
      if Ascii.eqb c sep then Some (EmptyString, rest)
      else match cut sep rest with
           | Some (before, after) => Some (String c before, after)
           | None => None
           end
  end.

(** [strings.SplitN(s, sep, 2)] for a separator of one character. *)
Definition SplitN2 (s : string) (sep : ascii) : list string :=
  match cut sep s with
  | Some (before, after) => [before; after]
  | None => [s]
  end.

(** [func (e EncoderCollection) GetByString(s string)] *)
Definition GetByString (e : EncoderCollection) (s : string)
  : option (option FormatEncoder) :=
  let parts := SplitN2 s "@"%char in
  let version :=
    if (1 <? length parts)%nat then nth 1 parts "" else AnyVersion in
  Get e (nth 0 parts "") version.

(** Sample collection: three formats, one of them in two versions. *)
Definition sampleEncoders : EncoderCollection :=
  {| encoders :=
       [ {| ID := "syft-json"; Aliases := ["json"; "syft"]; Version := "" |};
         cyclonedxJSON "1.5"; cyclonedxJSON "1.4";
         {| ID := "spdx-json"; Aliases := []; Version := "2.3" |} ] |}.

End encoderlist.

(** ** Package [pkg]: RPM database entries (syft/pkg/rpm.go) *)

Module pkg.

(** [type RpmFileRecord struct]; the digest is kept as its text. *)
Record RpmFileRecord := {
  Path : string;
  Mode : Z;
  rpmFileSize : Z;
  Digest : string;
  UserName : string;
  GroupName : string;
  Flags : string;
}.

(** [type RpmDBEntry struct]; the pointers [Epoch] and
    [ModularityLabel] are options. *)
Record RpmDBEntry := {
  Name : string;
  Version : string;
  Epoch : option Z;
  Arch : string;
  Release : string;
  SourceRpm : string;
  Size : Z;
  Vendor : string;
  ModularityLabel : option string;
  Files : list RpmFileRecord;
}.

Definition ownedSet (m : RpmDBEntry) : strset.Set_ :=
  fold_left (fun s f => if negb (String.eqb (Path f) "")
                        then strset.Add s [Path f] else s)
    (Files m) strset.New.

(** [func (m RpmDBEntry) OwnedFiles() (result []string)] *)
Definition OwnedFiles (m : RpmDBEntry) : list string :=
  sort.Strings (strset.List (ownedSet m)).

End pkg.

(** ** Package [file]: traversal of ZIP archives (unnamed/part_017) *)

Module ziptraverse.

Section Traverse.

(** Of Go's [archive/zip] the code uses an entry of type [zip.File]
    through its name, [FileInfo().IsDir()] and [Open()], and the opened
    entry through the copy of its content ([safeCopy]) and [Close()].
    The outcomes of these calls are data of the entry here; [OpenZip] is
    the function of the archive path that returns the entries of the
    archive. *)
Variables OpenError IOError : Type.

Record File := {
  Name : string;
  IsDir : bool;
  Open : option IOError;           (* the error of [file.Open()] *)
  copied : result IOError string;  (* [safeCopy] of the opened entry *)
  Close : option IOError;          (* the error of [zippedFile.Close()] *)
}.

Variable OpenZip : string -> result OpenError (list File).

(** [type zipTraversalRequest map[string]struct{}] and
    [newZipTraverseRequest(paths...)] *)
Definition zipTraversalRequest := gset string.

Definition newZipTraverseRequest (paths : list string) : zipTraversalRequest :=
  fold_left (fun results p => {[ p ]} ∪ results) paths ∅.

Inductive visitError :=
| ErrUnableToRead (name : string) (e : IOError)    (* "unable to read file=%q from zip=%q" *)
| ErrDirectory (name : string)                     (* "unable to extract directories, only files" *)
| ErrUnableToCopy (name : string) (e : IOError)    (* "unable to copy source=%q for zip=%q" *)
| ErrUnableToClose (name : string) (e : IOError).  (* "unable to close source file=%q from zip=%q" *)

Inductive traverseError :=
| ErrUnableToOpenArchive (e : OpenError)           (* "unable to open zip archive (%s)" *)
| ErrVisitor (e : visitError).

(** The loop of [TraverseFilesInZip] over [zipReader.Reader.File]; the
    visitor is a closure over a state [S] that it may change before it
    returns its error. *)
Fixpoint traverse {S : Type} (visitor : File -> S -> S * option visitError)
    (paths : list string) (request : zipTraversalRequest)
    (files : list File) (st : S) : S * option traverseError :=
  match files with
  | [] => (st, None)
  | file :: rest =>
      if (0 <? length paths)%nat && negb (bool_decide (Name file ∈ request))
      then traverse visitor paths request rest st
      else
        match visitor file st with
        | (st', Some err) => (st', Some (ErrVisitor err))
        | (st', None) => traverse visitor paths request rest st'
        end
  end.

(** [func TraverseFilesInZip(archivePath, visitor, paths...) error] *)
Definition TraverseFilesInZip {S : Type} (archivePath : string)
    (visitor : File -> S -> S * option visitError) (paths : list string)
    (st : S) : S * option traverseError :=
  let request := newZipTraverseRequest paths in
  match OpenZip archivePath with
  | Err err => (st, Some (ErrUnableToOpenArchive err))
  | Ok files => traverse visitor paths request files st
  end.

(** The visitor of [ContentsFromZip], a closure over the map
    [results]. *)
Definition contentsVisitor (file : File) (results : gmap string string)
  : gmap string string * option visitError :=
  match Open file with
  | Some err => (results, Some (ErrUnableToRead (Name file) err))
  | None =>
      if IsDir file then (results, Some (ErrDirectory (Name file)))
      else
        match copied file with
        | Err err => (results, Some (ErrUnableToCopy (Name file) err))
        | Ok buffer =>
            let results := <[Name file := buffer]> results in
            match Close file with
            | Some err => (results, Some (ErrUnableToClose (Name file) err))
            | None => (results, None)
            end
        end
  end.

(** [func ContentsFromZip(archivePath string, paths ...string)
    (map[string]string, error)] *)
Definition ContentsFromZip (archivePath : string) (paths : list string)
  : gmap string string * option traverseError :=
  let results : gmap string string := ∅ in
  if (length paths =? 0)%nat then (results, None)
  else TraverseFilesInZip archivePath contentsVisitor paths results.

(** The content of an entry that is read without an error. *)
Definition contentOf (file : File) : option string :=
  match Open file, IsDir file, copied file, Close file with
  | None, false, Ok buffer, None => Some buffer
  | _, _, _, _ => None
  end.

Definition named (name : string) (file : File) : bool :=
  String.eqb (Name file) name.

End Traverse.

Arguments Name {IOError} _.
Arguments IsDir {IOError} _.
Arguments Open {IOError} _.
Arguments copied {IOError} _.
Arguments Close {IOError} _.
Arguments contentOf {IOError} _.
Arguments named {IOError} _ _.
Arguments ContentsFromZip {OpenError IOError} _ _ _.
Arguments TraverseFilesInZip {OpenError IOError} _ {S} _ _ _ _.
Arguments traverse {OpenError IOError S} _ _ _ _ _.
Arguments contentsVisitor {IOError} _ _.
Arguments ErrVisitor {OpenError IOError} e.
Arguments ErrUnableToOpenArchive {OpenError IOError} e.

(** A sample archive: a manifest, a directory and a class file whose
    name occurs twice. *)
Definition sampleEntry (name content : string) : File unit :=
  {| Name := name; IsDir := false; Open := None; copied := Ok content;
     Close := None |}.

Definition sampleJar : list (File unit) :=
  [ sampleEntry "META-INF/MANIFEST.MF" "Manifest-Version: 1.0";
    {| Name := "com/"; IsDir := true; Open := None; copied := Ok "";
       Close := None |};
    sampleEntry "com/A.class" "old";
    sampleEntry "com/A.class" "new" ].

Definition sampleOpenZip (archivePath : string)
  : result unit (list (File unit)) :=
  if String.eqb archivePath "app.jar" then Ok sampleJar else Err tt.

End ziptraverse.

(** ** Package [file]: [UnzipToDir] and [extractSingleFile] with the
    calls of the file system (unnamed/part_017) *)

Module zipextract.
Import filepath zipfile ziptraverse.

Section Extract.

(** The archive is opened by [OpenZip], as in [ziptraverse].  The
    operating system is a parameter: [os.MkdirAll] and [os.OpenFile]
    (with O_WRONLY, O_CREATE and O_TRUNC) for a path and the mode of an
    entry, [safeCopy] (declared outside the sources) of the opened entry
    into the opened output file, and the [Close] of the output file.
    Each acts on a file system of type [FS] and returns the file system
    after the call with its error. *)
Variables OpenError IOError : Type.
Variable OpenZip : string -> result OpenError (list (File IOError)).
Variable FS : Type.
Variable os_MkdirAll : string -> File IOError -> FS -> FS * option IOError.
Variable os_OpenFile : string -> File IOError -> FS -> FS * option IOError.
Variable safeCopy : string -> File IOError -> FS -> FS * option IOError.
Variable outputFile_Close : string -> FS -> FS * option IOError.

Inductive extractError :=
| ErrZipSlip (e : errZipSlipDetected)
| ErrReadFile (name : string) (e : IOError)      (* "unable to read file=%q from zip=%q: %w" *)
| ErrCreateDir (path : string) (e : IOError)     (* "unable to create dir=%q from zip=%q: %w" *)
| ErrCreateDest (path : string) (e : IOError)    (* "unable to create dest file=%q from zip=%q: %w" *)
| ErrCopy (name path : string) (e : IOError)     (* "unable to copy source=%q to dest=%q for zip=%q: %w" *)
| ErrCloseDest (path : string) (e : IOError)     (* "unable to close dest file=%q from zip=%q: %w" *)
| ErrCloseSource (name : string) (e : IOError).  (* "unable to close source file=%q from zip=%q: %w" *)

Inductive unzipError :=
| ErrUnableToOpenArchive (e : OpenError)         (* "unable to open zip archive (%s): %w" *)
| ErrVisitor (e : extractError).

(** The two branches of [extractSingleFile] between [file.Open()] and
    [zippedFile.Close()]. *)
Definition writeEntry (file : File IOError) (expandedFilePath : string)
    (fs : FS) : FS * option extractError :=
  if IsDir file then
    match os_MkdirAll expandedFilePath file fs with
    | (fs, Some err) => (fs, Some (ErrCreateDir expandedFilePath err))
    | (fs, None) => (fs, None)
    end
  else
    match os_OpenFile expandedFilePath file fs with
    | (fs, Some err) => (fs, Some (ErrCreateDest expandedFilePath err))
    | (fs, None) =>
        match safeCopy expandedFilePath file fs with
        | (fs, Some err) =>
            (fs, Some (ErrCopy (Name file) expandedFilePath err))
        | (fs, None) =>
            match outputFile_Close expandedFilePath fs with
            | (fs, Some err) =>
                (fs, Some (ErrCloseDest expandedFilePath err))
            | (fs, None) => (fs, None)
            end
        end
    end.

(** [func extractSingleFile(file, expandedFilePath, archivePath)
    error] *)
Definition extractSingleFile (file : File IOError)
    (expandedFilePath : string) (fs : FS) : FS * option extractError :=
  match Open file with
  | Some err => (fs, Some (ErrReadFile (Name file) err))
  | None =>
      match writeEntry file expandedFilePath fs with
      | (fs, Some err) => (fs, Some err)
      | (fs, None) =>
          match Close file with
          | Some err => (fs, Some (ErrCloseSource (Name file) err))
          | None => (fs, None)
          end
      end
  end.

(** The visitor of [UnzipToDir]. *)
Definition visitor (targetDir : string) (file : File IOError) (fs : FS)
  : FS * option extractError :=
  match safeJoin targetDir [Name file] with
  | Err err => (fs, Some (ErrZipSlip err))
  | Ok joinedPath => extractSingleFile file joinedPath fs
  end.

(** The loop of [TraverseFilesInZip] for a call without paths: every
    entry is visited, and the first error of the visitor ends the
    loop. *)
Fixpoint unzipLoop (targetDir : string) (files : list (File IOError))
    (fs : FS) : FS * option extractError :=
  match files with
  | [] => (fs, None)
  | file :: rest =>
      match visitor targetDir file fs with
      | (fs, Some err) => (fs, Some err)
      | (fs, None) => unzipLoop targetDir rest fs
      end
  end.

(** [func UnzipToDir(archivePath, targetDir string) error], with the
    file system before and after the call. *)
Definition UnzipToDir (archivePath targetDir : string) (fs : FS)
  : FS * option unzipError :=
  match OpenZip archivePath with
  | Err err => (fs, Some (ErrUnableToOpenArchive err))
  | Ok files =>
      match unzipLoop targetDir files fs with
      | (fs, Some err) => (fs, Some (ErrVisitor err))
      | (fs, None) => (fs, None)
      end
  end.

(** The entries of [files] are extracted one after the other, each to
    the path that [safeJoin] gives for its name and each without an
    error, and take the file system from [fs] to [fs']. *)
Inductive extracts (targetDir : string)
  : list (File IOError) -> FS -> FS -> Prop :=
| extracts_nil fs : extracts targetDir [] fs fs
| extracts_cons file rest joinedPath fs fs1 fs2 :
    safeJoin targetDir [Name file] = Ok joinedPath ->
    extractSingleFile file joinedPath fs = (fs1, None) ->
    extracts targetDir rest fs1 fs2 ->
    extracts targetDir (file :: rest) fs fs2.

End Extract.

Arguments ErrZipSlip {IOError} e.
Arguments ErrReadFile {IOError} name e.
Arguments ErrCreateDir {IOError} path e.
Arguments ErrCreateDest {IOError} path e.
Arguments ErrCopy {IOError} name path e.
Arguments ErrCloseDest {IOError} path e.
Arguments ErrCloseSource {IOError} name e.
Arguments ErrUnableToOpenArchive {OpenError IOError} e.
Arguments ErrVisitor {OpenError IOError} e.

(** A file system for the examples: the directories that exist.
    [os.MkdirAll] makes the directory, [os.OpenFile] fails (with the one
    error of type [unit]) when the directory of the file does not
    exist, and copying and closing succeed. *)
Definition sampleDirs := list string.

Definition sampleMkdirAll (path : string) (file : File unit)
    (fs : sampleDirs) : sampleDirs * option unit :=
  (fs ++ [Clean path], None).

Definition sampleOpenFile (path : string) (file : File unit)
    (fs : sampleDirs) : sampleDirs * option unit :=
  if bool_decide (Clean (path +:+ "/..") ∈ fs) then (fs, None)
  else (fs, Some tt).

Definition sampleSafeCopy (path : string) (file : File unit)
    (fs : sampleDirs) : sampleDirs * option unit := (fs, None).

Definition sampleClose (path : string) (fs : sampleDirs)
  : sampleDirs * option unit := (fs, None).

Definition sampleUnzipToDir (files : list (File unit))
    (targetDir : string) (fs : sampleDirs)
  : sampleDirs * option (unzipError unit unit) :=
  UnzipToDir unit unit (fun _ => Ok files) sampleDirs sampleMkdirAll
    sampleOpenFile sampleSafeCopy sampleClose "app.zip" targetDir fs.

Definition sampleDir (name : string) : File unit :=
  {| Name := name; IsDir := true; Open := None; copied := Ok "";
     Close := None |}.

(** A file system that records the paths handed to it and never
    fails. *)
Definition recordPath (path : string) (file : File unit)
    (written : list string) : list string * option unit :=
  (written ++ [path], None).

End zipextract.

(** ** Package [cpe]: sorting attributes by specificity
    (syft/cpe/by_specificity.go) *)

Module specificity.
Import cpe.

Section Sorting.

(** [Attributes.BindToFmtString] of cpe.go is a parameter, as above. *)
Variable BindToFmtString : Attributes -> string.

(** [func (c BySpecificity) Less(i, j int) bool] on the elements
    [c[i]] and [c[j]]. *)
Definition Less (ci cj : Attributes) : bool :=
  isMoreSpecific BindToFmtString ci cj.

Definition notAfter (x y : Attributes) : Prop := Less y x = false.

#[global] Instance notAfter_dec (x y : Attributes) : Decision (notAfter x y).
Proof. unfold notAfter. apply _. Defined.

(** A slice that [sort.Sort(BySpecificity(l))] may leave: the elements
    of [l] in an order in which no element is less than its
    predecessor. *)
Definition SortResult (l result : list Attributes) : Prop :=
  result ≡ₚ l /\ Sorted notAfter result.

(** One such slice, by a merge sort. *)
Definition Sort (l : list Attributes) : list Attributes :=
  merge_sort notAfter l.

(** The three values that [isMoreSpecific] compares: the weighted count
    of specified fields, the total length of the fields, and the bound
    format string. *)
Definition sortKey (a : Attributes) : Z * Z * string :=
  (weightedCountForSpecifiedFields a, countFieldLength a, BindToFmtString a).

End Sorting.

(** The comparison on sort keys. *)
Definition keyLess (k1 k2 : Z * Z * string) : bool :=
  lexb 0 k1.1.1 k1.1.2 k1.2 0 k2.1.1 k2.1.2 k2.2.

Definition keyNotAfter (k1 k2 : Z * Z * string) : Prop := keyLess k2 k1 = false.

#[global] Instance keyNotAfter_dec k1 k2 : Decision (keyNotAfter k1 k2).
Proof. unfold keyNotAfter. apply _. Defined.

End specificity.

(** ** Package [spdxjson]: the format of an SPDX version string
    (unnamed/part_004) *)

Module spdxjson.
Import gostrings.

Section Decoder.

(** [const ID = spdxutil.JSONFormatID], declared outside the sources. *)
Variable ID : string.

(** [func getFormatInfo(spdxVersion string) (sbom.FormatID, string)].
    [strings.ToLower] changes the letters of ASCII alone where the
    lowered text begins with ["spdx-"]. *)
Definition getFormatInfo (spdxVersion : string) : string * string :=
  if negb (String.prefix "spdx-" (encoders.ToLower spdxVersion))
  then ("", "")
  else
    let fields := Split spdxVersion "-" in
    if negb (length fields =? 2)%nat then (ID, "")
    else (ID, nth 1 fields "").

(** The end of [decoder.Identify], after the document was read: the
    result for the value of its field [spdxVersion]. *)
Definition identifyVersion (spdxVersion : string) : string * string :=
  let '(id, version) := getFormatInfo spdxVersion in
  if String.eqb version "" || negb (String.eqb id ID) then ("", "")
  else (id, version).

End Decoder.

End spdxjson.

(** ** Package [pkgcataloging]: selection requests
    (syft/cataloging/pkgcataloging/selection_request.go) *)

Module pkgcataloging.
Import gostrings.

Record SelectionRequest := {
  DefaultNamesOrTags : list string;
  SubSelectTags : list string;
  AddNames : list string;
  RemoveNamesOrTags : list string;
}.

Definition NewSelectionRequest : SelectionRequest :=
  {| DefaultNamesOrTags := []; SubSelectTags := []; AddNames := [];
     RemoveNamesOrTags := [] |}.

(** The four [With...] methods append to one field of a copy of the
    request. *)
Definition WithDefaults (s : SelectionRequest) (nameOrTags : list string)
  : SelectionRequest :=
  {| DefaultNamesOrTags := DefaultNamesOrTags s ++ nameOrTags;
     SubSelectTags := SubSelectTags s; AddNames := AddNames s;
     RemoveNamesOrTags := RemoveNamesOrTags s |}.

Definition WithSubSelections (s : SelectionRequest) (tags : list string)
  : SelectionRequest :=
  {| DefaultNamesOrTags := DefaultNamesOrTags s;
     SubSelectTags := SubSelectTags s ++ tags; AddNames := AddNames s;
     RemoveNamesOrTags := RemoveNamesOrTags s |}.

Definition WithAdditions (s : SelectionRequest) (names : list string)
  : SelectionRequest :=
  {| DefaultNamesOrTags := DefaultNamesOrTags s;
     SubSelectTags := SubSelectTags s; AddNames := AddNames s ++ names;
     RemoveNamesOrTags := RemoveNamesOrTags s |}.

Definition WithRemovals (s : SelectionRequest) (nameOrTags : list string)
  : SelectionRequest :=
  {| DefaultNamesOrTags := DefaultNamesOrTags s;
     SubSelectTags := SubSelectTags s; AddNames := AddNames s;
     RemoveNamesOrTags := RemoveNamesOrTags s ++ nameOrTags |}.

(** The inner loop of [cleanSelection] over the pieces of one tag. *)
Definition cleanPieces (cleaned pieces : list string) : list string :=
  fold_left (fun cleaned t =>
               let t := TrimSpace t in
               if String.eqb t "" then cleaned else cleaned ++ [t])
    pieces cleaned.

(** [func cleanSelection(tags []string) []string] *)
Definition cleanSelection (tags : list string) : list string :=
  fold_left (fun cleaned tag => cleanPieces cleaned (Split tag ","))
    tags [].

(** The [switch] of [WithExpression] on one expression. *)
Definition withExpr (s : SelectionRequest) (expr : string)
  : SelectionRequest :=
  if HasPrefix expr "+" then WithAdditions s [TrimPrefix expr "+"]
  else if HasPrefix expr "-" then WithRemovals s [TrimPrefix expr "-"]
  else WithSubSelections s [expr].

(** [func (s SelectionRequest) WithExpression(expressions ...string)] *)
Definition WithExpression (s : SelectionRequest) (expressions : list string)
  : SelectionRequest :=
  fold_left withExpr (cleanSelection expressions) s.

(** A cleaned expression is not empty, holds no comma and neither
    begins nor ends with white space. *)
Definition clean (t : string) : Prop :=
  t <> "" /\ free "," t = true /\ TrimSpace t = t.

End pkgcataloging.

(** ** Package [source]: scopes (syft/source/scope.go) *)

Module source.

(** [type Scope string] and its constants. *)
Definition Scope := string.
Definition UnknownScope : Scope := "unknown-scope".
Definition SquashedScope : Scope := "squashed".
Definition AllLayersScope : Scope := "all-layers".

Definition AllScopes : list Scope := [SquashedScope; AllLayersScope].

(** [func (o Scope) String() string] *)
Definition Scope_String (o : Scope) : string := o.

(** [func ParseScope(userStr string) Scope].  [strings.ToLower] changes
    the letters of ASCII alone where the lowered text is one of the
    three words of the [switch]. *)
Definition ParseScope (userStr : string) : Scope :=
  let lowered := encoders.ToLower userStr in
  if String.eqb lowered (Scope_String SquashedScope) then SquashedScope
  else if String.eqb lowered "alllayers"
          || String.eqb lowered (Scope_String AllLayersScope)
       then AllLayersScope
       else UnknownScope.

End source.

(** ** Package [redhat]: lines of an RPM manifest
    (syft/pkg/cataloger/redhat/package.go) *)

Module redhat.
Import gostrings pkg.

(** [strconv.Atoi(s)] on a 64-bit platform returns a number and an
    error: an optional sign and decimal digits, at least one, give
    their value; every other text gives 0 and a syntax error, and digits
    that leave the range of [int64] give the nearest bound and a range
    error.  ([Atoi] has a shorter path for texts of less than 19
    characters, with the same results.) *)
Inductive numError :=
| ErrSyntax   (* strconv.ErrSyntax *)
| ErrRange.   (* strconv.ErrRange *)

Definition isDigit (c : ascii) : bool :=
  let n := N_of_ascii c in ((48 <=? n) && (n <=? 57))%N.

(** The loop of [strconv.ParseUint(s, 10, 64)] with the digits read so
    far in [n]: it stops at the first character that is no digit and at
    the first digit that takes the number past [uint64]. *)
Fixpoint parseUintLoop (n : Z) (s : string) : Z * option numError :=
  match s with
  | EmptyString => (n, None)
  | String c rest =>
      if isDigit c then
        if n >=? (2 ^ 64 - 1) / 10 + 1 then (2 ^ 64 - 1, Some ErrRange)
        else
          let n1 := n * 10 + (Z.of_N (N_of_ascii c) - 48) in
          if n1 >? 2 ^ 64 - 1 then (2 ^ 64 - 1, Some ErrRange)
          else parseUintLoop n1 rest
      else (0, Some ErrSyntax)
  end.

Definition Atoi (s : string) : Z * option numError :=
  match s with
  | EmptyString => (0, Some ErrSyntax)
  | String c rest =>
      let neg := Ascii.eqb c "-" in
      let digits := if Ascii.eqb c "+" || neg then rest else s in
      match digits with
      | EmptyString => (0, Some ErrSyntax)
      | String _ _ =>
          match parseUintLoop 0 digits with
          | (_, Some ErrSyntax) => (0, Some ErrSyntax)
          | (un, _) =>
              if negb neg && (un >=? 2 ^ 63)
              then (2 ^ 63 - 1, Some ErrRange)
              else if neg && (un >? 2 ^ 63) then (- 2 ^ 63, Some ErrRange)
              else (if neg then - un else un, None)
          end
      end
  end.

Inductive error :=
| ErrUnexpectedFields (entry : string)    (* "unexpected number of fields in line: %s" *)
| ErrUnexpectedVersion (field : string).  (* "unexpected version field: %s" *)

Definition tab : ascii := "009"%char.

(** [func newMetadataFromManifestLine(entry string)], which returns a
    pointer to a [pkg.RpmDBEntry] or an error.  The pointer [epoch] is
    the address of the variable [converted], and the second call of
    [strconv.Atoi] assigns to the same variable: the number that the
    returned entry holds as its epoch is the one that this second call
    returned. *)
Definition newMetadataFromManifestLine (entry : string)
  : result error RpmDBEntry :=
  let parts := Split entry tab in
  if (length parts <? 10)%nat then Err (ErrUnexpectedFields entry)
  else
    let versionParts := Split (nth 1 parts "") "-" in
    if negb (length versionParts =? 2)%nat
    then Err (ErrUnexpectedVersion (nth 1 parts ""))
    else
      let version := nth 0 versionParts "" in
      let release := nth 1 versionParts "" in
      let '(converted, err) := Atoi (nth 8 parts "") in
      let epochIsNil :=
        bool_decide (err <> None) || String.eqb (nth 5 parts "") "(none)" in
      let '(converted, err) := Atoi (nth 6 parts "") in
      let epoch := if epochIsNil then None else Some converted in
      let size :=
        match err with
        | None => converted
        | Some _ => 0
        end in
      Ok {| Name := nth 0 parts "";
            Version := version;
            Epoch := epoch;
            Arch := nth 7 parts "";
            Release := release;
            SourceRpm := nth 9 parts "";
            Size := size;
            Vendor := nth 4 parts "";
            ModularityLabel := None;
            Files := [] |}.

(** A line as the query format of the manifest writes it: ten fields
    separated by tabs, the second one [VERSION-RELEASE]. *)
Definition manifestLine
    (name version release installTime buildTime vendor epoch size arch
       epochNum sourceRpm : string) : string :=
  String.concat (String tab "")
    [name; version +:+ "-" +:+ release; installTime; buildTime; vendor;
     epoch; size; arch; epochNum; sourceRpm].

End redhat.

(** ** Package [executable]: the cataloger around
    [findExecutableFormat] (unnamed/part_012) *)

Module execcataloger.
Import file executable.

Section Globs.

(** [doublestar.Match(pattern, name)] of the glob library is a
    parameter. *)
Variable MatchError : Type.
Variable doublestar_Match : string -> string -> result MatchError bool.

(** "unable to match glob %q to path %q: %w" *)
Record globError := {
  errGlob : string;
  errPath : string;
  errCause : MatchError;
}.

(** The inner loop of [locationMatchesGlob] over the real path and the
    access path: [Some] is a [return], [None] the end of the loop. *)
Fixpoint matchPaths (glob : string) (paths : list string)
  : option (result globError bool) :=
  match paths with
  | [] => None
  | path :: rest =>
      if String.eqb path "" then matchPaths glob rest
      else
        match doublestar_Match glob path with
        | Err err =>
            Some (Err {| errGlob := glob; errPath := path; errCause := err |})
        | Ok matches =>
            if matches then Some (Ok true) else matchPaths glob rest
        end
  end.

(** [func locationMatchesGlob(loc file.Location, globs []string)
    (bool, error)] *)
Fixpoint locationMatchesGlob (loc : Location) (globs : list string)
  : result globError bool :=
  match globs with
  | [] => Ok false
  | glob :: rest =>
      match matchPaths glob [RealPath (coordinates (locationData loc));
                             AccessPath (locationData loc)] with
      | Some returned => returned
      | None => locationMatchesGlob loc rest
      end
  end.

(** The loop of [filterByGlobs]. *)
Fixpoint filterLoop (locs : list Location) (globs : list string)
    (filteredLocs : list Location) : result globError (list Location) :=
  match locs with
  | [] => Ok filteredLocs
  | loc :: rest =>
      match locationMatchesGlob loc globs with
      | Err err => Err err
      | Ok matches =>
          filterLoop rest globs
            (if matches then filteredLocs ++ [loc] else filteredLocs)
      end
  end.

(** [func filterByGlobs(locs []file.Location, globs []string)
    ([]file.Location, error)] *)
Definition filterByGlobs (locs : list Location) (globs : list string)
  : result globError (list Location) :=
  if (length globs =? 0)%nat then Ok locs
  else filterLoop locs globs [].

(** A location that one of the globs matches by its real path or by
    its access path, for a matcher [matches] without errors. *)
Definition matchedBy (matches : string -> string -> bool)
    (globs : list string) (loc : Location) : bool :=
  existsb (fun glob =>
             existsb (fun path => negb (String.eqb path "") && matches glob path)
               [RealPath (coordinates (locationData loc));
                AccessPath (locationData loc)])
    globs.

End Globs.

Arguments errGlob {MatchError} _.
Arguments errPath {MatchError} _.
Arguments errCause {MatchError} _.

Section Process.

(** [findELFSecurityFeatures] reads the ELF file with Go's [debug/elf];
    it is a parameter, with the features as an abstract type. *)
Variables ELFSecurityFeatures ELFError : Type.
Variable findELFSecurityFeatures :
  list byte -> result ELFError (option ELFSecurityFeatures).

(** [type Executable struct { Format; SecurityFeatures }] of package
    [file] (unnamed/part_008). *)
Record Executable := {
  Format : ExecutableFormat;
  SecurityFeatures : option ELFSecurityFeatures;
}.

Inductive featuresError :=
| ErrELF (e : ELFError)
| ErrUnsupportedFormat (format : ExecutableFormat).  (* "unsupported executable format: %q" *)

(** [func findSecurityFeatures(format, reader)] *)
Definition findSecurityFeatures (format : ExecutableFormat)
    (reader : list byte)
  : result featuresError (option ELFSecurityFeatures) :=
  if String.eqb format ELF then
    match findELFSecurityFeatures reader with
    | Ok features => Ok features
    | Err e => Err (ErrELF e)
    end
  else if String.eqb format PE then Ok None
  else if String.eqb format MachO then Ok None
  else Err (ErrUnsupportedFormat format).

(** "unable to determine executable kind: %w" *)
Inductive processError :=
| ErrDetermineKind (e : executable.error).

(** [func processExecutable(loc, reader)], which returns a pointer to a
    [file.Executable] or an error;
    the location is used for the log lines only. *)
Definition processExecutable (loc : Location) (reader : list byte)
  : result processError (option Executable) :=
  match findExecutableFormat reader with
  | Err err => Err (ErrDetermineKind err)
  | Ok format =>
      if String.eqb format "" then Ok None
      else
        match findSecurityFeatures format reader with
        | Err _ => Ok None
        | Ok securityFeatures =>
            Ok (Some {| Format := format;
                        SecurityFeatures := securityFeatures |})
        end
  end.

End Process.

Arguments Format {ELFSecurityFeatures} _.
Arguments SecurityFeatures {ELFSecurityFeatures} _.
Arguments ErrELF {ELFError} e.
Arguments ErrUnsupportedFormat {ELFError} format.

End execcataloger.

(** ** Package [executable]: [Catalog] (unnamed/part_012) *)

Module catalog.
Import file executable coordinateset execcataloger.

Section Catalog.

(** The glob library, the ELF reader, the resolver of the source
    ([file.Resolver]) and [unionreader.GetUnionReader] are parameters;
    a union reader is the byte content it gives access to.  The progress
    monitor and the log lines are left out. *)
Variable MatchError : Type.
Variable doublestar_Match : string -> string -> result MatchError bool.
Variables ELFSecurityFeatures ELFError : Type.
Variable findELFSecurityFeatures :
  list byte -> result ELFError (option ELFSecurityFeatures).
Variables ResolverError ReadCloser UnionError : Type.
Variable FilesByMIMEType : list string -> result ResolverError (list Location).
Variable FileContentsByLocation : Location -> result ResolverError ReadCloser.
Variable GetUnionReader : ReadCloser -> result UnionError (list byte).

(** [type Config struct { MIMETypes []string; Globs []string }] *)
Record Config := {
  MIMETypes : list string;
  Globs : list string;
}.

Inductive catalogError :=
| ErrFileLocations (e : ResolverError)  (* "unable to get file locations for binaries: %w" *)
| ErrGlob (e : globError MatchError).

(** The body of the loop of [Catalog] up to the test [exec != nil]:
    [None] stands for the two [continue]s and for a nil [exec], which
    is what [processExecutable] returns with every error. *)
Definition executableAt (loc : Location)
  : option (Executable ELFSecurityFeatures) :=
  match FileContentsByLocation loc with
  | Err _ => None
  | Ok reader =>
      match GetUnionReader reader with
      | Err _ => None
      | Ok uReader =>
          match processExecutable ELFSecurityFeatures ELFError
                  findELFSecurityFeatures loc uReader with
          | Err _ => None
          | Ok exec => exec
          end
      end
  end.

(** The loop of [Catalog]: [results[loc.Coordinates] = *exec]. *)
Definition catalogLoop (locs : list Location)
    (results : gmap Coordinates (Executable ELFSecurityFeatures))
  : gmap Coordinates (Executable ELFSecurityFeatures) :=
  fold_left
    (fun results loc =>
       match executableAt loc with
       | Some exec => <[ coordinates (locationData loc) := exec ]> results
       | None => results
       end)
    locs results.

(** [func (i *Cataloger) Catalog(resolver file.Resolver)
    (map[file.Coordinates]file.Executable, error)] *)
Definition Catalog (config : Config)
  : result catalogError (gmap Coordinates (Executable ELFSecurityFeatures)) :=
  match FilesByMIMEType (MIMETypes config) with
  | Err err => Err (ErrFileLocations err)
  | Ok locs =>
      match filterByGlobs MatchError doublestar_Match locs (Globs config) with
      | Err err => Err (ErrGlob err)
      | Ok locs => Ok (catalogLoop locs ∅)
      end
  end.

End Catalog.

Arguments ErrFileLocations {MatchError ResolverError} e.
Arguments ErrGlob {MatchError ResolverError} e.

End catalog.

(** * Properties *)

(** ** Relationships of a package *)

Section RelationshipFacts.
Import artifact sbom.

Lemma containsType_In rt t : containsType rt t = true <-> In t rt.
Proof.
  unfold containsType. rewrite existsb_exists. split.
  - intros (x & Hx & Heq). apply String.eqb_eq in Heq. now subst.
  - intros Hin. exists t. split; [assumption | apply String.eqb_refl].
Qed.

Lemma RelationshipsForPackage_In s p rt r :
  In r (RelationshipsForPackage s p rt) <->
  In r (Relationships s) /\
  keepsRelationship p
    (if (length rt =? 0)%nat then AllRelationshipTypes else rt) r = true.
Proof. unfold RelationshipsForPackage. apply filter_In. Qed.

(** C10. Called without relationship types, [RelationshipsForPackage]
    filters against [AllRelationshipTypes ()]; that list holds exactly
    ownership-by-file-overlap, contains, dependency-of and described-by,
    while evident-by is one of the five declared relationship types; so
    no relationship of type evident-by is ever returned by an unfiltered
    call, for any SBOM and any package. *)
Theorem RelationshipsForPackage_unfiltered_omits_evident_by :
  (forall s p,
      RelationshipsForPackage s p [] =
      RelationshipsForPackage s p AllRelationshipTypes) /\
  AllRelationshipTypes =
    [ "ownership-by-file-overlap"; "contains"; "dependency-of";
      "described-by" ] /\
  In EvidentByRelationship declaredRelationshipTypes /\
  length declaredRelationshipTypes = 5%nat /\
  NoDup declaredRelationshipTypes /\
  (forall s p r,
      In r (RelationshipsForPackage s p []) ->
      Type_ r <> EvidentByRelationship /\ In (Type_ r) AllRelationshipTypes).
Proof.
  split; [reflexivity|].
  split; [reflexivity|].
  split; [simpl; tauto|].
  split; [reflexivity|].
  split.
  { apply (bool_decide_unpack _). vm_compute. reflexivity. }
  intros s p r Hin.
  apply RelationshipsForPackage_In in Hin as [_ Hkeep]. simpl in Hkeep.
  unfold keepsRelationship in Hkeep.
  destruct (From r) as [from|]; [|discriminate].
  destruct (To r) as [to|]; [|discriminate].
  destruct (negb (identifiable_ID from =? package_ID p)%string);
    [discriminate|].
  destruct (containsType AllRelationshipTypes (Type_ r)) eqn:Hc;
    [|discriminate].
  apply containsType_In in Hc. split; [|exact Hc].
  intros Heq. rewrite Heq in Hc. simpl in Hc.
  repeat (destruct Hc as [Hc|Hc]; try discriminate Hc). exact Hc.
Qed.

Lemma RelationshipsForPackage_unfiltered_omits_evident_by_witness :
  RelationshipsForPackage sampleSBOM samplePackage []
    = [sampleEdge ContainsRelationship] /\
  Type_ (sampleEdge ContainsRelationship) <> EvidentByRelationship.
Proof.
  split; [reflexivity|].
  apply (proj2 (proj2 (proj2 (proj2 (proj2
           RelationshipsForPackage_unfiltered_omits_evident_by))))
           sampleSBOM samplePackage (sampleEdge ContainsRelationship)).
  left. reflexivity.
Defined.

End RelationshipFacts.

(** ** Bytes and little/big-endian words *)

Section ByteFacts.
Import bytes.

Lemma byteZ_range b : 0 <= byteZ b < 256.
Proof.
  unfold byteZ. pose proof (Byte.to_N_bounded b) as H.
  apply N.leb_le in H. apply N.leb_le in H. lia.
Qed.

Lemma byteZ_inj b1 b2 : byteZ b1 = byteZ b2 -> b1 = b2.
Proof.
  unfold byteZ. intros H. apply N2Z.inj in H.
  pose proof (Byte.of_to_N b1) as H1. rewrite H, Byte.of_to_N in H1.
  congruence.
Qed.

Lemma byteZ_of_Z z : byteZ (byte_of_Z z) = z mod 256.
Proof.
  unfold byteZ, byte_of_Z.
  assert (Hr : 0 <= z mod 256 < 256) by (apply Z.mod_pos_bound; lia).
  destruct (Byte.of_N (Z.to_N (z mod 256))) as [b|] eqn:Hb.
  - apply Byte.to_of_N in Hb. rewrite Hb. lia.
  - apply Byte.of_N_None_iff in Hb. lia.
Qed.

Lemma HasPrefix_app s p : HasPrefix (p ++ s) p = true.
Proof.
  induction p as [|c p IH]; simpl; [reflexivity|].
  rewrite IH, andb_true_r. apply Byte.byte_dec_lb. reflexivity.
Qed.

Lemma HasPrefix_spec s p : HasPrefix s p = true <-> exists t, s = p ++ t.
Proof.
  revert s. induction p as [|c p IH]; intros s; simpl.
  - split; [intros _; now exists s | reflexivity].
  - destruct s as [|d s].
    + split; [discriminate | intros [t Ht]; discriminate Ht].
    + rewrite andb_true_iff, IH. split.
      * intros [Hd [t ->]]. apply Byte.byte_dec_bl in Hd. subst d.
        now exists t.
      * intros [t Ht]. injection Ht as -> ->. split.
        -- apply Byte.byte_dec_lb. reflexivity.
        -- now exists t.
Qed.

(** Or-ing a shifted value onto a smaller one is an addition. *)
Lemma lor_shiftl_add a b n :
  0 <= n -> 0 <= a < 2 ^ n -> Z.lor a (Z.shiftl b n) = a + b * 2 ^ n.
Proof.
  intros Hn Ha.
  assert (Hland : Z.land a (Z.shiftl b n) = 0).
  { apply Z.bits_inj'. intros i Hi.
    rewrite Z.land_spec, Z.bits_0.
    destruct (Z.lt_ge_cases i n) as [Hlt|Hge].
    - rewrite (Z.shiftl_spec_low b n i Hlt). apply andb_false_r.
    - replace a with (a mod 2 ^ n) by (apply Z.mod_small; lia).
      rewrite Z.mod_pow2_bits_high by lia. reflexivity. }
  rewrite <- Z.lxor_lor by exact Hland.
  rewrite <- Z.add_nocarry_lxor by exact Hland.
  rewrite Z.shiftl_mul_pow2 by exact Hn. reflexivity.
Qed.

End ByteFacts.

(** ** Executable formats *)

Section ExecutableFacts.
Import bytes executable.

Lemma BigEndian_Uint32_value b0 b1 b2 b3 rest :
  BigEndian_Uint32 (b0 :: b1 :: b2 :: b3 :: rest) =
  Some (byteZ b3 + byteZ b2 * 2 ^ 8 + byteZ b1 * 2 ^ 16 + byteZ b0 * 2 ^ 24).
Proof.
  pose proof (byteZ_range b0). pose proof (byteZ_range b1).
  pose proof (byteZ_range b2). pose proof (byteZ_range b3).
  unfold BigEndian_Uint32.
  rewrite (lor_shiftl_add (byteZ b3) (byteZ b2) 8) by lia.
  rewrite (lor_shiftl_add _ (byteZ b1) 16) by lia.
  rewrite (lor_shiftl_add _ (byteZ b0) 24) by lia. reflexivity.
Qed.

Lemma LittleEndian_Uint32_value b0 b1 b2 b3 rest :
  LittleEndian_Uint32 (b0 :: b1 :: b2 :: b3 :: rest) =
  Some (byteZ b0 + byteZ b1 * 2 ^ 8 + byteZ b2 * 2 ^ 16 + byteZ b3 * 2 ^ 24).
Proof.
  pose proof (byteZ_range b0). pose proof (byteZ_range b1).
  pose proof (byteZ_range b2). pose proof (byteZ_range b3).
  unfold LittleEndian_Uint32.
  rewrite (lor_shiftl_add (byteZ b0) (byteZ b1) 8) by lia.
  rewrite (lor_shiftl_add _ (byteZ b2) 16) by lia.
  rewrite (lor_shiftl_add _ (byteZ b3) 24) by lia. reflexivity.
Qed.

(** A word assembled from four bytes equals a constant exactly when the
    four bytes are the digits of the constant. *)
Lemma word_eqb_digits (c0 c1 c2 c3 b0 b1 b2 b3 : byte) :
  (byteZ b0 + byteZ b1 * 2 ^ 8 + byteZ b2 * 2 ^ 16 + byteZ b3 * 2 ^ 24 =?
   byteZ c0 + byteZ c1 * 2 ^ 8 + byteZ c2 * 2 ^ 16 + byteZ c3 * 2 ^ 24) =
  Byte.eqb b0 c0 && (Byte.eqb b1 c1 && (Byte.eqb b2 c2 && Byte.eqb b3 c3)).
Proof.
  pose proof (byteZ_range b0). pose proof (byteZ_range b1).
  pose proof (byteZ_range b2). pose proof (byteZ_range b3).
  pose proof (byteZ_range c0). pose proof (byteZ_range c1).
  pose proof (byteZ_range c2). pose proof (byteZ_range c3).
  apply eq_true_iff_eq. rewrite Z.eqb_eq, !andb_true_iff. split.
  - intros Heq.
    assert (byteZ b0 = byteZ c0 /\ byteZ b1 = byteZ c1 /\
            byteZ b2 = byteZ c2 /\ byteZ b3 = byteZ c3) as (E0 & E1 & E2 & E3)
      by lia.
    apply byteZ_inj in E0, E1, E2, E3. subst.
    repeat split; apply Byte.byte_dec_lb; reflexivity.
  - intros (E0 & E1 & E2 & E3).
    apply Byte.byte_dec_bl in E0, E1, E2, E3. subst. reflexivity.
Qed.

Lemma ReadAt_full (r : list byte) (n : nat) :
  (n <= length r)%nat -> io.ReadAt r n 0 = (firstn n r, n, None).
Proof.
  intros Hn. unfold io.ReadAt.
  change (0 <? 0) with false. change (Z.to_nat 0) with 0%nat.
  cbv iota. rewrite drop_0, length_take, Nat.min_l by exact Hn.
  rewrite Nat.sub_diag, Nat.ltb_irrefl. simpl.
  rewrite app_nil_r. reflexivity.
Qed.

Lemma ReadAt_short (r : list byte) (n : nat) :
  (length r < n)%nat ->
  io.ReadAt r n 0 = (r ++ make (n - length r), length r, Some io.EOF).
Proof.
  intros Hn. unfold io.ReadAt.
  change (0 <? 0) with false. change (Z.to_nat 0) with 0%nat.
  cbv iota. rewrite drop_0, take_ge by lia.
  destruct (Nat.ltb_spec (length r) n); [reflexivity | lia].
Qed.

(** [isMacho] on a buffer of at least 8 bytes, in terms of prefixes. *)
Lemma isMacho_prefixes buf :
  (8 <= length buf)%nat ->
  isMacho buf =
  (HasPrefix buf [xca; xfe; xba; xbe] && byte7_below_20 buf)
  || beginsWithMachOMagic buf.
Proof.
  intros Hlen. unfold isMacho, classOrMachOFat.
  destruct (Nat.ltb_spec (length buf) 8) as [Hlt|_]; [lia|].
  destruct (HasPrefix buf [xca; xfe; xba; xbe] && byte7_below_20 buf);
    [reflexivity|]. simpl orb.
  destruct (Nat.ltb_spec (length buf) 4) as [Hlt|_]; [lia|].
  destruct buf as [|b0 [|b1 [|b2 [|b3 rest]]]]; simpl in Hlen; try lia.
  rewrite BigEndian_Uint32_value, LittleEndian_Uint32_value.
  change macho_Magic32 with
    (byteZ xce + byteZ xfa * 2 ^ 8 + byteZ xed * 2 ^ 16 + byteZ xfe * 2 ^ 24).
  change macho_Magic64 with
    (byteZ xcf + byteZ xfa * 2 ^ 8 + byteZ xed * 2 ^ 16 + byteZ xfe * 2 ^ 24).
  rewrite !word_eqb_digits. unfold beginsWithMachOMagic. simpl HasPrefix.
  rewrite !andb_true_r.
  destruct (Byte.eqb b0 xfe), (Byte.eqb b1 xed), (Byte.eqb b2 xfa),
    (Byte.eqb b3 xce), (Byte.eqb b0 xce), (Byte.eqb b1 xfa),
    (Byte.eqb b2 xed), (Byte.eqb b3 xfe), (Byte.eqb b3 xcf),
    (Byte.eqb b0 xcf); reflexivity.
Qed.

Lemma findExecutableFormat_short file :
  (length file < 512)%nat ->
  findExecutableFormat file = Err (ErrReadFirstSector io.EOF).
Proof.
  intros Hlen. unfold findExecutableFormat.
  rewrite ReadAt_short by exact Hlen. reflexivity.
Qed.

Lemma byte_eqb_neq (a b : byte) : a <> b -> Byte.eqb a b = false.
Proof.
  intros Hne. destruct (Byte.eqb a b) eqn:E; [|reflexivity].
  apply Byte.byte_dec_bl in E. contradiction.
Qed.

Lemma Byte_eqb_eq (a b : byte) : Byte.eqb a b = true <-> a = b.
Proof.
  split; [apply Byte.byte_dec_bl | apply Byte.byte_dec_lb].
Qed.

Lemma HasPrefix_word b0 b1 b2 b3 t c0 c1 c2 c3 :
  HasPrefix (b0 :: b1 :: b2 :: b3 :: t) [c0; c1; c2; c3] = true <->
  [b0; b1; b2; b3] = [c0; c1; c2; c3].
Proof.
  cbn [HasPrefix]. rewrite !andb_true_iff, !Byte_eqb_eq. split.
  - intros (-> & -> & -> & -> & _). reflexivity.
  - intros [= -> -> -> ->]. auto.
Qed.

Lemma HasPrefix_pair b0 b1 t c0 c1 :
  HasPrefix (b0 :: b1 :: t) [c0; c1] = true <-> b0 = c0 /\ b1 = c1.
Proof.
  cbn [HasPrefix]. rewrite !andb_true_iff, !Byte_eqb_eq. tauto.
Qed.

(** [findExecutableFormat] on a file of at least 512 bytes, by the
    bytes of its first sector. *)
Lemma findExecutableFormat_sector b0 b1 b2 b3 b4 b5 b6 b7 rest :
  (504 <= length rest)%nat ->
  findExecutableFormat (b0 :: b1 :: b2 :: b3 :: b4 :: b5 :: b6 :: b7 :: rest) =
  let buf := b0 :: b1 :: b2 :: b3 :: b4 :: b5 :: b6 :: b7 :: firstn 504 rest in
  if (HasPrefix buf [xca; xfe; xba; xbe] && (byteZ b7 <? 20))
     || beginsWithMachOMagic buf
  then Ok MachO
  else if HasPrefix buf ["M"%byte; "Z"%byte] then Ok PE
  else if HasPrefix buf [x7f; "E"%byte; "L"%byte; "F"%byte] then Ok ELF
  else Ok "".
Proof.
  intros Hlen. unfold findExecutableFormat.
  rewrite ReadAt_full by (cbn [length]; lia).
  rewrite Nat.ltb_irrefl.
  change 512%nat with (8 + 504)%nat. cbn [Nat.add firstn]. cbv zeta.
  rewrite isMacho_prefixes by (cbn [length]; lia).
  unfold isPE, isELF, elf_ELFMAG.
  change (byte7_below_20 (b0 :: b1 :: b2 :: b3 :: b4 :: b5 :: b6 :: b7 ::
                            firstn 504 rest)) with (byteZ b7 <? 20).
  destruct (_ || _); [reflexivity|].
  destruct (HasPrefix _ ["M"%byte; "Z"%byte]); [reflexivity|].
  destruct (HasPrefix _ _); reflexivity.
Qed.

(** C9, as amended. A file of less than 512 bytes is not classified:
    the read of the first sector ends early and its error is returned.
    On a file of at least 512 bytes the format is decided by the first
    bytes: CA FE BA BE with byte 7 below 20, or one of the four Mach-O
    magics (FEEDFACE and FEEDFACF in either byte order), gives MachO;
    otherwise M Z gives PE; otherwise 7F E L F gives ELF; otherwise the
    file gets the empty format, as does a Java class file (CA FE BA BE
    with byte 7 at least 20). *)
Theorem findExecutableFormat_by_magic (file : list byte) :
  ((length file < 512)%nat ->
   findExecutableFormat file = Err (ErrReadFirstSector io.EOF)) /\
  ((512 <= length file)%nat ->
   exists b0 b1 b2 b3 b4 b5 b6 b7 rest,
     file = b0 :: b1 :: b2 :: b3 :: b4 :: b5 :: b6 :: b7 :: rest /\
     let magic := [b0; b1; b2; b3] in
     let fat := magic = [xca; xfe; xba; xbe] /\ byteZ b7 < 20 in
     let macho :=
       magic = [xfe; xed; xfa; xce] \/ magic = [xce; xfa; xed; xfe] \/
       magic = [xfe; xed; xfa; xcf] \/ magic = [xcf; xfa; xed; xfe] in
     let pe := b0 = "M"%byte /\ b1 = "Z"%byte in
     let elf := magic = [x7f; "E"%byte; "L"%byte; "F"%byte] in
     (fat \/ macho -> findExecutableFormat file = Ok MachO) /\
     (~ (fat \/ macho) -> pe -> findExecutableFormat file = Ok PE) /\
     (~ (fat \/ macho) -> ~ pe -> elf ->
      findExecutableFormat file = Ok ELF) /\
     (~ (fat \/ macho) -> ~ pe -> ~ elf ->
      findExecutableFormat file = Ok "") /\
     (magic = [xca; xfe; xba; xbe] -> 20 <= byteZ b7 ->
      findExecutableFormat file = Ok "")).
Proof.
  split; [apply findExecutableFormat_short|].
  intros Hlen.
  destruct file as [|b0 [|b1 [|b2 [|b3 [|b4 [|b5 [|b6 [|b7 rest]]]]]]]];
    cbn [length] in Hlen; try lia.
  exists b0, b1, b2, b3, b4, b5, b6, b7, rest. split; [reflexivity|].
  intros magic fat macho pe elf.
  rewrite findExecutableFormat_sector by lia. cbv zeta.
  unfold beginsWithMachOMagic.
  set (buf := b0 :: b1 :: b2 :: b3 :: b4 :: b5 :: b6 :: b7 :: firstn 504 rest).
  assert (Hfat : HasPrefix buf [xca; xfe; xba; xbe] && (byteZ b7 <? 20) = true
                 <-> fat).
  { rewrite andb_true_iff, Z.ltb_lt. unfold buf. rewrite HasPrefix_word.
    reflexivity. }
  assert (Hmacho :
    HasPrefix buf [xfe; xed; xfa; xce] || HasPrefix buf [xce; xfa; xed; xfe] ||
    HasPrefix buf [xfe; xed; xfa; xcf] || HasPrefix buf [xcf; xfa; xed; xfe]
    = true <-> macho).
  { rewrite !orb_true_iff. unfold buf. rewrite !HasPrefix_word.
    unfold macho, magic. tauto. }
  assert (Hpe : HasPrefix buf ["M"%byte; "Z"%byte] = true <-> pe).
  { unfold buf. apply HasPrefix_pair. }
  assert (Helf : HasPrefix buf [x7f; "E"%byte; "L"%byte; "F"%byte] = true
                 <-> elf).
  { unfold buf. apply HasPrefix_word. }
  assert (Hfirst :
    HasPrefix buf [xca; xfe; xba; xbe] && (byteZ b7 <? 20)
    || (HasPrefix buf [xfe; xed; xfa; xce] || HasPrefix buf [xce; xfa; xed; xfe]
        || HasPrefix buf [xfe; xed; xfa; xcf]
        || HasPrefix buf [xcf; xfa; xed; xfe]) = true <-> fat \/ macho).
  { rewrite orb_true_iff, Hfat, Hmacho. reflexivity. }
  clearbody buf.
  destruct (_ && _ || _) eqn:E1.
  - split; [reflexivity|].
    assert (Hfm : fat \/ macho) by (apply Hfirst; reflexivity).
    split; [intros H; contradiction|].
    split; [intros H; contradiction|].
    split; [intros H; contradiction|].
    intros Hmagic H7. exfalso.
    destruct Hfm as [[_ Hlt]|Hm]; [lia|].
    unfold macho in Hm. rewrite Hmagic in Hm.
    destruct Hm as [Hm|[Hm|[Hm|Hm]]]; discriminate Hm.
  - assert (Hnot : ~ (fat \/ macho)).
    { intros H. apply Hfirst in H. discriminate H. }
    split; [intros H; contradiction|].
    destruct (HasPrefix buf ["M"%byte; "Z"%byte]) eqn:E2.
    + assert (Hp : pe) by (apply Hpe; reflexivity).
      split; [reflexivity|].
      split; [intros _ H; contradiction|].
      split; [intros _ H; contradiction|].
      intros Hmagic _. exfalso. destruct Hp as [Hp _].
      unfold magic in Hmagic. injection Hmagic as -> _ _ _. discriminate Hp.
    + assert (Hnp : ~ pe) by (intros H; apply Hpe in H; discriminate H).
      split; [intros _ H; contradiction|].
      destruct (HasPrefix buf [x7f; "E"%byte; "L"%byte; "F"%byte]) eqn:E3.
      * assert (He : elf) by (apply Helf; reflexivity).
        split; [reflexivity|].
        split; [intros _ _ H; contradiction|].
        intros Hmagic _. exfalso. unfold elf in He. rewrite Hmagic in He.
        discriminate He.
      * assert (Hne : ~ elf) by (intros H; apply Helf in H; discriminate H).
        split; [intros _ _ H; contradiction|].
        split; reflexivity.
Qed.

Lemma findExecutableFormat_by_magic_witness :
  findExecutableFormat sampleFatMachO = Ok MachO /\
  findExecutableFormat sampleJavaClass = Ok "".
Proof.
  split.
  - destruct (proj2 (findExecutableFormat_by_magic sampleFatMachO)
                ltac:(vm_compute; apply le_n))
      as (b0 & b1 & b2 & b3 & b4 & b5 & b6 & b7 & rest & Heq & Hmacho & _).
    injection Heq as <- <- <- <- _ _ _ <- _.
    apply Hmacho. left. split; [reflexivity | vm_compute; reflexivity].
  - destruct (proj2 (findExecutableFormat_by_magic sampleJavaClass)
                ltac:(vm_compute; apply le_n))
      as (b0 & b1 & b2 & b3 & b4 & b5 & b6 & b7 & rest & Heq & _ & _ & _ & _
          & Hjava).
    injection Heq as <- <- <- <- _ _ _ <- _.
    apply Hjava; [reflexivity | vm_compute; discriminate].
Defined.

(** The five outcomes on sample sectors. *)
Example findExecutableFormat_samples :
  findExecutableFormat sampleFatMachO = Ok MachO /\
  findExecutableFormat sampleJavaClass = Ok "" /\
  findExecutableFormat samplePE = Ok PE /\
  findExecutableFormat sampleELF = Ok ELF /\
  findExecutableFormat (make 512) = Ok "".
Proof. vm_compute. repeat split. Qed.

(** C9, as stated, fails: a file of 64 bytes that begins with M Z is
    not classified as PE; the read of the first sector fails. *)
Lemma findExecutableFormat_short_file_unclassified :
  HasPrefix sampleShortPE ["M"%byte; "Z"%byte] = true /\
  length sampleShortPE = 64%nat /\
  findExecutableFormat sampleShortPE = Err (ErrReadFirstSector io.EOF).
Proof. vm_compute. repeat split. Qed.

End ExecutableFacts.

(** ** The decoder collection *)

Section DecoderFacts.
Import decoders.
Context {Reader SBOM DecodeError : Type}.
Implicit Types (d : FormatDecoder Reader SBOM DecodeError) (r : Reader).
Implicit Types (ds : list (FormatDecoder Reader SBOM DecodeError)).

(** Decoders that do not give both an id and a version only move
    [bestID]. *)
Lemma decodeLoop_skip ds ds' r best :
  Forall (fun d => identifiesBoth r d = false) ds ->
  decodeLoop (ds ++ ds') r best =
  decodeLoop ds' r
    (match last (List.filter (identifiesID r) ds) with
     | Some d => fst (Identify d r)
     | None => best
     end).
Proof.
  revert best. induction ds as [|d ds IH]; intros best Hall; [reflexivity|].
  apply Forall_cons in Hall as [Hd Hall].
  cbn [app decodeLoop List.filter].
  unfold identifiesBoth in Hd. unfold identifiesID at 1.
  destruct (Identify d r) as [id version] eqn:Hid. cbn [fst snd] in *.
  assert (Hor : String.eqb id "" || String.eqb version "" = true).
  { destruct (String.eqb id ""), (String.eqb version "");
      simpl in *; congruence. }
  rewrite Hor, (IH _ Hall).
  destruct (String.eqb id "") eqn:Eid; cbn [negb]; [reflexivity|].
  destruct (List.filter (identifiesID r) ds) as [|d' l] eqn:Hf.
  - cbn. rewrite Hid. reflexivity.
  - change (last (d :: d' :: l)) with (last (d' :: l)).
    destruct (last (d' :: l)) eqn:E; [reflexivity|].
    apply last_None in E. discriminate E.
Qed.

Lemma decodeLoop_hit d ds r best :
  identifiesBoth r d = true ->
  decodeLoop (d :: ds) r best = Decode d r.
Proof.
  unfold identifiesBoth. simpl. destruct (Identify d r) as [id version].
  simpl. intros H. apply andb_true_iff in H as [H1 H2].
  apply negb_true_iff in H1, H2. rewrite H1, H2. reflexivity.
Qed.

(** C5. For a non-nil reader, [Decode] runs the first decoder whose
    [Identify] gives a non-empty id and a non-empty version; if no decoder
    gives both but some decoder gives a non-empty id, it returns no SBOM,
    that id (the one of the last such decoder) and the error "format found
    but the version is not supported"; if no decoder gives an id, it
    returns the error "format not recognized". *)
Theorem Decode_selects_first_identifying_decoder
    (c : DecoderCollection Reader SBOM DecodeError) r :
  (forall pre d post,
      decoders c = pre ++ d :: post ->
      Forall (fun d' => identifiesBoth r d' = false) pre ->
      identifiesBoth r d = true ->
      Collection_Decode c (Some r) = Decode d r) /\
  (Forall (fun d => identifiesBoth r d = false) (decoders c) ->
   forall d,
     last (List.filter (identifiesID r) (decoders c)) = Some d ->
     fst (Identify d r) <> "" /\
     Collection_Decode c (Some r) =
       (None, fst (Identify d r), "",
        Some (ErrVersionNotSupported (fst (Identify d r))))) /\
  (Forall (fun d => identifiesID r d = false) (decoders c) ->
   Collection_Decode c (Some r) = (None, "", "", Some ErrNotRecognized)).
Proof.
  unfold Collection_Decode. split; [|split].
  - intros pre d post -> Hpre Hd.
    rewrite (decodeLoop_skip _ _ _ _ Hpre). apply decodeLoop_hit, Hd.
  - intros Hnone d Hlast.
    assert (Hne : String.eqb (fst (Identify d r)) "" = false).
    { apply last_Some_elem_of, list_elem_of_In, filter_In in Hlast as [_ Hd].
      unfold identifiesID in Hd. apply negb_true_iff in Hd. exact Hd. }
    split.
    + intros Heq. rewrite Heq in Hne. discriminate Hne.
    + rewrite <- (app_nil_r (decoders c)).
      rewrite (decodeLoop_skip _ _ _ _ Hnone), Hlast.
      simpl. rewrite Hne. reflexivity.
  - intros Hnone.
    assert (Hboth : Forall (fun d => identifiesBoth r d = false) (decoders c)).
    { eapply Forall_impl; [exact Hnone|]. intros d Hd.
      unfold identifiesBoth, identifiesID in *. rewrite Hd. reflexivity. }
    rewrite <- (app_nil_r (decoders c)), (decodeLoop_skip _ _ _ _ Hboth).
    assert (Hf : List.filter (identifiesID r) (decoders c) = []).
    { clear Hboth. induction Hnone as [|d ds Hd _ IH]; [reflexivity|].
      simpl. rewrite Hd. exact IH. }
    rewrite Hf. reflexivity.
Qed.

(** A nil reader is refused before any decoder is asked. *)
Lemma Decode_nil_reader (c : DecoderCollection Reader SBOM DecodeError) :
  Collection_Decode c None = (None, "", "", Some ErrNoBytes).
Proof. reflexivity. Qed.

End DecoderFacts.

Section DecoderSamples.
Import decoders.

Lemma Decode_selects_first_identifying_decoder_witness :
  Collection_Decode
    {| decoders := [unknownDecoder; spdxOldDecoder; cyclonedxDecoder] |}
    (Some "bom")
  = (Some "bom", "cyclonedx-json", "1.5", None) /\
  Collection_Decode {| decoders := [spdxOldDecoder; unknownDecoder] |}
    (Some "bom")
  = (None, "spdx-json", "", Some (ErrVersionNotSupported "spdx-json")) /\
  Collection_Decode {| decoders := [unknownDecoder] |} (Some "bom")
  = (None, "", "", Some ErrNotRecognized).
Proof.
  split; [|split].
  - apply (proj1 (Decode_selects_first_identifying_decoder
                    {| decoders := [unknownDecoder; spdxOldDecoder;
                                    cyclonedxDecoder] |} "bom")
             [unknownDecoder; spdxOldDecoder] cyclonedxDecoder []).
    + reflexivity.
    + repeat constructor.
    + reflexivity.
  - apply (proj2 (proj1 (proj2 (Decode_selects_first_identifying_decoder
                    {| decoders := [spdxOldDecoder; unknownDecoder] |}
                    "bom"))
             ltac:(repeat constructor) spdxOldDecoder eq_refl)).
  - apply (proj2 (proj2 (Decode_selects_first_identifying_decoder
                    {| decoders := [unknownDecoder] |} "bom"))).
    repeat constructor.
Defined.

End DecoderSamples.

(** ** Location sets *)

Section LocationFacts.
Import file.
Implicit Types (a o : gmap string string) (kvs : list (string * string)).

(** Where the stored map has the key already, a union with the other
    map keeps the stored value. *)
Lemma union_insert_present a o k v w :
  a !! k = Some w -> a ∪ <[k := v]> o = a ∪ o.
Proof.
  intros Hk. apply map_eq. intros i. rewrite !lookup_union.
  destruct (decide (k = i)) as [->|Hne].
  - rewrite Hk, lookup_insert_eq. destruct (o !! i); reflexivity.
  - rewrite lookup_insert_ne by exact Hne. reflexivity.
Qed.

Lemma conflictsWith_cons a kv kvs :
  conflictsWith a (kv :: kvs) =
  match conflictOf a kv with
  | Some c => c :: conflictsWith a kvs
  | None => conflictsWith a kvs
  end.
Proof. reflexivity. Qed.

(** Conflicts are looked up key by key: a map that differs only outside
    the keys of [kvs] has the same conflicts. *)
Lemma conflictsWith_agree a a' kvs :
  (forall k, k ∈ kvs.*1 -> a' !! k = a !! k) ->
  conflictsWith a' kvs = conflictsWith a kvs.
Proof.
  intros Hagree. unfold conflictsWith.
  apply list_omap_ext, Forall_Forall2_diag, Forall_forall.
  intros [k v] Hin. unfold conflictOf. cbn [fst snd].
  rewrite Hagree; [reflexivity|].
  apply list_elem_of_fmap. exists (k, v). split; [reflexivity | exact Hin].
Qed.

(** The loop of [merge] on a non-nil map: the result is the left-biased
    union, the errors are the conflicts with the map as it was. *)
Lemma mergeOver_union a errs kvs :
  NoDup kvs.*1 ->
  mergeOver (Some a, errs) kvs =
  Some (Some (a ∪ list_to_map kvs), errs ++ conflictsWith a kvs).
Proof.
  revert a errs. induction kvs as [|[k v] kvs IH]; intros a errs Hnd.
  - simpl. rewrite (right_id_L ∅ (∪)), app_nil_r. reflexivity.
  - rewrite fmap_cons in Hnd. apply NoDup_cons in Hnd as [Hk Hnd].
    cbn [fst] in Hk.
    change (mergeOver (Some a, errs) ((k, v) :: kvs)) with
      (match mergeEntry (Some a, errs) (k, v) with
       | Some st' => mergeOver st' kvs
       | None => None
       end).
    change (list_to_map ((k, v) :: kvs)) with
      (<[k := v]> (list_to_map kvs : gmap string string)).
    rewrite conflictsWith_cons. unfold conflictOf, mergeEntry. cbn [fst snd].
    destruct (a !! k) as [w|] eqn:Hak.
    + destruct (String.eqb v w) eqn:Hvw; cbn [negb].
      * apply String.eqb_eq in Hvw. subst w.
        rewrite (insert_id a k v Hak), (IH _ _ Hnd).
        rewrite (union_insert_present a _ k v v Hak). reflexivity.
      * rewrite (IH _ _ Hnd), (union_insert_present a _ k v w Hak).
        rewrite <- app_assoc. reflexivity.
    + rewrite (IH _ _ Hnd), (conflictsWith_agree a (<[k := v]> a)).
      * rewrite <- insert_union_l, <- insert_union_r by exact Hak.
        reflexivity.
      * intros i Hi. rewrite lookup_insert_ne; [reflexivity|].
        intros ->. exact (Hk Hi).
Qed.

(** The order in which [range] delivers the entries changes neither the
    merged annotations nor the set of reported conflicts. *)
Lemma mergeOver_any_order a kvs kvs' :
  NoDup kvs.*1 -> kvs ≡ₚ kvs' ->
  exists errs errs',
    mergeOver (Some a, []) kvs = Some (Some (a ∪ list_to_map kvs), errs) /\
    mergeOver (Some a, []) kvs' = Some (Some (a ∪ list_to_map kvs), errs') /\
    errs ≡ₚ errs'.
Proof.
  intros Hnd Hperm.
  assert (Hnd' : NoDup kvs'.*1) by (rewrite <- Hperm; exact Hnd).
  exists (conflictsWith a kvs), (conflictsWith a kvs').
  rewrite !mergeOver_union by assumption. repeat split.
  - rewrite (list_to_map_proper (M := gmap string) kvs kvs' Hnd Hperm).
    reflexivity.
  - unfold conflictsWith. rewrite Hperm. reflexivity.
Qed.

(** [merge] into an initialised annotation map. *)
Lemma merge_initialised a (other : LocationMetadata) :
  merge {| Annotations := Some a |} other =
  Some ({| Annotations := Some (a ∪ default ∅ (Annotations other)) |},
        conflictsWith a (entries (Annotations other))).
Proof.
  unfold merge. cbn [Annotations].
  rewrite mergeOver_union.
  - destruct (Annotations other) as [o|]; cbn [entries default].
    + rewrite list_to_map_to_list. reflexivity.
    + reflexivity.
  - destruct (Annotations other) as [o|]; cbn [entries].
    + apply NoDup_fst_map_to_list.
    + constructor.
Qed.

(** [merge] into a nil map: nothing happens when the other map has no
    entry, and the first entry otherwise panics. *)
Lemma merge_nil (other : LocationMetadata) :
  merge {| Annotations := None |} other =
  match entries (Annotations other) with
  | [] => Some ({| Annotations := None |}, [])
  | _ :: _ => None
  end.
Proof.
  unfold merge. cbn [Annotations].
  destruct (entries (Annotations other)) as [|[k v] kvs]; reflexivity.
Qed.

(** A reported conflict is a key present on both sides with different
    values, and every such key is reported. *)
Lemma elem_of_conflictsWith a o c :
  c ∈ conflictsWith a (map_to_list o) <->
  a !! conflictKey c = Some (conflictStored c) /\
  o !! conflictKey c = Some (conflictValue c) /\
  conflictValue c <> conflictStored c.
Proof.
  unfold conflictsWith. rewrite list_elem_of_omap. split.
  - intros ([k v] & Hin & Hc). apply elem_of_map_to_list in Hin.
    unfold conflictOf in Hc. cbn [fst snd] in Hc.
    destruct (a !! k) as [w|] eqn:Hak; [|discriminate].
    destruct (String.eqb v w) eqn:Hvw; cbn [negb] in Hc; [discriminate|].
    injection Hc as <-. cbn. repeat split; try assumption.
    intros ->. rewrite String.eqb_refl in Hvw. discriminate.
  - intros (Ha & Ho & Hne). exists (conflictKey c, conflictValue c). split.
    + apply elem_of_map_to_list. exact Ho.
    + unfold conflictOf. cbn [fst snd]. rewrite Ha.
      destruct (String.eqb (conflictValue c) (conflictStored c)) eqn:Hvw.
      * apply String.eqb_eq in Hvw. contradiction.
      * destruct c; reflexivity.
Qed.

Lemma Add_one s l :
  Add s [l] =
  match addOne (default ∅ (set s), []) l with
  | Some (m, log) => Some ({| set := Some m |}, log)
  | None => None
  end.
Proof.
  unfold Add. cbn [addAll].
  destruct (addOne (default ∅ (set s), []) l) as [[m log]|]; reflexivity.
Qed.

(** [NewLocationSet] of two locations, by cases on their keys. *)
Lemma NewLocationSet_pair l1 l2 :
  NewLocationSet [l1; l2] =
  if decide (locationData l1 = locationData l2) then
    match merge (locationMetadata l1) (locationMetadata l2) with
    | Some (m', errs) =>
        Some ({| set := Some {[ locationData l1 := m' ]} |}, mergeLog errs)
    | None => None
    end
  else
    Some ({| set := Some (<[ locationData l2 := locationMetadata l2 ]>
                            {[ locationData l1 := locationMetadata l1 ]}) |},
          []).
Proof.
  unfold NewLocationSet. cbn [newLocationSetLoop].
  rewrite (Add_one _ l1). cbn [addOne set default].
  rewrite lookup_empty, insert_empty, (Add_one _ l2).
  cbn [addOne set default id app].
  destruct (decide (locationData l1 = locationData l2)) as [Heq|Hne].
  - rewrite <- Heq, lookup_singleton_eq.
    destruct (merge (locationMetadata l1) (locationMetadata l2))
      as [[m' errs]|]; [|reflexivity].
    rewrite insert_singleton_eq. destruct errs; reflexivity.
  - rewrite lookup_singleton_ne by exact Hne. reflexivity.
Qed.

(** The range over an annotation map visits an entry exactly when the
    map holds one. *)
Lemma entries_nil (ann : option (gmap string string)) :
  entries ann = [] <->
  ~ exists a k v, ann = Some a /\ a !! k = Some v.
Proof.
  destruct ann as [a|]; cbn [entries].
  - rewrite map_to_list_empty_iff. split.
    + intros -> (a' & k & v & [= <-] & Hk). rewrite lookup_empty in Hk.
      discriminate Hk.
    + intros Hnone. apply map_empty. intros k.
      destruct (a !! k) as [v|] eqn:Hk; [|reflexivity].
      exfalso. apply Hnone. exists a, k, v. auto.
  - split; [|reflexivity]. intros _ (a & k & v & Hsome & _).
    discriminate Hsome.
Qed.

(** C1, as amended. For every two locations: adding both panics
    exactly when they have the same [LocationData], the first has a nil
    annotation map and the second has an annotation (the assignment to
    an entry of the nil map in [merge]); otherwise the call returns,
    with one member when their [LocationData] (coordinates, access path
    and file reference) are equal and with two members when they
    differ.  Membership is decided by [LocationData] alone and the
    annotations play no part in it. *)
Theorem LocationSet_deduplicates_by_LocationData l1 l2 :
  let panics :=
    locationData l1 = locationData l2 /\
    Annotations (locationMetadata l1) = None /\
    exists a2 k v,
      Annotations (locationMetadata l2) = Some a2 /\ a2 !! k = Some v in
  (panics -> NewLocationSet [l1; l2] = None) /\
  (~ panics ->
   exists s log,
     NewLocationSet [l1; l2] = Some (s, log) /\
     (locationData l1 = locationData l2 -> members s = 1%nat) /\
     (locationData l1 <> locationData l2 -> members s = 2%nat) /\
     (forall l, Contains s l = true <->
                locationData l = locationData l1 \/
                locationData l = locationData l2)).
Proof.
  intros panics. rewrite NewLocationSet_pair.
  destruct (decide (locationData l1 = locationData l2)) as [Heq|Hne].
  - assert (Hone : forall m' (log : list logEntry),
      exists s log',
        Some ({| set := Some {[ locationData l1 := m' ]} |}, log)
          = Some (s, log') /\
        (locationData l1 = locationData l2 -> members s = 1%nat) /\
        (locationData l1 <> locationData l2 -> members s = 2%nat) /\
        (forall l, Contains s l = true <->
                   locationData l = locationData l1 \/
                   locationData l = locationData l2)).
    { intros m' log. eexists _, _. split; [reflexivity|].
      unfold members, Contains. cbn [set]. repeat split.
      - intros _. apply map_size_singleton.
      - intros Hne. contradiction.
      - intros Hc. apply bool_decide_eq_true in Hc as [m Hm].
        apply lookup_singleton_Some in Hm as [Hl _]. left. symmetry.
        exact Hl.
      - intros Hl. apply bool_decide_eq_true.
        assert (Hl1 : locationData l = locationData l1)
          by (destruct Hl; congruence).
        rewrite Hl1, lookup_singleton_eq. eexists; reflexivity. }
    destruct (locationMetadata l1) as [[a1|]] eqn:Hm1.
    + rewrite merge_initialised. split.
      * intros (_ & Hnil & _). discriminate Hnil.
      * intros _. apply Hone.
    + rewrite merge_nil.
      destruct (entries (Annotations (locationMetadata l2))) as [|kv kvs]
        eqn:Hentries.
      * split; [|intros _; apply Hone].
        intros (_ & _ & Hsome). apply entries_nil in Hentries.
        contradiction.
      * split; [reflexivity|]. intros Hnot. exfalso. apply Hnot.
        split; [exact Heq|]. split; [reflexivity|].
        destruct (Annotations (locationMetadata l2)) as [a2|];
          [|discriminate Hentries].
        destruct kv as [k v]. exists a2, k, v. split; [reflexivity|].
        apply elem_of_map_to_list. cbn [entries] in Hentries.
        rewrite Hentries. left.
  - split; [intros (Heq & _); contradiction|]. intros _.
    eexists _, _. split; [reflexivity|].
    unfold members, Contains. cbn [set]. repeat split.
    + intros Heq. contradiction.
    + intros _. rewrite map_size_insert_None.
      * rewrite map_size_singleton. reflexivity.
      * apply lookup_singleton_ne. exact Hne.
    + intros Hc. apply bool_decide_eq_true in Hc as [m Hm].
      apply lookup_insert_Some in Hm as [[Hl _]|[_ Hm]].
      * right. symmetry. exact Hl.
      * apply lookup_singleton_Some in Hm as [Hl _]. left. symmetry.
        exact Hl.
    + intros Hl. apply bool_decide_eq_true.
      destruct (decide (locationData l2 = locationData l)) as [E|E].
      * rewrite <- E, lookup_insert_eq. eexists; reflexivity.
      * rewrite lookup_insert_ne by exact E.
        destruct Hl as [Hl|Hl]; [|congruence].
        rewrite Hl, lookup_singleton_eq. eexists; reflexivity.
Qed.

(** C8, as amended. When two locations with equal [LocationData] are
    added, the stored annotations are the union of both maps in which the
    first-seen value of every key is kept; the keys that carry different
    values on the two sides are exactly the reported conflicts, and a
    conflict puts one partial-merge line into the log. *)
Theorem LocationSet_merge_first_seen_wins l1 l2 a1 a2 :
  locationData l1 = locationData l2 ->
  Annotations (locationMetadata l1) = Some a1 ->
  Annotations (locationMetadata l2) = Some a2 ->
  exists errs,
    NewLocationSet [l1; l2] =
      Some ({| set := Some {[ locationData l1 :=
                                {| Annotations := Some (a1 ∪ a2) |} ]} |},
            mergeLog errs) /\
    (forall c, c ∈ errs <->
       a1 !! conflictKey c = Some (conflictStored c) /\
       a2 !! conflictKey c = Some (conflictValue c) /\
       conflictValue c <> conflictStored c) /\
    (forall k v1 v2,
       a1 !! k = Some v1 -> a2 !! k = Some v2 -> v1 <> v2 ->
       (a1 ∪ a2) !! k = Some v1 /\ mergeLog errs = [PartialMerge errs]) /\
    (forall k v, a1 !! k = Some v -> (a1 ∪ a2) !! k = Some v) /\
    (forall k v, a1 !! k = None -> a2 !! k = Some v ->
                 (a1 ∪ a2) !! k = Some v).
Proof.
  intros Heq H1 H2. exists (conflictsWith a1 (map_to_list a2)).
  rewrite NewLocationSet_pair.
  destruct (decide (locationData l1 = locationData l2)); [|contradiction].
  destruct (locationMetadata l1) as [ann1] eqn:Hm1. cbn in H1. subst ann1.
  rewrite merge_initialised, H2. cbn [default entries id].
  split; [reflexivity|].
  split; [intros c; apply elem_of_conflictsWith|].
  split; [|split].
  - intros k v1 v2 Hk1 Hk2 Hne. split.
    + apply lookup_union_Some_l. exact Hk1.
    + assert (Hin : {| conflictKey := k; conflictValue := v2;
                       conflictStored := v1 |}
                    ∈ conflictsWith a1 (map_to_list a2)).
      { apply elem_of_conflictsWith. cbn. repeat split; congruence. }
      destruct (conflictsWith a1 (map_to_list a2)); [|reflexivity].
      apply elem_of_nil in Hin. contradiction.
  - intros k v Hk. apply lookup_union_Some_l. exact Hk.
  - intros k v Hk1 Hk2. rewrite lookup_union_r by exact Hk1. exact Hk2.
Qed.

Lemma LocationSet_deduplicates_by_LocationData_witness :
  (exists s log,
     NewLocationSet [binA; WithAnnotation binA "evidence" "primary"]
       = Some (s, log) /\
     members s = 1%nat) /\
  (exists s log,
     NewLocationSet [bareBinA; bareBinA] = Some (s, log) /\
     members s = 1%nat) /\
  NewLocationSet [bareBinA; WithAnnotation binA "evidence" "primary"] = None.
Proof.
  split; [|split].
  - destruct (proj2 (LocationSet_deduplicates_by_LocationData
                       binA (WithAnnotation binA "evidence" "primary")))
      as (s & log & Hs & Hone & _).
    { intros (_ & Hnil & _). discriminate Hnil. }
    exists s, log. split; [exact Hs | apply Hone; reflexivity].
  - destruct (proj2 (LocationSet_deduplicates_by_LocationData
                       bareBinA bareBinA))
      as (s & log & Hs & Hone & _).
    { intros (_ & _ & a2 & k & v & Hsome & _). discriminate Hsome. }
    exists s, log. split; [exact Hs | apply Hone; reflexivity].
  - apply (proj1 (LocationSet_deduplicates_by_LocationData
                    bareBinA (WithAnnotation binA "evidence" "primary"))).
    split; [reflexivity|]. split; [reflexivity|].
    exists (<["evidence" := "primary"]> ∅), "evidence", "primary".
    split; [reflexivity | apply lookup_insert_eq].
Defined.

(** C1, as stated, fails: two locations with the same coordinates and
    different access paths stay two members. *)
Lemma LocationSet_same_coordinates_two_members :
  coordinates (locationData etcHostsLinkVar)
    = coordinates (locationData etcHostsLinkHome) /\
  exists s log,
    NewLocationSet [etcHostsLinkVar; etcHostsLinkHome] = Some (s, log) /\
    members s = 2%nat.
Proof.
  split; [reflexivity|]. rewrite NewLocationSet_pair.
  destruct (decide (locationData etcHostsLinkVar
                    = locationData etcHostsLinkHome)) as [E|_];
    [discriminate E|].
  eexists _, _. split; [reflexivity|].
  unfold members. cbn [set]. rewrite map_size_insert_None.
  - rewrite map_size_singleton. reflexivity.
  - apply lookup_singleton_ne. discriminate.
Qed.

Lemma LocationSet_merge_first_seen_wins_witness :
  exists errs,
    NewLocationSet [WithAnnotation binA "evidence" "primary";
                    WithAnnotation binA "evidence" "supporting"] =
      Some ({| set := Some {[ locationData binA :=
                 {| Annotations :=
                      Some (<["evidence" := "primary"]> ∅
                            ∪ <["evidence" := "supporting"]> ∅) |} ]} |},
            mergeLog errs) /\
    (forall c, c ∈ errs <->
       (<["evidence" := "primary"]> ∅ : gmap string string)
         !! conflictKey c = Some (conflictStored c) /\
       (<["evidence" := "supporting"]> ∅ : gmap string string)
         !! conflictKey c = Some (conflictValue c) /\
       conflictValue c <> conflictStored c) /\
    (forall k v1 v2,
       (<["evidence" := "primary"]> ∅ : gmap string string) !! k = Some v1 ->
       (<["evidence" := "supporting"]> ∅ : gmap string string) !! k
         = Some v2 ->
       v1 <> v2 ->
       (<["evidence" := "primary"]> ∅ ∪ <["evidence" := "supporting"]> ∅
          : gmap string string) !! k = Some v1 /\
       mergeLog errs = [PartialMerge errs]) /\
    (forall k v,
       (<["evidence" := "primary"]> ∅ : gmap string string) !! k = Some v ->
       (<["evidence" := "primary"]> ∅ ∪ <["evidence" := "supporting"]> ∅
          : gmap string string) !! k = Some v) /\
    (forall k v,
       (<["evidence" := "primary"]> ∅ : gmap string string) !! k = None ->
       (<["evidence" := "supporting"]> ∅ : gmap string string) !! k
         = Some v ->
       (<["evidence" := "primary"]> ∅ ∪ <["evidence" := "supporting"]> ∅
          : gmap string string) !! k = Some v).
Proof.
  apply (LocationSet_merge_first_seen_wins
           (WithAnnotation binA "evidence" "primary")
           (WithAnnotation binA "evidence" "supporting")
           (<["evidence" := "primary"]> ∅)
           (<["evidence" := "supporting"]> ∅));
    reflexivity.
Defined.

(** A location built without a constructor has a nil annotation map,
    and merging an annotation into it panics. *)
Example LocationSet_nil_annotations_panic :
  let bare := {| locationData := locationData binA;
                 locationMetadata := {| Annotations := None |} |} in
  NewLocationSet [bare; bare] = Some ({| set := Some {[ locationData binA :=
                                     {| Annotations := None |} ]} |}, []) /\
  NewLocationSet [bare; WithAnnotation binA "evidence" "primary"] = None.
Proof.
  intros bare. rewrite !NewLocationSet_pair.
  destruct (decide (locationData bare = locationData bare)) as [_|E];
    [|contradiction].
  destruct (decide (locationData bare
                    = locationData (WithAnnotation binA "evidence" "primary")))
    as [_|E]; [|contradiction].
  split; reflexivity.
Qed.

(** C8, as stated, fails: with equal coordinates and different access
    paths the conflicting value of the second location is stored under
    its own key, nothing is merged and no warning is logged. *)
Lemma LocationSet_same_coordinates_no_merge :
  let l1 := WithAnnotation etcHostsLinkVar "evidence" "primary" in
  let l2 := WithAnnotation etcHostsLinkHome "evidence" "supporting" in
  coordinates (locationData l1) = coordinates (locationData l2) /\
  exists s,
    NewLocationSet [l1; l2] = Some (s, []) /\
    stored s (locationData l1) = Some (locationMetadata l1) /\
    stored s (locationData l2) = Some (locationMetadata l2) /\
    Annotations (locationMetadata l2)
      = Some (<["evidence" := "supporting"]> ∅).
Proof.
  intros l1 l2. split; [reflexivity|]. rewrite NewLocationSet_pair.
  destruct (decide (locationData l1 = locationData l2)) as [E|Hne];
    [discriminate E|].
  eexists. split; [reflexivity|]. unfold stored. cbn [set].
  split; [|split; [|reflexivity]].
  - rewrite lookup_insert_ne by (intros E; apply Hne; symmetry; exact E).
    apply lookup_singleton_eq.
  - apply lookup_insert_eq.
Qed.

End LocationFacts.

(** ** The byte-wise order of strings *)

Section StringOrder.

Lemma ascii_compare_refl c : Ascii.compare c c = Eq.
Proof. unfold Ascii.compare. apply N.compare_refl. Qed.

Lemma ascii_compare_lt_trans a b c :
  Ascii.compare a b = Lt -> Ascii.compare b c = Lt -> Ascii.compare a c = Lt.
Proof.
  unfold Ascii.compare. rewrite !N.compare_lt_iff. apply N.lt_trans.
Qed.

Lemma string_compare_refl s : String.compare s s = Eq.
Proof.
  induction s as [|c s IH]; simpl; [reflexivity|].
  rewrite ascii_compare_refl. exact IH.
Qed.

Lemma string_compare_lt_trans s1 s2 s3 :
  String.compare s1 s2 = Lt -> String.compare s2 s3 = Lt ->
  String.compare s1 s3 = Lt.
Proof.
  revert s2 s3. induction s1 as [|c1 s1 IH]; intros [|c2 s2] [|c3 s3];
    simpl; try congruence.
  destruct (Ascii.compare c1 c2) eqn:E12; try discriminate;
    destruct (Ascii.compare c2 c3) eqn:E23; try discriminate; intros H1 H2.
  - apply Ascii.compare_eq_iff in E12, E23. subst.
    rewrite ascii_compare_refl. eapply IH; eassumption.
  - apply Ascii.compare_eq_iff in E12. subst. rewrite E23. reflexivity.
  - apply Ascii.compare_eq_iff in E23. subst. rewrite E12. reflexivity.
  - rewrite (ascii_compare_lt_trans _ _ _ E12 E23). reflexivity.
Qed.

Lemma string_ltb_irrefl s : String.ltb s s = false.
Proof. unfold String.ltb. rewrite string_compare_refl. reflexivity. Qed.

Lemma string_ltb_trans s1 s2 s3 :
  String.ltb s1 s2 = true -> String.ltb s2 s3 = true ->
  String.ltb s1 s3 = true.
Proof.
  unfold String.ltb. intros H1 H2.
  destruct (String.compare s1 s2) eqn:E1; try discriminate.
  destruct (String.compare s2 s3) eqn:E2; try discriminate.
  rewrite (string_compare_lt_trans _ _ _ E1 E2). reflexivity.
Qed.

(** Two strings of which neither is below the other are equal. *)
Lemma string_ltb_total s1 s2 :
  String.ltb s1 s2 = false -> String.ltb s2 s1 = false -> s1 = s2.
Proof.
  unfold String.ltb. rewrite (String.compare_antisym s1 s2).
  destruct (String.compare s2 s1) eqn:E; simpl; intros H1 H2;
    try discriminate.
  symmetry. apply String.compare_eq_iff. exact E.
Qed.

End StringOrder.

(** ** The order of CPEs *)

Section CpeOrderFacts.
Import cpe.

Ltac lexb_cases :=
  unfold lexb;
  repeat match goal with
         | |- context [?a =? ?b] => destruct (Z.eqb_spec a b)
         end;
  cbn [negb]; rewrite ?Z.ltb_lt, ?Z.gtb_ltb, ?Z.ltb_lt, ?Z.ltb_ge;
  try lia; try (intros; lia).

Lemma lexb_irrefl r s l b : lexb r s l b r s l b = false.
Proof. lexb_cases. apply string_ltb_irrefl. Qed.

Lemma lexb_trans r1 s1 l1 b1 r2 s2 l2 b2 r3 s3 l3 b3 :
  lexb r1 s1 l1 b1 r2 s2 l2 b2 = true ->
  lexb r2 s2 l2 b2 r3 s3 l3 b3 = true ->
  lexb r1 s1 l1 b1 r3 s3 l3 b3 = true.
Proof. lexb_cases. apply string_ltb_trans. Qed.

Lemma lexb_tie r1 s1 l1 b1 r2 s2 l2 b2 :
  lexb r1 s1 l1 b1 r2 s2 l2 b2 = false ->
  lexb r2 s2 l2 b2 r1 s1 l1 b1 = false ->
  r1 = r2 /\ s1 = s2 /\ l1 = l2 /\ b1 = b2.
Proof.
  lexb_cases. intros H1 H2. repeat split; try assumption.
  apply string_ltb_total; assumption.
Qed.

Lemma lexb_tie_false r s l b :
  forall r' s' l' b', r = r' -> s = s' -> l = l' -> b = b' ->
  lexb r s l b r' s' l' b' = false.
Proof. intros; subst. apply lexb_irrefl. Qed.

Lemma lexb_spec r1 s1 l1 b1 r2 s2 l2 b2 :
  lexb r1 s1 l1 b1 r2 s2 l2 b2 = true <->
  r1 < r2 \/
  r1 = r2 /\ (s1 > s2 \/ s1 = s2 /\
              (l1 > l2 \/ l1 = l2 /\ String.ltb b1 b2 = true)).
Proof.
  lexb_cases. split.
  - intros H. right. split; [assumption|]. right. split; [assumption|].
    right. split; assumption.
  - intros [H|[_ [H|[_ [H|[_ H]]]]]]; try lia. exact H.
Qed.

Lemma weightedCountForSpecifiedFields_weights a :
  weightedCountForSpecifiedFields a =
  weightIfSpecified (Part a) 2 + weightIfSpecified (Vendor a) 3 +
  weightIfSpecified (Product a) 4 + weightIfSpecified (Version a) 1 +
  weightIfSpecified (TargetSW a) 1.
Proof.
  unfold weightedCountForSpecifiedFields, checksForSpecifiedField,
    weightIfSpecified. cbn [fold_left].
  destruct (String.eqb (Part a) ""), (String.eqb (Vendor a) ""),
    (String.eqb (Product a) ""), (String.eqb (Version a) ""),
    (String.eqb (TargetSW a) ""); reflexivity.
Qed.

Lemma string_length_app (s1 s2 : string) :
  String.length (s1 ++ s2) = (String.length s1 + String.length s2)%nat.
Proof. induction s1 as [|c s1 IH]; simpl; [reflexivity | now rewrite IH]. Qed.

Lemma countFieldLength_sum a :
  countFieldLength a =
  Z.of_nat (String.length (Part a)) + Z.of_nat (String.length (Vendor a)) +
  Z.of_nat (String.length (Product a)) + Z.of_nat (String.length (Version a)) +
  Z.of_nat (String.length (TargetSW a)).
Proof. unfold countFieldLength. rewrite !string_length_app. lia. Qed.

Section WithBinding.
Variable BindToFmtString : Attributes -> string.
Variables NVDDictionaryLookupSource DeclaredSource GeneratedSource : Source.

Abbreviation getRank :=
  (getRank NVDDictionaryLookupSource DeclaredSource GeneratedSource).
Abbreviation Less :=
  (Less BindToFmtString NVDDictionaryLookupSource DeclaredSource
     GeneratedSource).
Abbreviation lexLess :=
  (lexLess BindToFmtString NVDDictionaryLookupSource DeclaredSource
     GeneratedSource).
Abbreviation notAfter :=
  (notAfter BindToFmtString NVDDictionaryLookupSource DeclaredSource
     GeneratedSource).

Lemma Less_lexb x y :
  Less x y =
  lexb (getRank (source x)) (weightedCountForSpecifiedFields (attributes x))
       (countFieldLength (attributes x)) (BindToFmtString (attributes x))
       (getRank (source y)) (weightedCountForSpecifiedFields (attributes y))
       (countFieldLength (attributes y)) (BindToFmtString (attributes y)).
Proof. reflexivity. Qed.

Lemma Less_irrefl x : Less x x = false.
Proof. rewrite Less_lexb. apply lexb_irrefl. Qed.

Lemma Less_trans x y z :
  Less x y = true -> Less y z = true -> Less x z = true.
Proof. rewrite !Less_lexb. apply lexb_trans. Qed.

Lemma Less_tie x y :
  Less x y = false -> Less y x = false ->
  getRank (source x) = getRank (source y) /\
  weightedCountForSpecifiedFields (attributes x)
    = weightedCountForSpecifiedFields (attributes y) /\
  countFieldLength (attributes x) = countFieldLength (attributes y) /\
  BindToFmtString (attributes x) = BindToFmtString (attributes y).
Proof. rewrite !Less_lexb. apply lexb_tie. Qed.

Lemma Less_asym x y : Less x y = true -> Less y x = false.
Proof.
  intros Hxy. destruct (Less y x) eqn:Hyx; [|reflexivity].
  pose proof (Less_trans _ _ _ Hxy Hyx) as Hxx.
  rewrite Less_irrefl in Hxx. discriminate Hxx.
Qed.

(** Elements that tie are less than the same elements. *)
Lemma Less_tie_congr x y z :
  Less x y = false -> Less y x = false ->
  Less x z = Less y z /\ Less z x = Less z y.
Proof.
  intros H1 H2. destruct (Less_tie _ _ H1 H2) as (Hr & Hs & Hl & Hb).
  rewrite !Less_lexb, Hr, Hs, Hl, Hb. split; reflexivity.
Qed.

#[local] Instance notAfter_total : Total notAfter.
Proof.
  intros x y. unfold cpe.notAfter.
  destruct (Less y x) eqn:E; [right; apply Less_asym, E | left; reflexivity].
Qed.

#[local] Instance notAfter_trans : Transitive notAfter.
Proof.
  intros x y z Hxy Hyz. unfold cpe.notAfter in *.
  destruct (Less z x) eqn:Hzx; [|reflexivity].
  destruct (Less x y) eqn:Hxy'.
  - rewrite (Less_trans _ _ _ Hzx Hxy') in Hyz. discriminate Hyz.
  - destruct (Less_tie_congr _ _ z Hxy' Hxy) as [_ Hcongr]. congruence.
Qed.

Lemma getRank_known :
  NVDDictionaryLookupSource <> DeclaredSource ->
  NVDDictionaryLookupSource <> GeneratedSource ->
  DeclaredSource <> GeneratedSource ->
  getRank NVDDictionaryLookupSource = 1 /\
  getRank DeclaredSource = 2 /\
  getRank GeneratedSource = 3 /\
  (forall s, s <> NVDDictionaryLookupSource -> s <> DeclaredSource ->
             s <> GeneratedSource -> getRank s = 4).
Proof.
  intros Hnd Hng Hdg. unfold cpe.getRank, sourceOrder. repeat split.
  - rewrite !lookup_insert_ne by congruence.
    rewrite lookup_insert_eq. reflexivity.
  - rewrite lookup_insert_ne by congruence.
    rewrite lookup_insert_eq. reflexivity.
  - rewrite lookup_insert_eq. reflexivity.
  - intros s H1 H2 H3. rewrite !lookup_insert_ne by congruence.
    rewrite lookup_empty. reflexivity.
Qed.


Abbreviation key := (key BindToFmtString).
Abbreviation hasKey := (hasKey BindToFmtString).
Abbreviation dedupeInsert := (dedupeInsert BindToFmtString).
Abbreviation dedupe := (dedupe BindToFmtString).
Abbreviation identity := (identity BindToFmtString).
Abbreviation sameCPE := (sameCPE BindToFmtString).
Abbreviation keyFaithfulOn := (keyFaithfulOn BindToFmtString).
Abbreviation Merge :=
  (Merge BindToFmtString NVDDictionaryLookupSource DeclaredSource
     GeneratedSource).
Abbreviation MergeResult :=
  (MergeResult BindToFmtString NVDDictionaryLookupSource DeclaredSource
     GeneratedSource).

(** After the insertion loop a key holds the last CPE of the slice that
    has this key. *)
Lemma fold_dedupeInsert_lookup (l : list CPE) (m : gmap string CPE) k :
  fold_left dedupeInsert l m !! k =
  match last (List.filter (hasKey k) l) with
  | Some c => Some c
  | None => m !! k
  end.
Proof.
  revert m. induction l as [|c l IH]; intros m; [reflexivity|].
  cbn [fold_left List.filter]. rewrite IH. unfold cpe.dedupeInsert.
  unfold cpe.hasKey at 2.
  destruct (bool_decide_reflect (key c = k)) as [Hk|Hk].
  - destruct (List.filter (hasKey k) l) as [|c' l'] eqn:Hf.
    + cbn. rewrite Hk. apply lookup_insert_eq.
    + change (last (c :: c' :: l')) with (last (c' :: l')).
      destruct (last (c' :: l')) eqn:E; [reflexivity|].
      apply last_None in E. discriminate E.
  - destruct (last (List.filter (hasKey k) l)); [reflexivity|].
    apply lookup_insert_ne. exact Hk.
Qed.

Lemma dedupe_lookup a b k :
  dedupe a b !! k = last (List.filter (hasKey k) (a ++ b)).
Proof.
  unfold cpe.dedupe. rewrite <- fold_left_app, fold_dedupeInsert_lookup.
  rewrite lookup_empty. destruct (last _); reflexivity.
Qed.

Lemma dedupe_lookup_Some a b k c :
  dedupe a b !! k = Some c -> key c = k /\ c ∈ a ++ b.
Proof.
  rewrite dedupe_lookup. intros Hlast.
  apply last_Some_elem_of, list_elem_of_In, filter_In in Hlast as [Hin Hk].
  apply bool_decide_eq_true in Hk. split; [exact Hk|].
  apply list_elem_of_In. exact Hin.
Qed.

Lemma dedupe_lookup_elem a b c :
  c ∈ a ++ b -> exists c', dedupe a b !! key c = Some c'.
Proof.
  intros Hin. rewrite dedupe_lookup.
  destruct (last (List.filter (hasKey (key c)) (a ++ b))) as [c'|] eqn:E;
    [exists c'; reflexivity|].
  apply last_None in E.
  assert (Hc : In c (List.filter (hasKey (key c)) (a ++ b))).
  { apply filter_In. split; [apply list_elem_of_In, Hin|].
    apply bool_decide_eq_true. reflexivity. }
  rewrite E in Hc. destruct Hc.
Qed.

(** The values of [dedupe] are the members of every result. *)
Lemma elem_of_values a b c :
  c ∈ (map_to_list (dedupe a b)).*2 <-> dedupe a b !! key c = Some c.
Proof.
  rewrite list_elem_of_fmap. split.
  - intros ([k c'] & -> & Hin). apply elem_of_map_to_list in Hin. cbn.
    destruct (dedupe_lookup_Some _ _ _ _ Hin) as [-> _]. exact Hin.
  - intros Hc. exists (key c, c). split; [reflexivity|].
    apply elem_of_map_to_list. exact Hc.
Qed.

Lemma key_of_identity c1 c2 : identity c1 = identity c2 -> key c1 = key c2.
Proof.
  unfold cpe.identity, cpe.key. intros H. injection H as -> ->. reflexivity.
Qed.

(** Deduplication: no two values of [dedupe] have the same pair. *)
Lemma values_NoDup_identity a b :
  NoDup (identity <$> (map_to_list (dedupe a b)).*2).
Proof.
  rewrite <- list_fmap_compose.
  apply NoDup_fmap_2_strong; [|apply NoDup_map_to_list].
  intros [k1 c1] [k2 c2] H1 H2 Hid. cbn in Hid.
  apply elem_of_map_to_list in H1, H2.
  destruct (dedupe_lookup_Some _ _ _ _ H1) as [Hk1 _].
  destruct (dedupe_lookup_Some _ _ _ _ H2) as [Hk2 _].
  apply key_of_identity in Hid.
  assert (E : k1 = k2) by congruence.
  rewrite E in H1. rewrite H1 in H2. injection H2 as ->.
  rewrite E. reflexivity.
Qed.

(** Union: the pairs in the values are the pairs of the operands. *)
Lemma elem_of_values_identity a b p :
  keyFaithfulOn (a ++ b) ->
  p ∈ identity <$> (map_to_list (dedupe a b)).*2 <->
  exists c, c ∈ a ++ b /\ identity c = p.
Proof.
  intros Hfaith. rewrite list_elem_of_fmap. split.
  - intros (c & -> & Hc). apply elem_of_values in Hc.
    exists c. split; [|reflexivity].
    apply (dedupe_lookup_Some _ _ _ _ Hc).
  - intros (c & Hin & <-).
    destruct (dedupe_lookup_elem _ _ _ Hin) as [c' Hc'].
    destruct (dedupe_lookup_Some _ _ _ _ Hc') as [Hk Hin'].
    exists c'. split.
    + symmetry. apply Hfaith; assumption.
    + apply elem_of_values. rewrite Hk. exact Hc'.
Qed.

Lemma keyFaithfulOn_comm a b : keyFaithfulOn (a ++ b) -> keyFaithfulOn (b ++ a).
Proof.
  intros H c1 c2 H1 H2. apply H; rewrite elem_of_app in *; tauto.
Qed.

(** Later wins: a value of [dedupe] is the last operand CPE with its
    pair. *)
Lemma values_last a b c :
  keyFaithfulOn (a ++ b) ->
  c ∈ (map_to_list (dedupe a b)).*2 ->
  last (List.filter (sameCPE c) (a ++ b)) = Some c.
Proof.
  intros Hfaith Hc. apply elem_of_values in Hc.
  destruct (dedupe_lookup_Some _ _ _ _ Hc) as [_ Hin].
  rewrite dedupe_lookup in Hc. rewrite <- Hc. f_equal.
  apply filter_ext_in. intros c' Hin'. apply list_elem_of_In in Hin'.
  unfold cpe.sameCPE, cpe.hasKey. apply bool_decide_ext. split.
  - intros Hid. symmetry. apply key_of_identity. exact Hid.
  - intros Hk. apply Hfaith; [assumption..|]. symmetry. exact Hk.
Qed.

(** The executable [Merge] returns one of the admissible results. *)
Lemma Merge_MergeResult a b : MergeResult a b (Merge a b).
Proof.
  split.
  - apply merge_sort_Permutation.
  - apply (Sorted_merge_sort _).
Qed.


End WithBinding.

(** With sources free of [':'] the key string stands for the pair. *)
Lemma colonFree_key_inj (s1 s2 b1 b2 : string) :
  colonFree s1 = true -> colonFree s2 = true ->
  (s1 ++ ":" ++ b1)%string = (s2 ++ ":" ++ b2)%string ->
  s1 = s2 /\ b1 = b2.
Proof.
  assert (Hnil : forall t, ("" ++ t)%string = t) by reflexivity.
  assert (Hcons : forall c s t,
             (String c s ++ t)%string = String c (s ++ t)%string)
    by reflexivity.
  revert s2. induction s1 as [|c1 s1 IH]; intros [|c2 s2]; cbn;
    intros H1 H2 Heq;
    repeat (rewrite Hnil in Heq || rewrite Hcons in Heq).
  - injection Heq as Hb. subst b2. split; reflexivity.
  - injection Heq as Hc _. subst c2. cbn in H2. discriminate H2.
  - injection Heq as Hc _. subst c1. cbn in H1. discriminate H1.
  - injection Heq as Hc Heq. subst c2.
    apply andb_true_iff in H1 as [_ H1]. apply andb_true_iff in H2 as [_ H2].
    destruct (IH _ H1 H2 Heq) as [Hs Hb]. subst. split; reflexivity.
Qed.

Lemma colonFree_keyFaithfulOn bind (l : list CPE) :
  Forall (fun c => colonFree (source c) = true) l ->
  keyFaithfulOn bind l.
Proof.
  intros Hall c1 c2 H1 H2 Hkey. rewrite Forall_forall in Hall.
  unfold key in Hkey. unfold identity.
  destruct (colonFree_key_inj _ _ _ _ (Hall _ H1) (Hall _ H2) Hkey)
    as [-> ->].
  reflexivity.
Qed.





(** [Merge] on the samples: one CPE per source, best source first. *)
Example Merge_samples :
  Merge sampleBinding "nvd-dictionary-lookup" "declared" "generated"
    [curlGenerated; curlDeclared] [curlNVD; curlGenerated; curlGeneratedNoVendor]
  = [curlNVD; curlDeclared; curlGenerated; curlGeneratedNoVendor].
Proof. vm_compute. reflexivity. Qed.

End CpeOrderFacts.

(** ** Paths and ZIP extraction *)

Section PathFacts.
Import filepath zipfile.

(** [Clean] on the cases of Go's own test table. *)
Example Clean_table :
  List.map Clean
    [ ""; "abc"; "abc/def"; "."; ".."; "../.."; "../../abc"; "/abc"; "/";
      "abc/"; "./"; "../"; "/abc/"; "abc//def//ghi"; "//abc"; "///abc";
      "//abc//"; "abc/./def"; "/./abc/def"; "abc/.";
      "abc/def/ghi/../jkl"; "abc/def/../ghi/../jkl"; "abc/def/..";
      "abc/def/../.."; "/abc/def/../.."; "abc/def/../../..";
      "/abc/def/../../.."; "abc/def/../../../ghi/jkl/../../../mno";
      "/../abc"; "abc/./../def"; "abc//./../def"; "abc/../../././../def" ]
  = [ "."; "abc"; "abc/def"; "."; ".."; "../.."; "../../abc"; "/abc"; "/";
      "abc"; "."; ".."; "/abc"; "abc/def/ghi"; "/abc"; "/abc";
      "/abc"; "abc/def"; "/abc/def"; "abc";
      "abc/def/jkl"; "abc/jkl"; "abc";
      "."; "/"; "..";
      "/"; "../../mno";
      "/abc"; "def"; "def"; "../../def" ].
Proof. vm_compute. reflexivity. Qed.

(** [Join] on the cases of Go's own test table. *)
Example Join_table :
  List.map Join
    [ []; [""]; ["a"]; ["a"; "b"]; ["a"; ""]; [""; "b"]; ["/"; "a"];
      ["/"; ""]; ["a/"; "b"]; ["a/"; ""]; [""; ""]; ["/"; "a"; "b"] ]
  = [ ""; ""; "a"; "a/b"; "a"; "b"; "/a"; "/"; "a/b"; "a"; ""; "/a/b" ].
Proof. vm_compute. reflexivity. Qed.

(** [safeJoin] on the cases of the repository's own tests. *)
Example safeJoin_table :
  safeJoin "/a/place" ["somewhere/else"] = Ok "/a/place/somewhere/else" /\
  safeJoin "/a/place" ["somewhere/../else"] = Ok "/a/place/else" /\
  safeJoin "/a/../place" ["somewhere/else"] = Ok "/place/somewhere/else" /\
  safeJoin "/a/place" ["../../etc/passwd"] =
    Err {| Prefix := "/a/place"; JoinArgs := ["../../etc/passwd"] |}.
Proof. vm_compute. repeat split. Qed.

(** [safeJoin] refuses exactly the joined paths whose cleaned form does
    not start with the characters of the cleaned prefix, and returns the
    joined path otherwise. *)
Lemma safeJoin_spec prefix dest :
  (HasPrefix (Clean (Join (prefix :: dest))) (Clean prefix) = false ->
   safeJoin prefix dest = Err {| Prefix := prefix; JoinArgs := dest |}) /\
  (HasPrefix (Clean (Join (prefix :: dest))) (Clean prefix) = true ->
   safeJoin prefix dest = Ok (Join (prefix :: dest))).
Proof.
  unfold safeJoin. split; intros ->; reflexivity.
Qed.

(** An entry that [safeJoin] refuses is not extracted, and it ends the
    extraction. *)
Lemma unzipEntries_refused targetDir name rest written e :
  safeJoin targetDir [name] = Err e ->
  unzipEntries targetDir (name :: rest) written = (written, Some e).
Proof. intros H. cbn [unzipEntries]. rewrite H. reflexivity. Qed.

(** C7 at its failing input. With the target directory [/tmp/foo], the
    entry [../foobar/evil] is joined to [/tmp/foobar/evil]; the cleaned
    path starts with the characters [/tmp/foo], so [safeJoin] accepts
    it and [UnzipToDir] writes to a path outside the target root. *)
Theorem UnzipToDir_writes_outside_root :
  Clean "/tmp/foo" = "/tmp/foo" /\
  Clean (Join ["/tmp/foo"; "../foobar/evil"]) = "/tmp/foobar/evil" /\
  HasPrefix "/tmp/foobar/evil" "/tmp/foo" = true /\
  safeJoin "/tmp/foo" ["../foobar/evil"] = Ok "/tmp/foobar/evil" /\
  UnzipToDir ["../foobar/evil"] "/tmp/foo" = (["/tmp/foobar/evil"], None) /\
  insideRoot "/tmp/foo" "/tmp/foobar/evil" = false.
Proof. vm_compute. repeat split. Qed.

End PathFacts.

(** ** Regular expressions *)

Section RegexpFacts.
Import regexp.

Lemma append_nil_l (s : string) : "" +:+ s = s.
Proof. reflexivity. Qed.

Lemma append_cons c (s t : string) : String c s +:+ t = String c (s +:+ t).
Proof. reflexivity. Qed.

Lemma append_nil_r (s : string) : s +:+ "" = s.
Proof.
  induction s as [|c s IH]; [reflexivity|]. rewrite append_cons, IH.
  reflexivity.
Qed.

Lemma append_assoc (s t u : string) : (s +:+ t) +:+ u = s +:+ (t +:+ u).
Proof.
  induction s as [|c s IH]; [reflexivity|]. rewrite !append_cons, IH.
  reflexivity.
Qed.

Lemma append_eq_nil (s t : string) : s +:+ t = "" -> s = "" /\ t = "".
Proof.
  destruct s as [|c s]; intros H.
  - rewrite append_nil_l in H. subst t. split; reflexivity.
  - rewrite append_cons in H. discriminate H.
Qed.

Lemma nullable_matches r : nullable r = true <-> matches r "".
Proof.
  split.
  - induction r; cbn [nullable]; intros H; try discriminate H.
    + constructor.
    + apply orb_true_iff in H as [H|H]; [apply MAltL | apply MAltR]; auto.
    + apply andb_true_iff in H as [H1 H2].
      apply (MCat r1 r2 "" ""); auto.
    + constructor.
  - intros H. remember "" as s eqn:E. induction H; cbn [nullable];
      try discriminate E; try reflexivity.
    + rewrite (IHmatches E). reflexivity.
    + rewrite (IHmatches E). apply orb_true_r.
    + apply append_eq_nil in E as [-> ->].
      rewrite IHmatches1, IHmatches2; reflexivity.
Qed.

Lemma deriv_sound c r s : matches (deriv c r) s -> matches r (String c s).
Proof.
  revert s. induction r; intros s H; cbn [deriv] in H.
  - inversion H.
  - inversion H.
  - destruct (Ascii.eqb_spec c c0) as [->|_]; inversion H; subst.
    constructor.
  - destruct (Ascii.eqb_spec c newline) as [_|Hne]; inversion H; subst.
    constructor. exact Hne.
  - inversion H; subst; [apply MAltL | apply MAltR]; auto.
  - destruct (nullable r1) eqn:Hn.
    + inversion H as [| | |? ? ? Hl|? ? ? Hr| | |]; subst.
      * inversion Hl; subst. rewrite <- append_cons.
        constructor; auto.
      * apply (MCat r1 r2 "" (String c s)); [|auto].
        apply nullable_matches, Hn.
    + inversion H; subst. rewrite <- append_cons. constructor; auto.
  - inversion H; subst. rewrite <- append_cons. constructor; auto.
Qed.

Lemma deriv_complete c r s : matches r (String c s) -> matches (deriv c r) s.
Proof.
  intros H. remember (String c s) as cs eqn:E. revert c s E.
  induction H; intros c' s' E; cbn [deriv]; try discriminate E.
  - injection E as -> <-. rewrite Ascii.eqb_refl. constructor.
  - injection E as -> <-.
    destruct (Ascii.eqb_spec c' newline) as [->|_]; [contradiction|].
    constructor.
  - apply MAltL. auto.
  - apply MAltR. auto.
  - destruct s1 as [|c1 s1].
    + rewrite append_nil_l in E. subst s2.
      apply nullable_matches in H. rewrite H. apply MAltR. auto.
    + rewrite append_cons in E. injection E as -> <-.
      assert (Hcat : matches (Cat (deriv c' r1) r2) (s1 +:+ s2))
        by (constructor; auto).
      destruct (nullable r1); [apply MAltL|]; exact Hcat.
  - destruct s1 as [|c1 s1].
    + rewrite append_nil_l in E. exact (IHmatches2 _ _ E).
    + rewrite append_cons in E. injection E as -> <-.
      constructor; auto.
Qed.

(** The matcher decides the language of the expression. *)
Lemma MatchString_matches r s : MatchString r s = true <-> matches r s.
Proof.
  revert r. induction s as [|c s IH]; intros r; cbn [MatchString].
  - apply nullable_matches.
  - rewrite IH. split; [apply deriv_sound | apply deriv_complete].
Qed.

Lemma matches_Cat r1 r2 s :
  matches (Cat r1 r2) s <->
  exists s1 s2, s = s1 +:+ s2 /\ matches r1 s1 /\ matches r2 s2.
Proof.
  split.
  - intros H. inversion H; subst. eauto.
  - intros (s1 & s2 & -> & H1 & H2). constructor; assumption.
Qed.

Lemma matches_Char c s : matches (Char c) s <-> s = String c "".
Proof.
  split; [intros H; inversion H; reflexivity | intros ->; constructor].
Qed.

Lemma matches_Eps s : matches Eps s <-> s = "".
Proof.
  split; [intros H; inversion H; reflexivity | intros ->; constructor].
Qed.

End RegexpFacts.

(** ** Version requests *)

Section VersionFacts.
Import encoders.

Example cleanFormatName_samples :
  cleanFormatName "SPDX-JSON" = Some "spdxjson" /\
  cleanFormatName "spdx_json" = Some "spdxjson" /\
  cleanFormatName "CycloneDX-json" = Some "cyclonedxjson".
Proof. vm_compute. repeat split. Qed.

Example versionMatches_samples :
  versionMatches "2.3" "2.3" = Some true /\
  versionMatches "2.3" "2" = Some true /\
  versionMatches "2.3" "2.*" = Some true /\
  versionMatches "2.3" "*" = Some true /\
  versionMatches "2.3" "*.3" = Some true /\
  versionMatches "2.3" "" = Some true /\
  versionMatches "" "7" = Some true /\
  versionMatches "2.3" "3" = Some false /\
  versionMatches "2.3" "2.2" = Some false /\
  versionMatches "2.30" "2.3" = Some false /\
  versionMatches "12.3" "2" = Some false.
Proof. vm_compute. repeat split. Qed.

Import regexp.

Lemma noNewline_app s t :
  noNewline (s +:+ t) = noNewline s && noNewline t.
Proof.
  induction s as [|c s IH]; [reflexivity|].
  rewrite append_cons. cbn [noNewline]. rewrite IH, andb_assoc. reflexivity.
Qed.

Lemma matches_StarAny t : matches (Star AnyNotNL) t <-> noNewline t = true.
Proof.
  split.
  - intros H. remember (Star AnyNotNL) as r eqn:E.
    induction H; try discriminate E; [reflexivity|].
    injection E as ->. rewrite noNewline_app, (IHmatches2 eq_refl).
    inversion H as [| |c Hc| | | | |]; subst. cbn [noNewline].
    destruct (Ascii.eqb_spec c newline); [contradiction | reflexivity].
  - induction t as [|c t IH]; intros H; [constructor|].
    cbn [noNewline] in H. apply andb_true_iff in H as [Hc Ht].
    change (String c t) with (String c "" +:+ t).
    constructor; [|auto]. constructor.
    intros ->. rewrite Ascii.eqb_refl in Hc. discriminate Hc.
Qed.

Lemma matches_dottedParts rest : matches dottedParts rest <-> dottedTail rest.
Proof.
  unfold dottedParts, dottedTail. split.
  - intros H.
    remember (Star (Cat (Cat Eps (Char ".")) (Star AnyNotNL))) as r eqn:E.
    induction H; try discriminate E; [left; reflexivity|].
    injection E as ->. right.
    apply matches_Cat in H as (p & t1 & -> & Hp & Ht1).
    apply matches_Cat in Hp as (p0 & p1 & -> & Hp0 & Hp1).
    apply matches_Eps in Hp0. apply matches_Char in Hp1. subst.
    apply matches_StarAny in Ht1.
    rewrite append_nil_l, !append_cons, append_nil_l.
    exists (t1 +:+ s2). split; [reflexivity|].
    rewrite noNewline_app, Ht1.
    destruct (IHmatches2 eq_refl) as [->|(t2 & -> & Ht2)]; [reflexivity|].
    cbn [noNewline andb]. rewrite Ht2. reflexivity.
  - intros [->|(t & -> & Ht)]; [constructor|].
    replace (String "." t) with ((("" +:+ String "." "") +:+ t) +:+ "")
      by (rewrite append_nil_r; reflexivity).
    constructor; [|constructor].
    constructor; [|apply matches_StarAny, Ht].
    constructor; constructor.
Qed.

Lemma escapeRequest_dot m :
  escapeRequest (String "." m) = String "\" (String "." (escapeRequest m)).
Proof. reflexivity. Qed.

Lemma escapeRequest_star m :
  escapeRequest (String "*" m) = String "." (String "*" (escapeRequest m)).
Proof. reflexivity. Qed.

Lemma escapeRequest_plain c m :
  Ascii.eqb c "." = false -> Ascii.eqb c "*" = false ->
  escapeRequest (String c m) = String c (escapeRequest m).
Proof.
  intros Hdot Hstar. unfold escapeRequest. cbn [ReplaceAll].
  rewrite Hdot. cbn [ReplaceAll]. rewrite Hstar. reflexivity.
Qed.

Lemma parseFrom_suffix seq last :
  parseFrom "(\..*)*$" None seq last =
  Compiled (Cat (flush seq last) dottedParts).
Proof. reflexivity. Qed.

(** A character without a meaning in patterns passes every test of the
    parser. *)
Lemma parseFrom_plain c rest stack seq last :
  isMeta c = false -> (N_of_ascii c <? 128)%N = true ->
  parseFrom (String c rest) stack seq last =
  parseFrom rest stack (flush seq last) (Some (Char c)).
Proof.
  intros Hmeta Hascii. pose proof Hmeta as H.
  unfold isMeta in H. cbn [list_ascii_of_string existsb] in H.
  repeat (apply orb_false_iff in H as [? H]).
  cbn [parseFrom].
  repeat match goal with
         | E : Ascii.eqb c _ = false |- _ => rewrite E; clear E
         end.
  rewrite Hmeta, Hascii. reflexivity.
Qed.

Lemma plainRequest_cons c m :
  plainRequest (String c m) = true ->
  (c = "."%char \/ c = "*"%char \/
   (Ascii.eqb c "." = false /\ Ascii.eqb c "*" = false /\
    isMeta c = false /\ (N_of_ascii c <? 128)%N = true))
  /\ plainRequest m = true.
Proof.
  cbn [plainRequest]. intros H. apply andb_true_iff in H as [Hc Hm].
  split; [|exact Hm].
  destruct (Ascii.eqb_spec c ".") as [->|_]; [left; reflexivity|].
  destruct (Ascii.eqb_spec c "*") as [->|_]; [right; left; reflexivity|].
  right; right. cbn [orb] in Hc. apply andb_true_iff in Hc as [Hc Ha].
  apply negb_true_iff in Hc. auto.
Qed.

(** The pattern of a plain request compiles, and the expression matches
    what was matched before, then a string the glob matches, then a
    dotted tail. *)
Lemma parseFrom_escapeRequest m :
  plainRequest m = true ->
  forall seq last,
  exists re,
    parseFrom (escapeRequest m +:+ "(\..*)*$") None seq last = Compiled re /\
    forall v, matches re v <->
      exists v0 w rest,
        v = v0 +:+ (w +:+ rest) /\ matches (flush seq last) v0 /\
        globMatches m w /\ dottedTail rest.
Proof.
  induction m as [|c m IH]; intros Hplain seq last.
  - exists (Cat (flush seq last) dottedParts). split; [reflexivity|].
    intros v. rewrite matches_Cat. split.
    + intros (v0 & rest & -> & H0 & Hrest). exists v0, "", rest.
      split; [reflexivity|]. split; [exact H0|]. split; [constructor|].
      apply matches_dottedParts, Hrest.
    + intros (v0 & w & rest & -> & H0 & Hw & Hrest).
      inversion Hw; subst. exists v0, rest. split; [reflexivity|].
      split; [exact H0 | apply matches_dottedParts, Hrest].
  - apply plainRequest_cons in Hplain as [Hc Hm].
    destruct Hc as [->|[->|(Hdot & Hstar & Hmeta & Hascii)]].
    + rewrite escapeRequest_dot, !append_cons.
      destruct (IH Hm (flush seq last) (Some (Char "."))) as (re & Hre & Hlang).
      exists re. split; [exact Hre|]. intros v. rewrite Hlang. split.
      * intros (v0' & w & rest & -> & H0 & Hw & Hrest).
        cbn [flush] in H0.
        apply matches_Cat in H0 as (v0 & d & -> & H0 & Hd).
        apply matches_Char in Hd. subst d.
        exists v0, (String "." w), rest.
        split; [rewrite append_assoc; reflexivity|].
        split; [exact H0|]. split; [|exact Hrest].
        constructor; [discriminate | exact Hw].
      * intros (v0 & w' & rest & -> & H0 & Hw & Hrest).
        inversion Hw as [|? ? ? ? ? Heq|? ? w ? Hw' Heq]; subst.
        exists (v0 +:+ String "." ""), w, rest.
        split; [rewrite append_assoc; reflexivity|].
        split; [|split; assumption].
        cbn [flush]. constructor; [exact H0 | constructor].
    + rewrite escapeRequest_star, !append_cons.
      destruct (IH Hm (flush seq last) (Some (Star AnyNotNL)))
        as (re & Hre & Hlang).
      exists re. split; [exact Hre|]. intros v. rewrite Hlang. split.
      * intros (v0' & w & rest & -> & H0 & Hw & Hrest).
        cbn [flush] in H0.
        apply matches_Cat in H0 as (v0 & run & -> & H0 & Hrun).
        apply matches_StarAny in Hrun.
        exists v0, (run +:+ w), rest.
        split; [rewrite !append_assoc; reflexivity|].
        split; [exact H0|]. split; [|exact Hrest].
        constructor; assumption.
      * intros (v0 & w' & rest & -> & H0 & Hw & Hrest).
        inversion Hw as [|? run w Hrun Hw' Heq|? ? ? Hne]; subst;
          [|contradiction].
        exists (v0 +:+ run), w, rest.
        split; [rewrite !append_assoc; reflexivity|].
        split; [|split; assumption].
        cbn [flush]. constructor; [exact H0 | apply matches_StarAny, Hrun].
    + rewrite (escapeRequest_plain _ _ Hdot Hstar), append_cons.
      rewrite (parseFrom_plain _ _ _ _ _ Hmeta Hascii).
      destruct (IH Hm (flush seq last) (Some (Char c))) as (re & Hre & Hlang).
      exists re. split; [exact Hre|]. intros v. rewrite Hlang. split.
      * intros (v0' & w & rest & -> & H0 & Hw & Hrest).
        cbn [flush] in H0.
        apply matches_Cat in H0 as (v0 & d & -> & H0 & Hd).
        apply matches_Char in Hd. subst d.
        exists v0, (String c w), rest.
        split; [rewrite append_assoc; reflexivity|].
        split; [exact H0|]. split; [|exact Hrest].
        constructor; [|exact Hw].
        intros ->. rewrite Ascii.eqb_refl in Hstar. discriminate Hstar.
      * intros (v0 & w' & rest & -> & H0 & Hw & Hrest).
        inversion Hw as [|? ? ? ? ? Heq|? ? w ? Hw' Heq]; subst.
        { rewrite Ascii.eqb_refl in Hstar. discriminate Hstar. }
        exists (v0 +:+ String c ""), w, rest.
        split; [rewrite append_assoc; reflexivity|].
        split; [|split; assumption].
        cbn [flush]. constructor; [exact H0 | constructor].
Qed.

(** The version test as a glob: for a plain request, a version matches
    when the glob matches it, or matches it up to one of its dots; an
    empty request and an empty version match always. *)
Lemma versionMatches_glob version request :
  plainRequest request = true ->
  exists b,
    versionMatches version request = Some b /\
    (b = true <->
     version = "" \/ request = "" \/
     exists w rest, version = w +:+ rest /\ globMatches request w /\
                    dottedTail rest).
Proof.
  intros Hplain. unfold versionMatches, AnyVersion.
  destruct (String.eqb_spec version "") as [->|Hv].
  { exists true. split; [reflexivity|]. split; auto. }
  destruct (String.eqb_spec request "") as [->|Hr].
  { exists true. split; [reflexivity|]. split; auto. }
  cbn [orb]. fold (escapeRequest request).
  rewrite append_cons, append_nil_l. cbn [Compile].
  change (Ascii.eqb "^" "^") with true. cbv iota.
  destruct (parseFrom_escapeRequest request Hplain Eps None)
    as (re & -> & Hlang).
  exists (MatchString re version). split; [reflexivity|].
  rewrite MatchString_matches, Hlang. split.
  - intros (v0 & w & rest & -> & H0 & Hw & Hrest).
    cbn [flush] in H0. apply matches_Eps in H0. subst v0.
    right; right. exists w, rest. auto.
  - intros [E|[E|(w & rest & -> & Hw & Hrest)]]; try contradiction.
    exists "", w, rest. split; [reflexivity|].
    split; [constructor | auto].
Qed.

End VersionFacts.

(** ** The encoder collection *)

Section EncoderFacts.
Import regexp encoders.

Lemma moreRecent_idem mr f : moreRecent (moreRecent mr f) f = moreRecent mr f.
Proof.
  unfold moreRecent. destruct mr as [m|].
  - destruct (String.ltb (Version m) (Version f)) eqn:E.
    + rewrite string_ltb_irrefl. reflexivity.
    + rewrite E. reflexivity.
  - rewrite string_ltb_irrefl. reflexivity.
Qed.

(** ASCII text has a cleaned name. *)
Lemma cleanFormatName_ascii n :
  gostrings.isASCII n = true -> exists cleaned, cleanFormatName n = Some cleaned.
Proof.
  intros Hn. unfold cleanFormatName. rewrite Hn. eexists. reflexivity.
Qed.

Lemma cleaned_eqb n cleaned name :
  cleanFormatName n = Some cleaned ->
  String.eqb cleaned name = bool_decide (cleanFormatName n = Some name).
Proof.
  intros ->. destruct (String.eqb_spec cleaned name) as [->|Hne].
  - rewrite bool_decide_eq_true_2; reflexivity.
  - rewrite bool_decide_eq_false_2; [reflexivity|]. congruence.
Qed.

Lemma considerName_spec name version f mr n b :
  gostrings.isASCII n = true ->
  versionMatches (Version f) version = Some b ->
  considerName name version f mr n =
  Some (if bool_decide (cleanFormatName n = Some name) && b
        then moreRecent mr f else mr).
Proof.
  intros Hn Hv. destruct (cleanFormatName_ascii n Hn) as [cleaned Hc].
  unfold considerName, moreRecent.
  rewrite <- (cleaned_eqb n cleaned name Hc), Hc, Hv.
  destruct (String.eqb cleaned name); [|reflexivity].
  destruct b; [|reflexivity]. cbn [andb].
  destruct mr as [m|]; [|reflexivity].
  destruct (String.ltb (Version m) (Version f)); reflexivity.
Qed.

(** The inner loop: once a name of the encoder matches, the encoder is
    weighed against the one kept so far; further matching names change
    nothing. *)
Lemma considerNames_spec name version f mr names b :
  Forall (fun n => gostrings.isASCII n = true) names ->
  versionMatches (Version f) version = Some b ->
  considerNames name version f mr names =
  Some (if existsb (fun n => bool_decide (cleanFormatName n = Some name))
             names && b
        then moreRecent mr f else mr).
Proof.
  intros Hnames Hv. revert mr.
  induction Hnames as [|n names Hn _ IH]; intros mr.
  - reflexivity.
  - cbn [considerNames existsb].
    rewrite (considerName_spec _ _ _ _ _ _ Hn Hv), IH.
    destruct (bool_decide (cleanFormatName n = Some name)), b;
      cbn [orb andb]; rewrite ?andb_false_r, ?andb_true_r; try reflexivity.
    rewrite moreRecent_idem.
    destruct (existsb _ names); reflexivity.
Qed.

(** Without a matching name [versionMatches] is not called. *)
Lemma considerNames_no_name name version f mr names :
  Forall (fun n => gostrings.isASCII n = true) names ->
  existsb (fun n => bool_decide (cleanFormatName n = Some name)) names
    = false ->
  considerNames name version f mr names = Some mr.
Proof.
  intros Hnames. revert mr.
  induction Hnames as [|n names Hn _ IH]; intros mr; [reflexivity|].
  cbn [existsb considerNames]. intros H. apply orb_false_iff in H as [Hne H].
  destruct (cleanFormatName_ascii n Hn) as [cleaned Hc].
  unfold considerName. rewrite <- (cleaned_eqb n cleaned name Hc) in Hne.
  rewrite Hc, Hne. apply IH, H.
Qed.

(** The encoder kept after the loop over [fs]: a matching encoder of
    [fs] or the one kept before, and no matching encoder of [fs] has a
    greater version string. *)
Lemma considerEncoders_spec name cleaned version fs mr :
  cleanFormatName name = Some cleaned ->
  Forall (fun f => Forall (fun n => gostrings.isASCII n = true)
                     (ID f :: Aliases f)) fs ->
  (forall f, f ∈ fs -> nameMatches name f = true ->
             versionMatches (Version f) version <> None) ->
  exists r,
    considerEncoders cleaned version mr fs = Some r /\
    (r = mr \/ exists f, r = Some f /\ f ∈ fs /\
                         matchesRequest name version f = true) /\
    (forall m, mr = Some m -> exists f,
         r = Some f /\ String.ltb (Version f) (Version m) = false) /\
    (forall g, g ∈ fs -> matchesRequest name version g = true ->
       exists f, r = Some f /\ String.ltb (Version f) (Version g) = false).
Proof.
  intros Hclean Hascii. revert mr.
  induction Hascii as [|f fs Hf _ IH]; intros mr Htotal.
  - exists mr. split; [reflexivity|]. split; [left; reflexivity|]. split.
    + intros m ->. exists m. split; [reflexivity | apply string_ltb_irrefl].
    + intros g Hg. apply elem_of_nil in Hg. contradiction.
  - cbn [considerEncoders].
    assert (Hstep : exists mr',
      considerNames cleaned version f mr (ID f :: Aliases f) = Some mr' /\
      mr' = (if matchesRequest name version f then moreRecent mr f else mr)).
    { pose proof (Htotal f ltac:(left)) as Htotal_f.
      unfold matchesRequest, nameMatches in *. rewrite Hclean in *.
      destruct (existsb _ (ID f :: Aliases f)) eqn:Hname.
      - destruct (versionMatches (Version f) version) as [b|] eqn:Hv.
        + eexists. split; [apply (considerNames_spec _ _ _ _ _ _ Hf Hv)|].
          rewrite Hname. destruct b; reflexivity.
        + exfalso. apply Htotal_f; reflexivity.
      - eexists.
        split; [apply (considerNames_no_name _ _ _ _ _ Hf Hname)|].
        reflexivity. }
    destruct Hstep as (mr' & -> & Hmr').
    destruct (IH mr') as (r & Hr & Horigin & Hkept & Hbest).
    { intros g Hg. apply Htotal. right. exact Hg. }
    exists r. split; [exact Hr|].
    assert (Hmono : forall m, mr = Some m -> exists m',
               mr' = Some m' /\ String.ltb (Version m') (Version m) = false).
    { intros m ->. subst mr'.
      destruct (matchesRequest name version f); cbn [moreRecent].
      - destruct (String.ltb (Version m) (Version f)) eqn:E.
        + exists f. split; [reflexivity|].
          destruct (String.ltb (Version f) (Version m)) eqn:E';
            [|reflexivity].
          pose proof (string_ltb_trans _ _ _ E E') as Hirr.
          rewrite string_ltb_irrefl in Hirr. discriminate Hirr.
        + exists m. split; [reflexivity | apply string_ltb_irrefl].
      - exists m. split; [reflexivity | apply string_ltb_irrefl]. }
    assert (Hle : forall (x y z : string),
               String.ltb x y = false -> String.ltb y z = false ->
               String.ltb x z = false).
    { intros x y z Hxy Hyz.
      destruct (String.ltb x z) eqn:Hxz; [|reflexivity].
      destruct (String.ltb y x) eqn:Hyx.
      - rewrite (string_ltb_trans _ _ _ Hyx Hxz) in Hyz. discriminate Hyz.
      - rewrite (string_ltb_total _ _ Hxy Hyx) in Hxz. congruence. }
    split; [|split].
    + destruct Horigin as [->|(g & -> & Hg & Hm)].
      * subst mr'. destruct (matchesRequest name version f) eqn:Hfm;
          [|left; reflexivity].
        unfold moreRecent. destruct mr as [m|].
        -- destruct (String.ltb (Version m) (Version f));
             [|left; reflexivity].
           right. exists f. split; [reflexivity|]. split; [left|exact Hfm].
        -- right. exists f. split; [reflexivity|]. split; [left|exact Hfm].
      * right. exists g. split; [reflexivity|]. split; [right; exact Hg|].
        exact Hm.
    + intros m Hm. destruct (Hmono m Hm) as (m' & Hm' & Hlt).
      destruct (Hkept m' Hm') as (x & -> & Hx).
      exists x. split; [reflexivity|]. eapply Hle; eassumption.
    + intros g Hg Hgm. apply elem_of_cons in Hg as [->|Hg].
      * assert (Hf' : exists m', mr' = Some m' /\
                   String.ltb (Version m') (Version f) = false).
        { subst mr'. rewrite Hgm. unfold moreRecent. destruct mr as [m|].
          - destruct (String.ltb (Version m) (Version f)) eqn:E.
            + exists f. split; [reflexivity | apply string_ltb_irrefl].
            + exists m. split; [reflexivity | exact E].
          - exists f. split; [reflexivity | apply string_ltb_irrefl]. }
        destruct Hf' as (m' & Hm' & Hlt).
        destruct (Hkept m' Hm') as (x & -> & Hx).
        exists x. split; [reflexivity|]. eapply Hle; eassumption.
      * apply Hbest; assumption.
Qed.

(** What [Get] returns for ASCII names: an encoder of the collection
    that matches the request by name and version and whose version
    string no matching encoder exceeds in the order of Go's string
    comparison; nil exactly when no encoder matches. *)
Lemma Get_greatest_version_string e name version :
  gostrings.isASCII name = true ->
  asciiNames e ->
  (forall f, f ∈ encoders e -> nameMatches name f = true ->
             versionMatches (Version f) version <> None) ->
  exists r,
    Get e name version = Some r /\
    (forall f, r = Some f ->
       f ∈ encoders e /\ matchesRequest name version f = true) /\
    (forall g, g ∈ encoders e -> matchesRequest name version g = true ->
       exists f, r = Some f /\ String.ltb (Version f) (Version g) = false).
Proof.
  intros Hname Hascii Htotal. unfold Get.
  destruct (cleanFormatName_ascii name Hname) as [cleaned Hclean].
  rewrite Hclean.
  destruct (considerEncoders_spec name cleaned version (encoders e) None
              Hclean Hascii Htotal)
    as (r & Hr & Horigin & _ & Hbest).
  exists r. split; [exact Hr|]. split; [|exact Hbest].
  intros f ->. destruct Horigin as [Hnone|(g & Hg & Hin & Hm)].
  - discriminate Hnone.
  - injection Hg as ->. split; assumption.
Qed.


(** C4 at its failing input. A collection holds the encoders of
    versions 1.9 and 1.10 of one format; both match the request for any
    version; 1.10 is the higher version, and [Get] returns 1.9, whose
    version string is the greater one in Go's string comparison. *)
Theorem Get_returns_lower_version :
  let e := {| encoders := [cyclonedxJSON "1.9"; cyclonedxJSON "1.10"] |} in
  matchesRequest "cyclonedx-json" "" (cyclonedxJSON "1.9") = true /\
  matchesRequest "cyclonedx-json" "" (cyclonedxJSON "1.10") = true /\
  versionBelow "1.9" "1.10" = true /\
  String.ltb "1.10" "1.9" = true /\
  Get e "cyclonedx-json" "" = Some (Some (cyclonedxJSON "1.9")) /\
  Get e "CDX" "1" = Some (Some (cyclonedxJSON "1.9")) /\
  Get e "cdx" "1.*" = Some (Some (cyclonedxJSON "1.9")) /\
  Get {| encoders := [cyclonedxJSON "1.10"; cyclonedxJSON "1.9"] |}
    "cyclonedx-json" "" = Some (Some (cyclonedxJSON "1.9")).
Proof. vm_compute. repeat split. Qed.

End EncoderFacts.

(** ** ZIP archives with prepended bytes *)

Section ZipFacts.
Import bytes ziparchive.

Lemma nth_skipn_add {A} (l : list A) (n i : nat) (d : A) :
  nth i (skipn n l) d = nth (n + i) l d.
Proof.
  revert l. induction n as [|n IH]; intros l; [reflexivity|].
  destruct l as [|x l]; [destruct i; reflexivity|]. apply IH.
Qed.

Lemma skipn_app_add {A} (l1 l2 : list A) (n : nat) :
  skipn (length l1 + n) (l1 ++ l2) = skipn n l2.
Proof. induction l1 as [|x l1 IH]; [reflexivity | exact IH]. Qed.

Lemma byteAt_skipn (b : list byte) (n i : nat) :
  byteAt (skipn n b) i = byteAt b (n + i).
Proof. unfold byteAt. rewrite nth_skipn_add. reflexivity. Qed.

Lemma byteAt_range b i : 0 <= byteAt b i < 256.
Proof. apply byteZ_range. Qed.

(** Little-endian decoding of the little-endian bytes. *)
Lemma le16_digits z :
  Z.lor (byteZ (byte_of_Z z)) (Z.shiftl (byteZ (byte_of_Z (z / 2 ^ 8))) 8)
  = z mod 2 ^ 16.
Proof.
  rewrite !byteZ_of_Z.
  rewrite lor_shiftl_add by (try apply Z.mod_pos_bound; lia).
  change (2 ^ 8) with 256. change (2 ^ 16) with 65536.
  Z.div_mod_to_equations. lia.
Qed.

Lemma le32_digits z :
  Z.lor (Z.lor (Z.lor (byteZ (byte_of_Z z))
                  (Z.shiftl (byteZ (byte_of_Z (z / 2 ^ 8))) 8))
           (Z.shiftl (byteZ (byte_of_Z (z / 2 ^ 16))) 16))
    (Z.shiftl (byteZ (byte_of_Z (z / 2 ^ 24))) 24)
  = z mod 2 ^ 32.
Proof.
  rewrite !byteZ_of_Z.
  assert (Hb : forall x, 0 <= x mod 256 < 256)
    by (intros; apply Z.mod_pos_bound; lia).
  pose proof (Hb z). pose proof (Hb (z / 2 ^ 8)).
  pose proof (Hb (z / 2 ^ 16)). pose proof (Hb (z / 2 ^ 24)).
  rewrite (lor_shiftl_add (z mod 256)) by lia.
  rewrite (lor_shiftl_add _ _ 16) by lia.
  rewrite (lor_shiftl_add _ _ 24) by lia.
  change (2 ^ 8) with 256 in *. change (2 ^ 16) with 65536 in *.
  change (2 ^ 24) with 16777216 in *. change (2 ^ 32) with 4294967296.
  Z.div_mod_to_equations. lia.
Qed.

Lemma recordAt_skipn (b : list byte) (off i : nat) :
  (off <= length b)%nat ->
  recordAt (skipn off b) i = recordAt b (off + i).
Proof.
  intros Hoff. unfold recordAt, signatureAt, commentFits.
  rewrite !byteAt_skipn, length_skipn, !Nat.add_assoc.
  f_equal.
  destruct (Z.leb_spec
    (Z.lor (byteAt b (off + i + 20)) (Z.shiftl (byteAt b (off + i + 21)) 8)
     + directoryEndLen + Z.of_nat i) (Z.of_nat (length b - off)));
  destruct (Z.leb_spec
    (Z.lor (byteAt b (off + i + 20)) (Z.shiftl (byteAt b (off + i + 21)) 8)
     + directoryEndLen + Z.of_nat (off + i)) (Z.of_nat (length b)));
  try reflexivity; lia.
Qed.

Lemma commentLength_nonneg b i :
  0 <= Z.lor (byteAt b (i + 20)) (Z.shiftl (byteAt b (i + 21)) 8).
Proof.
  pose proof (byteAt_range b (i + 20)). pose proof (byteAt_range b (i + 21)).
  apply Z.lor_nonneg. split; [lia|]. apply Z.shiftl_nonneg. lia.
Qed.

Lemma recordAt_in_block b e :
  recordAt b e = true -> (e + 22 <= length b)%nat.
Proof.
  unfold recordAt, commentFits, directoryEndLen. intros H.
  apply andb_true_iff in H as [_ H]. apply Z.leb_le in H.
  pose proof (commentLength_nonneg b e). lia.
Qed.

(** The downward loop stops at the highest index that holds a record. *)
Lemma findSignatureDown_found b i e :
  (e <= i)%nat -> recordAt b e = true ->
  (forall j, (e < j <= i)%nat -> recordAt b j = false) ->
  findSignatureDown b i = Z.of_nat e.
Proof.
  intros Hle He. induction i as [|i IH]; intros Hlast.
  - assert (e = 0%nat) by lia. subst e. cbn [findSignatureDown].
    unfold recordAt in He. rewrite He. reflexivity.
  - cbn [findSignatureDown]. destruct (Nat.eq_dec e (S i)) as [->|Hne].
    + unfold recordAt in He. rewrite He. reflexivity.
    + pose proof (Hlast (S i) ltac:(lia)) as Hsi. unfold recordAt in Hsi.
      rewrite Hsi. apply IH; [lia|]. intros j Hj. apply Hlast. lia.
Qed.

Lemma findSignatureDown_none b i :
  (forall j, (j <= i)%nat -> recordAt b j = false) ->
  findSignatureDown b i = -1.
Proof.
  induction i as [|i IH]; intros Hnone; cbn [findSignatureDown].
  - pose proof (Hnone 0%nat ltac:(lia)) as H0. unfold recordAt in H0.
    rewrite H0. reflexivity.
  - pose proof (Hnone (S i) ltac:(lia)) as Hsi. unfold recordAt in Hsi.
    rewrite Hsi. apply IH. intros j Hj. apply Hnone. lia.
Qed.

Lemma findSignatureInBlock_found b e :
  recordAt b e = true ->
  (forall j, (e < j)%nat -> (j + 22 <= length b)%nat -> recordAt b j = false) ->
  findSignatureInBlock b = Z.of_nat e.
Proof.
  intros He Hlast. pose proof (recordAt_in_block b e He) as Hin.
  unfold findSignatureInBlock, directoryEndLen.
  destruct (Z.ltb_spec (Z.of_nat (length b) - 22) 0) as [Hlt|_]; [lia|].
  apply findSignatureDown_found; [lia | exact He |].
  intros j Hj. apply Hlast; lia.
Qed.

Lemma findSignatureInBlock_none b :
  (forall j, (j + 22 <= length b)%nat -> recordAt b j = false) ->
  findSignatureInBlock b = -1.
Proof.
  intros Hnone. unfold findSignatureInBlock, directoryEndLen.
  destruct (Z.ltb_spec (Z.of_nat (length b) - 22) 0) as [Hlt|Hge];
    [reflexivity|].
  apply findSignatureDown_none. intros j Hj. apply Hnone. lia.
Qed.

(** Reading the last [bLen] bytes of a file of [size] bytes. *)
Lemma ReadAt_tail (file : list byte) (bLen : Z) :
  0 <= bLen <= Z.of_nat (length file) ->
  io.ReadAt file (Z.to_nat bLen) (Z.of_nat (length file) - bLen) =
  (skipn (Z.to_nat (Z.of_nat (length file) - bLen)) file, Z.to_nat bLen, None).
Proof.
  intros Hb. unfold io.ReadAt.
  destruct (Z.ltb_spec (Z.of_nat (length file) - bLen) 0) as [Hlt|_]; [lia|].
  assert (Hlen : length (skipn (Z.to_nat (Z.of_nat (length file) - bLen)) file)
                 = Z.to_nat bLen) by (rewrite length_skipn; lia).
  rewrite firstn_all2 by lia.
  rewrite Hlen, Nat.sub_diag, Nat.ltb_irrefl. cbn [make repeat].
  rewrite app_nil_r. reflexivity.
Qed.

(** One round of the scan on a file whose last record starts at [e]:
    the record is found when it lies in the block, and the round finds
    nothing otherwise. *)
Lemma scanBlock_last_record (file : list byte) (i : nat) (bLen : Z) e :
  0 <= bLen ->
  recordAt file e = true ->
  (forall j, (e < j)%nat -> (j + 22 <= length file)%nat ->
             recordAt file j = false) ->
  let size := Z.of_nat (length file) in
  let bLen' := if bLen >? size then size else bLen in
  scanBlock file size i bLen =
  if size - bLen' <=? Z.of_nat e
  then inl (Ok (skipn e file, Z.of_nat e))
  else if (i =? 1)%nat || (bLen' =? size) then inl (Err ErrFormat)
       else inr tt.
Proof.
  intros Hpos He Hlast size bLen'. unfold scanBlock. fold size. fold bLen'.
  assert (Hb : 0 <= bLen' <= size).
  { subst bLen'. destruct (Z.gtb_spec bLen size); subst size; lia. }
  destruct (Z.ltb_spec bLen' 0) as [Hneg|_]; [lia|].
  subst size. rewrite ReadAt_tail by exact Hb.
  set (off := Z.to_nat (Z.of_nat (length file) - bLen')).
  assert (Hoff : (off <= length file)%nat) by (subst off; lia).
  destruct (Z.leb_spec (Z.of_nat (length file) - bLen') (Z.of_nat e))
    as [Hin|Hout].
  - assert (Hfound : findSignatureInBlock (skipn off file)
                     = Z.of_nat (e - off)).
    { apply findSignatureInBlock_found.
      - rewrite recordAt_skipn by exact Hoff.
        replace (off + (e - off))%nat with e by (subst off; lia). exact He.
      - intros j Hj Hfit. rewrite recordAt_skipn by exact Hoff.
        rewrite length_skipn in Hfit. apply Hlast; subst off; lia. }
    rewrite Hfound.
    destruct (Z.geb_spec (Z.of_nat (e - off)) 0) as [_|Hlt]; [|lia].
    rewrite Nat2Z.id, skipn_skipn.
    replace (e - off + off)%nat with e by (subst off; lia).
    replace (Z.of_nat (length file) - bLen' + Z.of_nat (e - off))
      with (Z.of_nat e) by (subst off; lia).
    reflexivity.
  - assert (Hnone : findSignatureInBlock (skipn off file) = -1).
    { apply findSignatureInBlock_none. intros j Hfit.
      rewrite recordAt_skipn by exact Hoff.
      rewrite length_skipn in Hfit. apply Hlast; subst off; lia. }
    rewrite Hnone. reflexivity.
Qed.

(** The two rounds find the last record of the file when it starts in
    the last 65 KiB. *)
Lemma findDirectoryEnd_last_record (file : list byte) e :
  recordAt file e = true ->
  (forall j, (e < j)%nat -> (j + 22 <= length file)%nat ->
             recordAt file j = false) ->
  Z.of_nat (length file) - Z.of_nat e <= 65 * 1024 ->
  findDirectoryEnd file (Z.of_nat (length file)) =
  Ok (skipn e file, Z.of_nat e).
Proof.
  intros He Hlast Hwin. unfold findDirectoryEnd.
  rewrite (scanBlock_last_record file 0 1024 e ltac:(lia) He Hlast).
  rewrite (scanBlock_last_record file 1 (65 * 1024) e ltac:(lia) He Hlast).
  cbv zeta.
  destruct (Z.gtb_spec 1024 (Z.of_nat (length file))) as [Hsmall|Hbig].
  - rewrite Z.sub_diag.
    destruct (Z.leb_spec 0 (Z.of_nat e)); [reflexivity | lia].
  - destruct (Z.leb_spec (Z.of_nat (length file) - 1024) (Z.of_nat e));
      [reflexivity|].
    destruct (Z.eqb_spec 1024 (Z.of_nat (length file))) as [Heq|_]; [lia|].
    cbn [Nat.eqb orb].
    destruct (Z.gtb_spec (65 * 1024) (Z.of_nat (length file))).
    + rewrite Z.sub_diag.
      destruct (Z.leb_spec 0 (Z.of_nat e)); [reflexivity | lia].
    + destruct (Z.leb_spec (Z.of_nat (length file) - 65 * 1024)
                  (Z.of_nat e)); [reflexivity | lia].
Qed.

(** The start offset of a file whose last end record starts at [e] and
    holds no ZIP64 sentinel: directoryEndOffset - directorySize -
    directoryOffset in 64-bit arithmetic, unless the directory offset
    points outside the file. *)
Lemma findArchiveStartOffset_formula (file : list byte) e :
  recordAt file e = true ->
  (forall j, (e < j)%nat -> (j + 22 <= length file)%nat ->
             recordAt file j = false) ->
  Z.of_nat (length file) - Z.of_nat e <= 65 * 1024 ->
  maybeZip64 (readDirectoryEndRecord (skipn e file)) = false ->
  findArchiveStartOffset file (Z.of_nat (length file)) =
  let d := readDirectoryEndRecord (skipn e file) in
  if (to_int64 (directoryOffset d) <? 0)
     || (to_int64 (directoryOffset d) >=? Z.of_nat (length file))
  then Err ErrFormat
  else Ok (to_uint64 (to_uint64 (Z.of_nat e) - directorySize d
                      - directoryOffset d)).
Proof.
  intros He Hlast Hwin Hclassic. unfold findArchiveStartOffset.
  rewrite (findDirectoryEnd_last_record file e He Hlast Hwin), Hclassic.
  reflexivity.
Qed.

(** With a ZIP64 sentinel the ZIP64 record is read at the offset [p]
    that the locator in front of the end record gives, and [p] takes the
    place of directoryEndOffset. *)
Lemma findArchiveStartOffset_zip64_formula (file : list byte) e p d64 :
  recordAt file e = true ->
  (forall j, (e < j)%nat -> (j + 22 <= length file)%nat ->
             recordAt file j = false) ->
  Z.of_nat (length file) - Z.of_nat e <= 65 * 1024 ->
  maybeZip64 (readDirectoryEndRecord (skipn e file)) = true ->
  findDirectory64End file (Z.of_nat e) = (p, None) ->
  0 <= p ->
  readDirectory64End file p (readDirectoryEndRecord (skipn e file))
    = Ok d64 ->
  findArchiveStartOffset file (Z.of_nat (length file)) =
  if (to_int64 (directoryOffset d64) <? 0)
     || (to_int64 (directoryOffset d64) >=? Z.of_nat (length file))
  then Err ErrFormat
  else Ok (to_uint64 (to_uint64 p - directorySize d64 - directoryOffset d64)).
Proof.
  intros He Hlast Hwin Hzip64 Hloc Hp Hread. unfold findArchiveStartOffset.
  rewrite (findDirectoryEnd_last_record file e He Hlast Hwin), Hzip64.
  unfold substituteZip64. rewrite Hloc.
  destruct (Z.geb_spec p 0) as [_|Hneg]; [|lia].
  rewrite Hread. reflexivity.
Qed.

Lemma readDirectoryEndRecord_endRecord records dirSize dirOffset n rest :
  readDirectoryEndRecord (endRecord records dirSize dirOffset n ++ rest) =
  {| diskNbr := 0; dirDiskNbr := 0;
     dirRecordsThisDisk := records mod 2 ^ 16;
     directoryRecords := records mod 2 ^ 16;
     directorySize := dirSize mod 2 ^ 32;
     directoryOffset := dirOffset mod 2 ^ 32 |}.
Proof.
  unfold readDirectoryEndRecord, endRecord, le16, le32, uint16, uint32.
  cbn [app skipn]. unfold LittleEndian_Uint16, LittleEndian_Uint32, byteAt.
  cbn [nth]. rewrite !le32_digits, !le16_digits. reflexivity.
Qed.

Lemma recordAt_endRecord records dirSize dirOffset (comment : list byte) :
  Z.of_nat (length comment) < 2 ^ 16 ->
  recordAt (endRecord records dirSize dirOffset (Z.of_nat (length comment))
            ++ comment) 0 = true.
Proof.
  intros Hn. unfold recordAt, signatureAt, commentFits, endRecord, le16, le32.
  cbn [app]. unfold byteAt. cbn [nth Nat.add length].
  rewrite le16_digits, Z.mod_small by lia.
  rewrite !Z.eqb_refl. cbn [andb]. apply Z.leb_le.
  unfold directoryEndLen. lia.
Qed.

Lemma length_endRecord records dirSize dirOffset n :
  length (endRecord records dirSize dirOffset n) = 22%nat.
Proof. reflexivity. Qed.

(** X29. [findArchiveStartOffset] finds the last
    end-of-central-directory record in the last 1 KiB or 65 KiB of the
    file and returns directoryEndOffset - directorySize -
    directoryOffset.  For an archive whose end record holds no sentinel
    value and is the last such record of the file (the local entries
    [body], the central directory [cd], the end record and the comment)
    behind any number of prepended bytes, 0, 100, 1024 and 65537 among
    them, this is the number of prepended bytes, and [OpenZip] hands
    exactly the archive to [zip.NewReader]: it opens every such archive
    that [zip.NewReader] accepts. *)
Theorem OpenZip_prepended_bytes
    (Reader : Type) (zip_NewReader : list byte -> Z -> option Reader)
    (fs : string -> option (list byte)) (path : string)
    (prefix body cd comment : list byte) (records : Z) :
  let archive :=
    body ++ cd ++
    endRecord records (Z.of_nat (length cd)) (Z.of_nat (length body))
      (Z.of_nat (length comment)) ++ comment in
  let file := prefix ++ archive in
  let e := (length prefix + length body + length cd)%nat in
  fs path = Some file ->
  0 <= records < 0xffff ->
  Z.of_nat (length cd) < 2 ^ 32 ->
  Z.of_nat (length cd) <> 0xffff ->
  Z.of_nat (length body) < 0xffffffff ->
  Z.of_nat (length comment) < 2 ^ 16 ->
  Z.of_nat (length file) < 2 ^ 63 ->
  (forall j, (e < j)%nat -> (j + 22 <= length file)%nat ->
             recordAt file j = false) ->
  findArchiveStartOffset file (Z.of_nat (length file))
    = Ok (Z.of_nat (length prefix)) /\
  OpenZip Reader zip_NewReader fs path =
    match zip_NewReader archive (Z.of_nat (length archive)) with
    | Some r => Ok r
    | None => Err ErrUnableToOpen
    end.
Proof.
  intros archive file e Hfs Hrec Hcd Hcd' Hbody Hcomment Hsize Hlast.
  assert (Hskip : skipn e file =
            endRecord records (Z.of_nat (length cd)) (Z.of_nat (length body))
              (Z.of_nat (length comment)) ++ comment).
  { subst file archive e. rewrite <- !Nat.add_assoc, !skipn_app_add.
    replace (length cd) with (length cd + 0)%nat by lia.
    rewrite skipn_app_add. reflexivity. }
  assert (Hlen : length file = (e + 22 + length comment)%nat).
  { subst file archive e. rewrite !length_app, length_endRecord. lia. }
  assert (He : recordAt file e = true).
  { replace e with (e + 0)%nat by lia.
    rewrite <- recordAt_skipn by lia. rewrite Hskip.
    apply recordAt_endRecord, Hcomment. }
  assert (Hstart : findArchiveStartOffset file (Z.of_nat (length file))
                   = Ok (Z.of_nat (length prefix))).
  { unfold findArchiveStartOffset.
    rewrite (findDirectoryEnd_last_record file e He Hlast) by lia.
    rewrite Hskip, readDirectoryEndRecord_endRecord.
    unfold maybeZip64. cbn [directoryRecords directorySize directoryOffset].
    rewrite !Z.mod_small by lia.
    destruct (Z.eqb_spec records 0xffff) as [E|_]; [lia|].
    destruct (Z.eqb_spec (Z.of_nat (length cd)) 0xffff) as [E|_]; [lia|].
    destruct (Z.eqb_spec (Z.of_nat (length body)) 0xffffffff) as [E|_];
      [lia|].
    cbn [orb directorySize directoryOffset].
    unfold to_int64, to_uint64.
    rewrite (Z.mod_small (Z.of_nat (length body))) by lia.
    destruct (Z.ltb_spec (Z.of_nat (length body)) (2 ^ 63)) as [_|E]; [|lia].
    destruct (Z.ltb_spec (Z.of_nat (length body)) 0) as [E|_]; [lia|].
    destruct (Z.geb_spec (Z.of_nat (length body)) (Z.of_nat (length file)))
      as [E|_]; [lia|].
    cbn [orb]. f_equal.
    rewrite (Z.mod_small (Z.of_nat e)) by lia.
    rewrite Z.mod_small by (subst e; lia). subst e. lia. }
  split; [exact Hstart|].
  unfold OpenZip. rewrite Hfs, Hstart.
  assert (Hint : to_int64 (Z.of_nat (length prefix))
                 = Z.of_nat (length prefix)).
  { unfold to_int64. rewrite Z.mod_small by (subst e; lia).
    destruct (Z.ltb_spec (Z.of_nat (length prefix)) (2 ^ 63)); [reflexivity|].
    subst e. lia. }
  rewrite Hint.
  assert (Hsec : sectionBytes file (Z.of_nat (length prefix))
                   (Z.of_nat (length file) - Z.of_nat (length prefix))
                 = archive).
  { unfold sectionBytes.
    destruct (Z.ltb_spec (Z.of_nat (length prefix)) 0) as [E|_]; [lia|].
    destruct (Z.ltb_spec (Z.of_nat (length file)
                          - Z.of_nat (length prefix)) 0) as [E|_];
      [subst e; lia|].
    cbn [orb]. rewrite Nat2Z.id. subst file.
    rewrite (drop_app_length prefix archive).
    apply firstn_all2. rewrite length_app. lia. }
  rewrite Hsec.
  replace (Z.of_nat (length file) - Z.of_nat (length prefix))
    with (Z.of_nat (length archive))
    by (subst file; rewrite length_app; lia).
  reflexivity.
Qed.

Lemma OpenZip_prepended_bytes_witness :
  findArchiveStartOffset (prepended 100 ++ sampleArchive [])
    (Z.of_nat (length (prepended 100 ++ sampleArchive []))) = Ok 100 /\
  OpenZip unit (fun _ _ => Some tt)
    (fun _ => Some (prepended 100 ++ sampleArchive [])) "app.jar" = Ok tt.
Proof.
  apply (OpenZip_prepended_bytes unit (fun _ _ => Some tt)
           (fun _ => Some (prepended 100 ++ sampleArchive [])) "app.jar"
           (prepended 100) sampleBody sampleDirectory [] 1).
  - reflexivity.
  - lia.
  - vm_compute. reflexivity.
  - vm_compute. discriminate.
  - vm_compute. reflexivity.
  - vm_compute. reflexivity.
  - vm_compute. reflexivity.
  - intros j Hj Hfit. exfalso. revert Hj Hfit.
    change (length (prepended 100 ++ sampleBody ++ sampleDirectory ++
                    endRecord 1 (Z.of_nat (length sampleDirectory))
                      (Z.of_nat (length sampleBody))
                      (Z.of_nat (length (A:=byte) [])) ++ []))
      with 200%nat.
    change (length (prepended 100) + length sampleBody
            + length sampleDirectory)%nat with 178%nat.
    lia.
Defined.

(** The start offset for 0, 100, 1024 and 65537 prepended bytes, and
    for a comment of 2000 bytes, which only the second scan reaches. *)
Example findArchiveStartOffset_samples :
  List.map
    (fun n => findArchiveStartOffset (prepended n ++ sampleArchive [])
                (Z.of_nat (length (prepended n ++ sampleArchive []))))
    [0; 100; 1024; 65537]
  = [Ok 0; Ok 100; Ok 1024; Ok 65537] /\
  findArchiveStartOffset (prepended 100 ++ sampleArchive (prepended 2000))
    (Z.of_nat (length (prepended 100 ++ sampleArchive (prepended 2000))))
  = Ok 100.
Proof. vm_compute. split; reflexivity. Qed.

(** C6 at its failing input.  The ZIP64 sample archive is located when
    nothing is prepended: the values of its ZIP64 record are
    substituted, the start offset is 0 and [OpenZip] hands the whole
    file to [zip.NewReader].  Behind 100 prepended bytes the offset
    stored in its ZIP64 locator, which counts from the start of the
    archive, is used as an offset into the file: the ZIP64 record is
    read 100 bytes before its place, the signature is not there, and
    [OpenZip] fails whatever [zip.NewReader] would say.  The sample
    archive without ZIP64 records behind the same 100 bytes is
    located. *)
Lemma OpenZip_zip64_prepended_fails :
  findArchiveStartOffset sampleArchive64
    (Z.of_nat (length sampleArchive64)) = Ok 0 /\
  findArchiveStartOffset (prepended 100 ++ sampleArchive [])
    (Z.of_nat (length (prepended 100 ++ sampleArchive []))) = Ok 100 /\
  findArchiveStartOffset (prepended 100 ++ sampleArchive64)
    (Z.of_nat (length (prepended 100 ++ sampleArchive64)))
    = Err ErrDirectory64End /\
  forall (Reader : Type) (zip_NewReader : list byte -> Z -> option Reader),
    OpenZip Reader zip_NewReader (fun _ => Some sampleArchive64) "app.jar"
    = match zip_NewReader sampleArchive64
              (Z.of_nat (length sampleArchive64)) with
      | Some r => Ok r
      | None => Err ErrUnableToOpen
      end /\
    OpenZip Reader zip_NewReader
      (fun _ => Some (prepended 100 ++ sampleArchive64)) "app.jar"
    = Err (ErrCannotFindBeginning ErrDirectory64End).
Proof.
  assert (H0 : findArchiveStartOffset sampleArchive64
                 (Z.of_nat (length sampleArchive64)) = Ok 0)
    by (vm_compute; reflexivity).
  assert (H : findArchiveStartOffset (prepended 100 ++ sampleArchive64)
                (Z.of_nat (length (prepended 100 ++ sampleArchive64)))
              = Err ErrDirectory64End) by (vm_compute; reflexivity).
  split; [exact H0|]. split; [vm_compute; reflexivity|]. split; [exact H|].
  intros Reader zip_NewReader. split.
  - unfold OpenZip. rewrite H0.
    replace (sectionBytes sampleArchive64 (to_int64 0)
               (Z.of_nat (length sampleArchive64) - to_int64 0))
      with sampleArchive64 by (vm_compute; reflexivity).
    replace (Z.of_nat (length sampleArchive64) - to_int64 0)
      with (Z.of_nat (length sampleArchive64)) by (vm_compute; reflexivity).
    reflexivity.
  - unfold OpenZip. rewrite H. reflexivity.
Qed.

End ZipFacts.

(** ** Sorting by a strict total order *)

Section StrictOrderSorting.
Context {A : Type} (R : relation A) `{!forall x y, Decision (R x y)}.
Variable less : A -> A -> bool.
Hypothesis R_less : forall x y, R x y <-> less y x = false.
Hypothesis less_irrefl : forall x, less x x = false.
Hypothesis less_trans :
  forall x y z, less x y = true -> less y z = true -> less x z = true.
Hypothesis less_total :
  forall x y, less x y = false -> less y x = false -> x = y.

Lemma notAfter_is_total : Total R.
Proof.
  intros x y. rewrite !R_less.
  destruct (less y x) eqn:E; [right | left; reflexivity].
  destruct (less x y) eqn:E'; [|reflexivity].
  rewrite <- (less_irrefl y). symmetry. eapply less_trans; eassumption.
Qed.

Lemma notAfter_is_transitive : Transitive R.
Proof.
  intros x y z. rewrite !R_less. intros Hxy Hyz.
  destruct (less z x) eqn:Hzx; [|reflexivity].
  destruct (less x y) eqn:E.
  - rewrite <- Hyz. symmetry. eapply less_trans; eassumption.
  - rewrite (less_total x y E Hxy) in Hzx. congruence.
Qed.

Lemma notAfter_is_antisymmetric : AntiSymm (=) R.
Proof.
  intros x y. rewrite !R_less. intros Hxy Hyx. apply less_total; assumption.
Qed.

(** Only one arrangement of a list is sorted. *)
Lemma sorted_arrangement_unique l1 l2 :
  l1 ≡ₚ l2 -> Sorted R l1 -> Sorted R l2 -> l1 = l2.
Proof.
  intros Hperm H1 H2.
  pose proof notAfter_is_transitive. pose proof notAfter_is_antisymmetric.
  apply (Sorted_unique R); assumption.
Qed.

Lemma merge_sort_arrangement l l' :
  l' ≡ₚ l -> Sorted R l' -> l' = merge_sort R l.
Proof.
  intros Hperm Hsorted. pose proof notAfter_is_total.
  apply sorted_arrangement_unique; [|exact Hsorted|apply Sorted_merge_sort, _].
  rewrite merge_sort_Permutation. exact Hperm.
Qed.

Lemma merge_sort_order_irrelevant l l' :
  l ≡ₚ l' -> merge_sort R l = merge_sort R l'.
Proof.
  intros Hperm. pose proof notAfter_is_total.
  apply merge_sort_arrangement; [|apply Sorted_merge_sort, _].
  rewrite merge_sort_Permutation. exact Hperm.
Qed.

(** Without repetitions the sorted list ascends strictly. *)
Lemma sorted_strictly l :
  NoDup l -> Sorted R l -> StronglySorted (fun x y => less x y = true) l.
Proof.
  intros Hnd Hsorted. pose proof notAfter_is_transitive.
  apply Sorted_StronglySorted in Hsorted; [|assumption].
  induction Hsorted as [|x l Hl IH Hx]; [constructor|].
  apply NoDup_cons in Hnd as [Hnotin Hnd].
  constructor; [exact (IH Hnd)|].
  apply Forall_forall. intros y Hy.
  rewrite List.Forall_forall in Hx.
  assert (Hxy : R x y) by (apply Hx, list_elem_of_In; exact Hy).
  apply R_less in Hxy.
  destruct (less x y) eqn:E; [reflexivity|].
  exfalso. apply Hnotin. rewrite (less_total x y E Hxy). exact Hy.
Qed.

Lemma merge_sort_strictly l :
  NoDup l -> StronglySorted (fun x y => less x y = true) (merge_sort R l).
Proof.
  intros Hnd. pose proof notAfter_is_total.
  apply sorted_strictly; [|apply Sorted_merge_sort, _].
  rewrite merge_sort_Permutation. exact Hnd.
Qed.

(** A strictly ascending list is determined by its elements. *)
Lemma strictly_sorted_ext l1 l2 :
  StronglySorted (fun x y => less x y = true) l1 ->
  StronglySorted (fun x y => less x y = true) l2 ->
  (forall x, x ∈ l1 <-> x ∈ l2) -> l1 = l2.
Proof.
  assert (Hnd : forall l,
             StronglySorted (fun x y => less x y = true) l -> NoDup l).
  { intros l Hl. induction Hl as [|x l _ IH Hx]; constructor; [|exact IH].
    intros Hin. rewrite List.Forall_forall in Hx.
    apply list_elem_of_In, Hx in Hin. rewrite less_irrefl in Hin.
    discriminate Hin. }
  assert (Hs : forall l,
             StronglySorted (fun x y => less x y = true) l -> Sorted R l).
  { intros l Hl. apply StronglySorted_Sorted.
    induction Hl as [|x l _ IH Hx]; constructor; [exact IH|].
    eapply Forall_impl; [exact Hx|]. intros y Hxy. cbn in Hxy.
    apply R_less. destruct (less y x) eqn:E; [|reflexivity].
    rewrite <- (less_irrefl x). symmetry. eapply less_trans; eassumption. }
  intros H1 H2 Hext. apply sorted_arrangement_unique; auto.
  apply NoDup_Permutation; auto.
Qed.

End StrictOrderSorting.

(** ** Sorted string slices *)

Section SortedStrings.
Import sort.

Lemma stringLe_less x y : stringLe x y <-> String.ltb y x = false.
Proof. reflexivity. Qed.

Lemma elem_of_Strings x l : x ∈ Strings l <-> x ∈ l.
Proof. unfold Strings. rewrite merge_sort_Permutation. reflexivity. Qed.

Lemma Strings_strictly l :
  NoDup l -> StronglySorted (fun x y => String.ltb x y = true) (Strings l).
Proof.
  apply (merge_sort_strictly stringLe String.ltb stringLe_less
           string_ltb_irrefl string_ltb_trans string_ltb_total).
Qed.

Lemma Strings_order_irrelevant l l' : l ≡ₚ l' -> Strings l = Strings l'.
Proof.
  apply (merge_sort_order_irrelevant stringLe String.ltb stringLe_less
           string_ltb_irrefl string_ltb_trans string_ltb_total).
Qed.

Lemma Strings_arrangement l l' :
  l' ≡ₚ l -> Sorted stringLe l' -> l' = Strings l.
Proof.
  apply (merge_sort_arrangement stringLe String.ltb stringLe_less
           string_ltb_irrefl string_ltb_trans string_ltb_total).
Qed.

Lemma Strings_ext l1 l2 :
  StronglySorted (fun x y => String.ltb x y = true) l1 ->
  StronglySorted (fun x y => String.ltb x y = true) l2 ->
  (forall x, x ∈ l1 <-> x ∈ l2) -> l1 = l2.
Proof.
  apply (strictly_sorted_ext stringLe String.ltb stringLe_less
           string_ltb_irrefl string_ltb_trans string_ltb_total).
Qed.

(** The sorted members of a string set, for every order in which the
    set hands them out. *)
Lemma Strings_List (s : strset.Set_) :
  (forall x, x ∈ Strings (strset.List s) <-> x ∈ s) /\
  StronglySorted (fun x y => String.ltb x y = true) (Strings (strset.List s)) /\
  (forall order, order ≡ₚ strset.List s ->
                 Strings order = Strings (strset.List s)).
Proof.
  unfold strset.List. split; [|split].
  - intros x. rewrite elem_of_Strings. apply elem_of_elements.
  - apply Strings_strictly, NoDup_elements.
  - intros order. apply Strings_order_irrelevant.
Qed.

Lemma fold_Add_singletons {B} (f : B -> string) (l : list B) (s : strset.Set_) x :
  x ∈ fold_left (fun acc b => strset.Add acc [f b]) l s <->
  x ∈ s \/ exists b, b ∈ l /\ f b = x.
Proof.
  revert s. induction l as [|b l IH]; intros s; cbn [fold_left].
  - split; [auto|]. intros [H|(b & Hb & _)]; [exact H|].
    apply elem_of_nil in Hb. contradiction.
  - rewrite IH. unfold strset.Add. cbn [list_to_set].
    rewrite elem_of_union, elem_of_union, elem_of_singleton, elem_of_empty.
    split.
    + intros [[H|[H|[]]]|(b' & Hb' & Hf)]; [left; exact H| |].
      * right. exists b. split; [left|congruence].
      * right. exists b'. split; [right; exact Hb'|exact Hf].
    + intros [H|(b' & Hb' & Hf)]; [left; left; exact H|].
      apply elem_of_cons in Hb' as [->|Hb'].
      * left. right. left. congruence.
      * right. exists b'. split; assumption.
Qed.

End SortedStrings.

(** ** Coordinate sets *)

Section CoordinateSetFacts.
Import file coordinateset.

Lemma less_irrefl c : less c c = false.
Proof.
  unfold less. rewrite String.eqb_refl. apply string_ltb_irrefl.
Qed.

Lemma less_trans x y z :
  less x y = true -> less y z = true -> less x z = true.
Proof.
  unfold less.
  destruct (String.eqb_spec (RealPath x) (RealPath y)) as [Exy|Nxy];
    destruct (String.eqb_spec (RealPath y) (RealPath z)) as [Eyz|Nyz];
    intros Hxy Hyz.
  - rewrite Exy, Eyz, String.eqb_refl. eapply string_ltb_trans; eassumption.
  - rewrite Exy. destruct (String.eqb_spec (RealPath y) (RealPath z));
      [contradiction | exact Hyz].
  - rewrite <- Eyz. destruct (String.eqb_spec (RealPath x) (RealPath y));
      [contradiction | exact Hxy].
  - destruct (String.eqb_spec (RealPath x) (RealPath z)) as [Exz|Nxz].
    + rewrite <- Exz in Hyz.
      pose proof (string_ltb_trans _ _ _ Hxy Hyz) as H.
      rewrite string_ltb_irrefl in H. discriminate H.
    + eapply string_ltb_trans; eassumption.
Qed.

Lemma less_total x y : less x y = false -> less y x = false -> x = y.
Proof.
  unfold less. destruct x as [rx fx], y as [ry fy]. cbn [RealPath FileSystemID].
  destruct (String.eqb_spec rx ry) as [->|Hne].
  - rewrite String.eqb_refl. intros H1 H2.
    rewrite (string_ltb_total _ _ H1 H2). reflexivity.
  - destruct (String.eqb_spec ry rx) as [E|_]; [congruence|].
    intros H1 H2. destruct Hne. apply string_ltb_total; assumption.
Qed.

Lemma notAfter_less x y : notAfter x y <-> less y x = false.
Proof. reflexivity. Qed.

Lemma fold_insert_elem_of (l : list Coordinates) (m : gset Coordinates) c :
  c ∈ fold_left (fun m l => {[ l ]} ∪ m) l m <-> c ∈ m \/ c ∈ l.
Proof.
  revert m. induction l as [|x l IH]; intros m; cbn [fold_left].
  - rewrite elem_of_nil. tauto.
  - rewrite IH, elem_of_union, elem_of_singleton, elem_of_cons. tauto.
Qed.

Lemma fold_remove_elem_of (l : list Coordinates) (m : gset Coordinates) c :
  c ∈ fold_left (fun m l => m ∖ {[ l ]}) l m <-> c ∈ m /\ c ∉ l.
Proof.
  revert m. induction l as [|x l IH]; intros m; cbn [fold_left].
  - rewrite elem_of_nil. tauto.
  - rewrite IH, elem_of_difference, elem_of_singleton, not_elem_of_cons.
    tauto.
Qed.

Lemma Contains_Add s l c :
  Contains (Add s l) c = true <-> Contains s c = true \/ c ∈ l.
Proof.
  unfold Contains, Add. cbn [set].
  rewrite bool_decide_eq_true, fold_insert_elem_of.
  destruct (set s) as [m|]; cbn [default].
  - rewrite bool_decide_eq_true. reflexivity.
  - rewrite elem_of_empty. split; [tauto|].
    intros [H|H]; [discriminate H | right; exact H].
Qed.

Lemma Contains_NewCoordinateSet l c :
  Contains (NewCoordinateSet l) c = true <-> c ∈ l.
Proof.
  unfold NewCoordinateSet.
  assert (H : forall s,
             Contains (fold_left (fun s l => Add s [l]) l s) c = true <->
             Contains s c = true \/ c ∈ l).
  { induction l as [|x l IH]; intros s; cbn [fold_left].
    - rewrite elem_of_nil. tauto.
    - rewrite IH, Contains_Add, list_elem_of_singleton, (elem_of_cons l).
      tauto. }
  rewrite H. unfold Contains at 1. cbn [set]. split; [|tauto].
  intros [E|E]; [discriminate E | exact E].
Qed.

Lemma elem_of_ToSlice s c : c ∈ ToSlice s <-> Contains s c = true.
Proof.
  unfold ToSlice, ToSliceOf, Contains. destruct (set s) as [m|].
  - rewrite merge_sort_Permutation, elem_of_elements, bool_decide_eq_true.
    reflexivity.
  - rewrite elem_of_nil. split; [tauto | discriminate].
Qed.

(** X1. [ToSlice] returns every member once, in the strictly ascending
    order of (real path, file system id); this is the only order that
    the stable sort can produce, in whichever order the map was ranged
    over.  A nil set gives no element. *)
Theorem CoordinateSet_ToSlice_sorted (s : CoordinateSet) :
  (forall c, c ∈ ToSlice s <-> Contains s c = true) /\
  StronglySorted (fun x y => less x y = true) (ToSlice s) /\
  (forall x y, less x y = true <->
     String.ltb (RealPath x) (RealPath y) = true \/
     RealPath x = RealPath y /\
     String.ltb (FileSystemID x) (FileSystemID y) = true) /\
  (forall m order result,
     set s = Some m -> order ≡ₚ elements m ->
     result ≡ₚ order -> Sorted notAfter result -> result = ToSlice s).
Proof.
  split; [exact (elem_of_ToSlice s)|].
  unfold ToSlice, ToSliceOf. split; [|split].
  - destruct (set s) as [m|]; [|constructor].
    apply (merge_sort_strictly notAfter less notAfter_less
             less_irrefl less_trans less_total), NoDup_elements.
  - intros x y. unfold less.
    destruct (String.eqb_spec (RealPath x) (RealPath y)) as [E|N].
    + split; [auto|]. intros [H|[_ H]]; [|exact H].
      rewrite E, string_ltb_irrefl in H. discriminate H.
    + split; [auto|]. intros [H|[E _]]; [exact H | contradiction].
  - intros m order result -> Horder Hresult Hsorted.
    apply (merge_sort_arrangement notAfter less notAfter_less
             less_irrefl less_trans less_total); [|exact Hsorted].
    rewrite Hresult. exact Horder.
Qed.

Lemma elem_of_pathSet cs p :
  p ∈ pathSet cs <-> exists c, c ∈ cs /\ RealPath c = p.
Proof.
  unfold pathSet. rewrite (fold_Add_singletons RealPath).
  unfold strset.New. rewrite elem_of_empty. tauto.
Qed.

Lemma elem_of_Paths s p :
  p ∈ Paths s <-> exists c, Contains s c = true /\ RealPath c = p.
Proof.
  pose proof (elem_of_ToSlice s) as Hmem.
  destruct (Strings_List (pathSet (ToSlice s))) as (Hin & _).
  unfold Paths. destruct (set s) as [m|] eqn:Hs.
  - rewrite Hin, elem_of_pathSet. split.
    + intros (c & Hc & Hp). exists c. split; [apply Hmem, Hc | exact Hp].
    + intros (c & Hc & Hp). exists c. split; [apply Hmem, Hc | exact Hp].
  - rewrite elem_of_nil. split; [tauto|]. intros (c & Hc & _).
    unfold Contains in Hc. rewrite Hs in Hc. discriminate Hc.
Qed.

Lemma Paths_strictly s :
  StronglySorted (fun x y => String.ltb x y = true) (Paths s).
Proof.
  destruct (Strings_List (pathSet (ToSlice s))) as (_ & Hsorted & _).
  unfold Paths. destruct (set s); [exact Hsorted | constructor].
Qed.

(** X2. [Paths] returns the real paths of the members, each once, in
    strictly ascending byte-wise order, in whichever order the string
    set hands them to [sort.Strings]; coordinates that differ in the
    file system id only give one path. *)
Theorem CoordinateSet_Paths_sorted (s : CoordinateSet) :
  (forall p, p ∈ Paths s <->
             exists c, Contains s c = true /\ RealPath c = p) /\
  StronglySorted (fun x y => String.ltb x y = true) (Paths s) /\
  (forall order,
     set s <> None -> order ≡ₚ strset.List (pathSet (ToSlice s)) ->
     sort.Strings order = Paths s).
Proof.
  split; [exact (elem_of_Paths s)|]. split; [exact (Paths_strictly s)|].
  destruct (Strings_List (pathSet (ToSlice s))) as (_ & _ & Horder).
  intros order Hs Hperm. unfold Paths. destruct (set s); [|contradiction].
  apply Horder, Hperm.
Qed.

End CoordinateSetFacts.

(** ** Location sets: adding, removing, coordinates and hash *)

Section LocationSetFacts.
Import file locationset.
Implicit Types (m : gmap LocationData LocationMetadata) (l : Location).

Lemma addOne_lookup m log l m' log' :
  addOne (m, log) l = Some (m', log') ->
  (forall d, is_Some (m' !! d) <-> is_Some (m !! d) \/ d = locationData l) /\
  (size m <= size m' <= S (size m))%nat.
Proof.
  unfold addOne. destruct (m !! locationData l) as [md|] eqn:Hl.
  - destruct (merge md (locationMetadata l)) as [[md' errs]|]; [|discriminate].
    intros [= <- _]. split.
    + intros d. rewrite lookup_insert_is_Some. split.
      * intros [-> | [_ H]]; [right; reflexivity | left; exact H].
      * intros [H | ->]; [|left; reflexivity].
        destruct (decide (locationData l = d)) as [E|E]; [left; exact E|].
        right. split; assumption.
    + rewrite map_size_insert_Some by (eexists; exact Hl). lia.
  - intros [= <- _]. split.
    + intros d. rewrite lookup_insert_is_Some. split.
      * intros [-> | [_ H]]; [right; reflexivity | left; exact H].
      * intros [H | ->]; [|left; reflexivity].
        destruct (decide (locationData l = d)) as [E|E]; [left; exact E|].
        right. split; assumption.
    + rewrite map_size_insert_None by exact Hl. lia.
Qed.

Lemma addAll_lookup ls m log m' log' :
  addAll (m, log) ls = Some (m', log') ->
  (forall d, is_Some (m' !! d) <->
             is_Some (m !! d) \/ d ∈ locationData <$> ls) /\
  (size m <= size m' <= size m + length ls)%nat.
Proof.
  revert m log. induction ls as [|l ls IH]; intros m log; cbn [addAll].
  - intros [= <- _]. split; [|cbn; lia].
    intros d. rewrite fmap_nil, elem_of_nil. tauto.
  - destruct (addOne (m, log) l) as [[m1 log1]|] eqn:H1; [|discriminate].
    intros Hall. apply addOne_lookup in H1 as [Hd1 Hs1].
    apply IH in Hall as [Hd Hs]. split; [|cbn [length]; lia].
    intros d. rewrite Hd, Hd1, fmap_cons, elem_of_cons. tauto.
Qed.

(** X3. After a call of [Add] that returns, the set holds what it held
    before and every added location, and nothing else; a location is
    identified by its [LocationData].  The number of members does not go
    down and grows by at most one per added location, and the map of
    the set is made. *)
Theorem LocationSet_Add_members (s : LocationSet) ls s' log :
  file.Add s ls = Some (s', log) ->
  (forall l, file.Contains s' l = true <->
     file.Contains s l = true \/
     exists l', l' ∈ ls /\ locationData l' = locationData l) /\
  (members s <= members s' <= members s + length ls)%nat /\
  file.set s' <> None /\
  (Empty s' = true <-> Empty s = true /\ ls = []).
Proof.
  unfold file.Add.
  destruct (addAll (default ∅ (file.set s), []) ls) as [[m' log']|] eqn:Hall;
    [|discriminate].
  intros [= <- _]. apply addAll_lookup in Hall as [Hd Hs].
  assert (Hsize : size (default ∅ (file.set s)) = members s).
  { unfold members. destruct (file.set s); [reflexivity|]. apply map_size_empty. }
  split; [|split; [|split]].
  - intros l. unfold file.Contains at 1. cbn [file.set].
    rewrite bool_decide_eq_true, Hd, list_elem_of_fmap.
    assert (Hc : is_Some (default ∅ (file.set s) !! locationData l) <->
                 file.Contains s l = true).
    { unfold file.Contains. destruct (file.set s) as [m|]; cbn [default].
      - rewrite bool_decide_eq_true. reflexivity.
      - rewrite lookup_empty. split; [intros [? H]|]; discriminate. }
    rewrite Hc. split.
    + intros [H|(l' & E & Hin)]; [left; exact H|].
      right. exists l'. split; [exact Hin | symmetry; exact E].
    + intros [H|(l' & Hin & E)]; [left; exact H|].
      right. exists l'. split; [symmetry; exact E | exact Hin].
  - unfold members at 2 3. cbn [file.set]. lia.
  - discriminate.
  - unfold Empty at 1. cbn [file.set]. rewrite Nat.eqb_eq.
    assert (He : Empty s = true <-> members s = 0%nat).
    { unfold Empty, members. destruct (file.set s); [apply Nat.eqb_eq|tauto]. }
    rewrite He. split.
    + intros H0. split; [lia|].
      destruct ls as [|l ls]; [reflexivity|]. exfalso.
      assert (Hin : is_Some (m' !! locationData l)).
      { apply Hd. right. rewrite fmap_cons. left. }
      destruct Hin as [md Hmd].
      apply map_size_empty_iff in H0. rewrite H0, lookup_empty in Hmd.
      discriminate Hmd.
    + intros [H0 ->]. cbn [length] in Hs. lia.
Qed.

Lemma merge_keeps_initialised md other md' errs :
  initialised md -> merge md other = Some (md', errs) -> initialised md'.
Proof.
  unfold initialised. destruct md as [[a|]]; [|contradiction]. intros _.
  rewrite merge_initialised. intros [= <- _]. discriminate.
Qed.

Lemma addOne_initialised m log l :
  map_Forall (fun _ md => initialised md) m ->
  initialised (locationMetadata l) ->
  exists m' log',
    addOne (m, log) l = Some (m', log') /\
    map_Forall (fun _ md => initialised md) m'.
Proof.
  intros Hm Hl. unfold addOne.
  destruct (m !! locationData l) as [md|] eqn:Hlook.
  - pose proof (Hm _ _ Hlook) as Hmd. cbn in Hmd.
    destruct md as [[a|]]; [|destruct Hmd; reflexivity].
    rewrite merge_initialised. eexists _, _. split; [reflexivity|].
    apply map_Forall_insert_2; [discriminate | exact Hm].
  - eexists _, _. split; [reflexivity|].
    apply map_Forall_insert_2; assumption.
Qed.

(** X4. [Add] does not panic on initialised annotation maps, and it keeps
    them initialised: when every annotation map stored in the set and
    every annotation map of the added locations is non-nil, the call
    returns and every stored annotation map is non-nil again.  (A nil
    map stored in the set makes [merge] panic as soon as a location with
    the same [LocationData] and an annotation is added.) *)
Theorem LocationSet_Add_initialised (s : LocationSet) ls :
  (forall d md, stored s d = Some md -> initialised md) ->
  Forall (fun l => initialised (locationMetadata l)) ls ->
  exists s' log,
    file.Add s ls = Some (s', log) /\
    (forall d md, stored s' d = Some md -> initialised md).
Proof.
  intros Hs Hls. unfold file.Add.
  assert (H0 : map_Forall (fun _ md => initialised md)
                 (default ∅ (file.set s))).
  { unfold stored in Hs. destruct (file.set s) as [m|]; cbn [default].
    - intros d md. apply Hs.
    - apply map_Forall_empty. }
  generalize dependent (default ∅ (file.set s)).
  generalize (@nil logEntry).
  induction Hls as [|l ls Hl _ IH]; intros log m Hm; cbn [addAll].
  - eexists _, _. split; [reflexivity|]. intros d md. cbn. apply Hm.
  - destruct (addOne_initialised m log l Hm Hl) as (m1 & log1 & -> & Hm1).
    apply IH, Hm1.
Qed.

Lemma fold_delete_lookup ls m d :
  fold_left (fun m l => delete (locationData l) m) ls m !! d =
  if bool_decide (d ∈ locationData <$> ls) then None else m !! d.
Proof.
  revert m. induction ls as [|l ls IH]; intros m; cbn [fold_left].
  - reflexivity.
  - rewrite IH, fmap_cons.
    destruct (decide (d = locationData l)) as [->|Hne].
    + rewrite lookup_delete_eq.
      rewrite (bool_decide_eq_true_2 (locationData l ∈ locationData l :: _))
        by left.
      destruct (bool_decide _); reflexivity.
    + rewrite lookup_delete_ne by congruence.
      destruct (bool_decide (d ∈ locationData <$> ls)) eqn:E.
      * apply bool_decide_eq_true in E.
        rewrite bool_decide_eq_true_2 by (right; exact E). reflexivity.
      * apply bool_decide_eq_false in E.
        rewrite bool_decide_eq_false_2; [reflexivity|].
        intros [?|?]%elem_of_cons; contradiction.
Qed.

(** X5. [Remove] takes out exactly the members that have the [LocationData]
    of one of the given locations, whatever their annotations; the
    other members keep their annotations, removing a location that is
    not a member changes nothing, and on the nil set of the zero value
    it does nothing. *)
Theorem LocationSet_Remove_members (s : LocationSet) ls :
  (forall l, file.Contains (Remove s ls) l =
             file.Contains s l &&
             negb (bool_decide (locationData l ∈ locationData <$> ls))) /\
  (forall d, stored (Remove s ls) d =
             if bool_decide (d ∈ locationData <$> ls) then None
             else stored s d) /\
  (members (Remove s ls) <= members s)%nat /\
  ((forall l, l ∈ ls -> file.Contains s l = false) -> Remove s ls = s).
Proof.
  assert (Hstored : forall d, stored (Remove s ls) d =
             if bool_decide (d ∈ locationData <$> ls) then None
             else stored s d).
  { intros d. unfold stored, Remove. destruct (file.set s) as [m|] eqn:Hs.
    - cbn [file.set]. apply fold_delete_lookup.
    - rewrite Hs. destruct (bool_decide _); reflexivity. }
  assert (Hc : forall s0 l, file.Contains s0 l =
                            bool_decide (is_Some (stored s0 (locationData l)))).
  { intros s0 l. unfold file.Contains, stored. destruct (file.set s0);
      [reflexivity|].
    symmetry. apply bool_decide_eq_false. intros [? H]. discriminate H. }
  split; [|split; [exact Hstored|split]].
  - intros l. rewrite !Hc, Hstored.
    destruct (bool_decide (locationData l ∈ locationData <$> ls)); cbn [negb].
    + rewrite andb_false_r. apply bool_decide_eq_false.
      intros [? H]. discriminate H.
    + rewrite andb_true_r. reflexivity.
  - unfold members, Remove. destruct (file.set s) as [m|] eqn:Hs;
      [|rewrite Hs; lia].
    cbn [file.set]. apply map_subseteq_size.
    apply map_subseteq_spec. intros d md Hd.
    rewrite fold_delete_lookup in Hd.
    destruct (bool_decide _); [discriminate Hd | exact Hd].
  - intros Hnot. unfold Remove. destruct s as [[m|]]; cbn [file.set];
      [|reflexivity].
    f_equal. f_equal. apply map_eq. intros d. rewrite fold_delete_lookup.
    destruct (bool_decide (d ∈ locationData <$> ls)) eqn:E; [|reflexivity].
    apply bool_decide_eq_true, list_elem_of_fmap in E as (l & -> & Hl).
    specialize (Hnot l Hl). unfold file.Contains in Hnot. cbn [file.set] in Hnot.
    apply bool_decide_eq_false in Hnot.
    destruct (m !! locationData l) eqn:Hm; [|reflexivity].
    destruct Hnot. eexists; reflexivity.
Qed.


Lemma LocationSet_Add_members_witness :
  file.Contains sampleSetVar binA = false /\
  exists s' log,
    file.Add sampleSetVar [binA] = Some (s', log) /\
    (members sampleSetVar <= members s' <= members sampleSetVar + 1)%nat /\
    file.Contains s' binA = true /\
    file.Contains s' etcHostsLinkVar = true.
Proof.
  split; [reflexivity|].
  exists {| file.set :=
              Some (<[ locationData binA := locationMetadata binA ]>
                      {[ locationData etcHostsLinkVar :=
                           locationMetadata etcHostsLinkVar ]}) |}, [].
  assert (E : file.Add sampleSetVar [binA] =
              Some ({| file.set :=
                         Some (<[ locationData binA := locationMetadata binA ]>
                                 {[ locationData etcHostsLinkVar :=
                                      locationMetadata etcHostsLinkVar ]}) |},
                    [])) by reflexivity.
  split; [exact E|].
  destruct (LocationSet_Add_members _ _ _ _ E) as (Hc & Hm & _).
  split; [exact Hm|]. split; apply Hc.
  - right. exists binA. split; [left | reflexivity].
  - left. reflexivity.
Defined.

Lemma LocationSet_Add_initialised_witness :
  exists s' log,
    file.Add {| file.set := None |}
      [WithAnnotation binA "evidence" "primary"; binA] = Some (s', log) /\
    (forall d md, stored s' d = Some md -> initialised md).
Proof.
  apply (LocationSet_Add_initialised {| file.set := None |}
           [WithAnnotation binA "evidence" "primary"; binA]).
  - intros d md H. discriminate H.
  - repeat constructor; discriminate.
Defined.

Lemma coordinateSet_fold keys (s0 : CoordinateSet) :
  keys <> [] ->
  fold_left (fun set d => coordinateset.Add set [coordinates d]) keys s0 =
  {| set := Some (default ∅ (set s0) ∪ list_to_set (coordinates <$> keys)) |}.
Proof.
  revert s0. induction keys as [|d keys IH]; intros s0 Hne; [contradiction|].
  cbn [fold_left]. destruct keys as [|d' keys].
  - clear IH. unfold coordinateset.Add. cbn [fold_left fmap list_fmap list_to_set].
    f_equal. f_equal. apply set_eq. intros c.
    rewrite !elem_of_union, elem_of_empty. tauto.
  - rewrite IH by discriminate. clear IH. f_equal. f_equal.
    unfold coordinateset.Add. cbn [set default fold_left].
    rewrite (fmap_cons _ d). cbn [list_to_set]. apply set_eq. intros c.
    unfold id. rewrite !elem_of_union. tauto.
Qed.

Lemma Contains_coordinateSetOver keys c :
  Contains (coordinateSetOver keys) c = true <->
  exists d, d ∈ keys /\ coordinates d = c.
Proof.
  unfold coordinateSetOver. destruct keys as [|d keys].
  - cbn. split; [discriminate|]. intros (d & Hd & _).
    apply elem_of_nil in Hd. contradiction.
  - rewrite coordinateSet_fold by discriminate. unfold Contains. cbn [set].
    rewrite bool_decide_eq_true. cbn [default NewCoordinateSet fold_left set].
    rewrite elem_of_union, elem_of_list_to_set, list_elem_of_fmap.
    rewrite elem_of_empty. split.
    + intros [[]|(d0 & -> & Hd0)]. exists d0. split; [exact Hd0|reflexivity].
    + intros (d0 & Hd0 & <-). right. exists d0. split; [reflexivity|exact Hd0].
Qed.

Lemma elem_of_keys (m : gmap LocationData LocationMetadata) d :
  d ∈ (map_to_list m).*1 <-> is_Some (m !! d).
Proof.
  rewrite list_elem_of_fmap. split.
  - intros ([d' md] & -> & Hin). apply elem_of_map_to_list in Hin.
    eexists; exact Hin.
  - intros [md Hmd]. exists (d, md). split; [reflexivity|].
    apply elem_of_map_to_list. exact Hmd.
Qed.

Lemma Contains_CoordinateSet (s : LocationSet) c :
  Contains (CoordinateSet_ s) c = true <->
  exists l, file.Contains s l = true /\ coordinates (locationData l) = c.
Proof.
  unfold CoordinateSet_, file.Contains. destruct (file.set s) as [m|].
  - rewrite Contains_coordinateSetOver. split.
    + intros (d & Hd & Hc). apply elem_of_keys in Hd.
      exists {| locationData := d;
                locationMetadata := {| Annotations := None |} |}.
      split; [apply bool_decide_eq_true; exact Hd | exact Hc].
    + intros (l & Hl & Hc). apply bool_decide_eq_true in Hl.
      exists (locationData l). split; [apply elem_of_keys, Hl | exact Hc].
  - cbn. split; [discriminate|]. intros (l & Hl & _). discriminate Hl.
Qed.

(** X6. The coordinate set of a location set holds exactly the coordinates
    of its members: access paths, file references and annotations are
    dropped, so members that differ in these only give one element.
    The result does not depend on the order in which the map is ranged
    over, and it is the zero value (a nil map) exactly for an empty
    location set. *)
Theorem LocationSet_CoordinateSet_members (s : LocationSet) :
  (forall c, Contains (CoordinateSet_ s) c = true <->
     exists l, file.Contains s l = true /\ coordinates (locationData l) = c) /\
  (forall m order,
     file.set s = Some m -> order ≡ₚ (map_to_list m).*1 ->
     coordinateSetOver order = CoordinateSet_ s) /\
  (set (CoordinateSet_ s) = None <-> Empty s = true).
Proof.
  split; [exact (Contains_CoordinateSet s)|]. split.
  - intros m order Hs Hperm. unfold CoordinateSet_. rewrite Hs.
    unfold coordinateSetOver.
    destruct (map_to_list m).*1 as [|d keys] eqn:Hkeys.
    + apply Permutation_nil_r in Hperm. rewrite Hperm. reflexivity.
    + assert (Hne : order <> []).
      { intros ->. symmetry in Hperm. apply Permutation_nil_r in Hperm.
        discriminate Hperm. }
      rewrite !coordinateSet_fold by (exact Hne || discriminate).
      f_equal. f_equal. f_equal. apply set_eq. intros c.
      rewrite !elem_of_list_to_set, !list_elem_of_fmap.
      split; intros (d0 & E & Hd0); exists d0; (split; [exact E|]).
      * rewrite <- Hperm. exact Hd0.
      * rewrite Hperm. exact Hd0.
  - unfold CoordinateSet_, Empty. destruct (file.set s) as [m|].
    + unfold coordinateSetOver. rewrite Nat.eqb_eq.
      destruct (map_to_list m).*1 as [|d keys] eqn:Hkeys.
      * apply fmap_nil_inv, map_to_list_empty_iff in Hkeys. subst m.
        cbn. rewrite map_size_empty. tauto.
      * rewrite coordinateSet_fold by discriminate. cbn [set].
        split; [discriminate|]. intros H0.
        apply map_size_empty_iff in H0. subst m.
        rewrite map_to_list_empty in Hkeys. discriminate Hkeys.
    + cbn. tauto.
Qed.

Lemma elem_of_Paths_CoordinateSet (s : LocationSet) p :
  p ∈ Paths (CoordinateSet_ s) <-> p ∈ realPaths s.
Proof.
  rewrite elem_of_Paths. unfold realPaths. split.
  - intros (c & Hc & <-). apply Contains_CoordinateSet in Hc as (l & Hl & <-).
    unfold file.Contains in Hl. destruct (file.set s) as [m|];
      [|discriminate Hl].
    apply bool_decide_eq_true in Hl. apply elem_of_map.
    exists (locationData l). split; [reflexivity|]. apply elem_of_dom. exact Hl.
  - destruct (file.set s) as [m|] eqn:Hs; [|intros []%elem_of_empty].
    intros (d & -> & Hd)%elem_of_map. apply elem_of_dom in Hd.
    exists (coordinates d). split; [|reflexivity].
    apply Contains_CoordinateSet.
    exists {| locationData := d;
              locationMetadata := {| Annotations := None |} |}.
    split; [|reflexivity]. unfold file.Contains. rewrite Hs.
    apply bool_decide_eq_true. exact Hd.
Qed.

(** X7. The hash of a location set is a function of the set of real paths
    of its members: two location sets with the same real paths hash
    alike, whatever the file system ids, access paths, file references
    and annotations of their members. *)
Theorem LocationSet_Hash_real_paths_only {HashError : Type}
    (hashstructure_Hash : list string -> result HashError Z)
    (s1 s2 : LocationSet) :
  realPaths s1 = realPaths s2 ->
  Hash HashError hashstructure_Hash s1 = Hash HashError hashstructure_Hash s2.
Proof.
  intros Heq. unfold Hash. f_equal.
  apply Strings_ext; try apply Paths_strictly.
  intros p. rewrite !elem_of_Paths_CoordinateSet, Heq. reflexivity.
Qed.

Lemma LocationSet_Hash_real_paths_only_witness :
  members sampleSetVar = 1%nat /\ members sampleSetHome = 2%nat /\
  Hash unit (fun paths => Ok (Z.of_nat (length paths))) sampleSetVar =
  Hash unit (fun paths => Ok (Z.of_nat (length paths))) sampleSetHome.
Proof.
  split; [reflexivity|]. split; [reflexivity|].
  apply (LocationSet_Hash_real_paths_only
           (fun paths => Ok (Z.of_nat (length paths)))
           sampleSetVar sampleSetHome).
  apply (bool_decide_unpack _). vm_compute. reflexivity.
Defined.

End LocationSetFacts.

(** ** The listings of an encoder collection *)

Section EncoderListFacts.
Import encoders encoderlist.

Lemma fold_append {B} (l acc : list B) :
  fold_left (fun ids id => ids ++ [id]) l acc = acc ++ l.
Proof.
  revert acc. induction l as [|x l IH]; intros acc; cbn [fold_left].
  - rewrite app_nil_r. reflexivity.
  - rewrite IH, <- app_assoc. reflexivity.
Qed.

(** X8. [IDs] lists the format ids of the encoders, each once however many
    encoders (versions) share it, in strictly ascending byte-wise order;
    the order in which the string set hands out its members does not
    show. *)
Theorem EncoderCollection_IDs_sorted (e : EncoderCollection) :
  (forall id, id ∈ IDs e <-> exists f, f ∈ encoders e /\ ID f = id) /\
  StronglySorted (fun x y => String.ltb x y = true) (IDs e) /\
  (forall order, order ≡ₚ strset.List (idSet e) ->
                 sort.Strings order = IDs e).
Proof.
  unfold IDs. rewrite fold_append, app_nil_l.
  destruct (Strings_List (idSet e)) as (Hin & Hsorted & Horder).
  split; [|split; assumption].
  intros id. rewrite Hin. unfold idSet. rewrite (fold_Add_singletons ID).
  unfold strset.New. rewrite elem_of_empty. tauto.
Qed.

(** X9. [NameVersions] lists, each once and in strictly ascending byte-wise
    order, the id of every encoder without a version and [id@version]
    for every encoder with one. *)
Theorem EncoderCollection_NameVersions_sorted (e : EncoderCollection) :
  (forall s, s ∈ NameVersions e <->
     exists f, f ∈ encoders e /\
               (Version f = "" /\ s = ID f \/
                Version f <> "" /\ s = ID f +:+ "@" +:+ Version f)) /\
  StronglySorted (fun x y => String.ltb x y = true) (NameVersions e) /\
  (forall order, order ≡ₚ strset.List (nameVersionSet e) ->
                 sort.Strings order = NameVersions e).
Proof.
  unfold NameVersions.
  destruct (Strings_List (nameVersionSet e)) as (Hin & Hsorted & Horder).
  split; [|split; assumption].
  intros s. rewrite Hin. unfold nameVersionSet.
  rewrite (fold_Add_singletons nameVersion).
  unfold strset.New. rewrite elem_of_empty.
  split.
  - intros [[]|(f & Hf & <-)]. exists f. split; [exact Hf|].
    unfold nameVersion, AnyVersion.
    destruct (String.eqb_spec (Version f) ""); [left | right]; auto.
  - intros (f & Hf & Hs). right. exists f. split; [exact Hf|].
    unfold nameVersion, AnyVersion.
    destruct (String.eqb_spec (Version f) "") as [E|N];
      destruct Hs as [[E' ->]|[N' ->]]; congruence.
Qed.

Lemma fold_Add_lists {B} (f : B -> list string) (l : list B)
    (s : strset.Set_) x :
  x ∈ fold_left (fun acc b => strset.Add acc (f b)) l s <->
  x ∈ s \/ exists b, b ∈ l /\ x ∈ f b.
Proof.
  revert s. induction l as [|b l IH]; intros s; cbn [fold_left].
  - split; [auto|]. intros [H|(b & Hb & _)]; [exact H|].
    apply elem_of_nil in Hb. contradiction.
  - rewrite IH. unfold strset.Add.
    rewrite elem_of_union, elem_of_list_to_set. split.
    + intros [[H|H]|(b' & Hb' & Hf)]; [left; exact H| |].
      * right. exists b. split; [left|exact H].
      * right. exists b'. split; [right; exact Hb'|exact Hf].
    + intros [H|(b' & Hb' & Hf)]; [left; left; exact H|].
      apply elem_of_cons in Hb' as [->|Hb'].
      * left. right. exact Hf.
      * right. exists b'. split; assumption.
Qed.

(** X10. [Aliases] lists the aliases of all encoders, each once and in
    strictly ascending byte-wise order; the ids themselves are not
    listed unless they are somebody's alias. *)
Theorem EncoderCollection_Aliases_sorted (e : EncoderCollection) :
  (forall a, a ∈ Collection_Aliases e <->
             exists f, f ∈ encoders e /\ a ∈ Aliases f) /\
  StronglySorted (fun x y => String.ltb x y = true) (Collection_Aliases e) /\
  (forall order, order ≡ₚ strset.List (aliasSet e) ->
                 sort.Strings order = Collection_Aliases e).
Proof.
  unfold Collection_Aliases.
  destruct (Strings_List (aliasSet e)) as (Hin & Hsorted & Horder).
  split; [|split; assumption].
  intros a. rewrite Hin. unfold aliasSet. rewrite (fold_Add_lists Aliases).
  unfold strset.New. rewrite elem_of_empty. tauto.
Qed.

Example EncoderCollection_listings :
  IDs sampleEncoders = ["cyclonedx-json"; "spdx-json"; "syft-json"] /\
  NameVersions sampleEncoders =
    ["cyclonedx-json@1.4"; "cyclonedx-json@1.5"; "spdx-json@2.3";
     "syft-json"] /\
  Collection_Aliases sampleEncoders = ["cdx"; "cyclonedx"; "json"; "syft"].
Proof. vm_compute. repeat split. Qed.

Lemma cut_free sep name rest :
  free sep name = true ->
  cut sep (name +:+ String sep rest) = Some (name, rest).
Proof.
  induction name as [|c name IH]; intros Hfree.
  - rewrite append_nil_l. cbn [cut]. rewrite Ascii.eqb_refl. reflexivity.
  - rewrite append_cons. cbn [cut free] in *.
    apply andb_true_iff in Hfree as [Hc Hfree].
    apply negb_true_iff in Hc. rewrite Hc, (IH Hfree). reflexivity.
Qed.

Lemma cut_none sep s : free sep s = true -> cut sep s = None.
Proof.
  induction s as [|c s IH]; intros Hfree; [reflexivity|].
  cbn [cut free] in *. apply andb_true_iff in Hfree as [Hc Hfree].
  apply negb_true_iff in Hc. rewrite Hc, (IH Hfree). reflexivity.
Qed.

(** X11. [GetByString] cuts its argument at the first ["@"]: what stands
    before is the name, what follows (further ["@"] included) is the
    requested version; without an ["@"], and with nothing after it, any
    version is asked for. *)
Theorem GetByString_cuts_at_first_at (e : EncoderCollection)
    (name version : string) :
  free "@" name = true ->
  GetByString e (name +:+ "@" +:+ version) = Get e name version /\
  GetByString e name = Get e name AnyVersion /\
  GetByString e (name +:+ "@") = Get e name AnyVersion.
Proof.
  intros Hfree. unfold GetByString, SplitN2. split; [|split].
  - change ("@" +:+ version) with (String "@" version).
    rewrite (cut_free _ _ _ Hfree). reflexivity.
  - rewrite (cut_none _ _ Hfree). reflexivity.
  - rewrite (cut_free _ _ _ Hfree). reflexivity.
Qed.

Lemma GetByString_cuts_at_first_at_witness :
  GetByString sampleEncoders "cdx@1.4" = Get sampleEncoders "cdx" "1.4" /\
  GetByString sampleEncoders "cdx" = Get sampleEncoders "cdx" AnyVersion /\
  GetByString sampleEncoders "cdx@" = Get sampleEncoders "cdx" AnyVersion.
Proof.
  apply (GetByString_cuts_at_first_at sampleEncoders "cdx" "1.4").
  reflexivity.
Defined.

Example GetByString_samples :
  GetByString sampleEncoders "cdx@1.4" = Some (Some (cyclonedxJSON "1.4")) /\
  GetByString sampleEncoders "CycloneDX_JSON" =
    Some (Some (cyclonedxJSON "1.5")) /\
  GetByString sampleEncoders "spdx-json@2.2" = Some None /\
  GetByString sampleEncoders "json@" =
    Some (Some {| ID := "syft-json"; Aliases := ["json"; "syft"];
                  Version := "" |}).
Proof. vm_compute. repeat split. Qed.

End EncoderListFacts.

(** ** Files owned by an RPM package *)

Section RpmFacts.
Import pkg.

(** X12. [OwnedFiles] lists the non-empty paths of the file records, each
    once and in strictly ascending byte-wise order. *)
Theorem RpmDBEntry_OwnedFiles_sorted (m : RpmDBEntry) :
  (forall p, p ∈ OwnedFiles m <->
             p <> "" /\ exists f, f ∈ Files m /\ Path f = p) /\
  StronglySorted (fun x y => String.ltb x y = true) (OwnedFiles m) /\
  (forall order, order ≡ₚ strset.List (ownedSet m) ->
                 sort.Strings order = OwnedFiles m).
Proof.
  unfold OwnedFiles.
  destruct (Strings_List (ownedSet m)) as (Hin & Hsorted & Horder).
  split; [|split; assumption].
  intros p. rewrite Hin. unfold ownedSet.
  assert (H : forall l (s : strset.Set_),
             p ∈ fold_left (fun s f => if negb (String.eqb (Path f) "")
                                       then strset.Add s [Path f] else s) l s
             <-> p ∈ s \/ p <> "" /\ exists f, f ∈ l /\ Path f = p).
  { induction l as [|f l IH]; intros s; cbn [fold_left].
    - split; [auto|]. intros [H|(_ & f & Hf & _)]; [exact H|].
      apply elem_of_nil in Hf. contradiction.
    - rewrite IH. destruct (String.eqb_spec (Path f) "") as [E|N]; cbn [negb].
      + split.
        * intros [H|(Hp & f' & Hf' & Hpath)]; [left; exact H|].
          right. split; [exact Hp|]. exists f'. split; [right|]; assumption.
        * intros [H|(Hp & f' & Hf' & Hpath)]; [left; exact H|].
          apply elem_of_cons in Hf' as [->|Hf']; [congruence|].
          right. split; [exact Hp|]. exists f'. split; assumption.
      + unfold strset.Add. cbn [list_to_set].
        rewrite !elem_of_union, elem_of_singleton, elem_of_empty. split.
        * intros [[H|[H|[]]]|(Hp & f' & Hf' & Hpath)]; [left; exact H| |].
          -- right. split; [congruence|]. exists f. split; [left|congruence].
          -- right. split; [exact Hp|]. exists f'. split; [right|]; assumption.
        * intros [H|(Hp & f' & Hf' & Hpath)]; [left; left; exact H|].
          apply elem_of_cons in Hf' as [->|Hf'].
          -- left. right. left. congruence.
          -- right. split; [exact Hp|]. exists f'. split; assumption. }
  rewrite H. unfold strset.New. rewrite elem_of_empty. tauto.
Qed.

End RpmFacts.

(** ** Identifying and decoding with a decoder collection *)

Section DecoderIdentifyFacts.
Import decoders.
Context {Reader SBOM DecodeError : Type}.
Implicit Types (d : FormatDecoder Reader SBOM DecodeError) (r : Reader).
Implicit Types (ds : list (FormatDecoder Reader SBOM DecodeError)).
#[local] Arguments identifyLoop {Reader SBOM DecodeError} _ _.
#[local] Arguments Collection_Identify {Reader SBOM DecodeError} _ _.

Lemma identifyLoop_decodeLoop ds r best :
  (identifyLoop ds r = ("", "") /\
   exists id,
     decodeLoop ds r best =
     if negb (String.eqb id "")
     then (None, id, "", Some (ErrVersionNotSupported id))
     else (None, "", "", Some ErrNotRecognized)) \/
  (exists d,
     d ∈ ds /\ identifyLoop ds r = Identify d r /\
     fst (Identify d r) <> "" /\ snd (Identify d r) <> "" /\
     decodeLoop ds r best = Decode d r).
Proof.
  revert best. induction ds as [|d ds IH]; intros best.
  - left. split; [reflexivity|]. exists best. reflexivity.
  - cbn [identifyLoop decodeLoop].
    destruct (Identify d r) as [id version] eqn:Hid.
    destruct (String.eqb_spec id "") as [Eid|Nid];
      destruct (String.eqb_spec version "") as [Ev|Nv]; cbn [negb andb orb].
    1-3: destruct (IH (if negb (String.eqb id "") then id else best))
           as [[Hi (id' & Hd)]|(d' & Hin & Hi & H1 & H2 & Hd)];
         [ left; split; [exact Hi|]; exists id';
           destruct (String.eqb_spec id ""); try contradiction; exact Hd
         | right; exists d'; split; [right; exact Hin|];
           destruct (String.eqb_spec id ""); try contradiction; auto ].
    right. exists d. rewrite Hid. cbn [fst snd].
    split; [left|]. auto.
Qed.

(** X13. [Identify] and [Decode] of a collection agree.  Either [Identify]
    names no format, and then [Decode] returns no SBOM and one of the
    two errors of the collection (format not recognized; or format
    found, with its id, but version not supported); or [Identify]
    returns the non-empty id and version that one decoder of the
    collection gives, and [Decode] returns what this same decoder
    returns.  For a nil reader [Identify] names no format and [Decode]
    reports that no bytes were provided. *)
Theorem Identify_agrees_with_Decode
    (c : DecoderCollection Reader SBOM DecodeError) :
  (Collection_Identify c None = ("", "") /\
   Collection_Decode c None = (None, "", "", Some ErrNoBytes)) /\
  forall r,
    (Collection_Identify c (Some r) = ("", "") /\
     (Collection_Decode c (Some r) = (None, "", "", Some ErrNotRecognized) \/
      exists id, id <> "" /\
        Collection_Decode c (Some r) =
          (None, id, "", Some (ErrVersionNotSupported id)))) \/
    (exists d,
       d ∈ decoders c /\
       Collection_Identify c (Some r) = Identify d r /\
       fst (Identify d r) <> "" /\ snd (Identify d r) <> "" /\
       Collection_Decode c (Some r) = Decode d r).
Proof.
  split; [split; reflexivity|]. intros r.
  unfold Collection_Identify, Collection_Decode.
  destruct (identifyLoop_decodeLoop (decoders c) r "")
    as [[Hi (id & Hd)]|H]; [left | right; exact H].
  split; [exact Hi|]. rewrite Hd.
  destruct (String.eqb_spec id "") as [E|N]; cbn [negb].
  - left. reflexivity.
  - right. exists id. split; [exact N | reflexivity].
Qed.

End DecoderIdentifyFacts.

(** ** Relationships of a package, by type *)

Section RelationshipFilterFacts.
Import artifact sbom.

Lemma keepsRelationship_true p rt r :
  keepsRelationship p rt r = true <->
  (exists from, From r = Some from /\ identifiable_ID from = package_ID p) /\
  To r <> None /\ In (Type_ r) rt.
Proof.
  unfold keepsRelationship.
  destruct (From r) as [from|], (To r) as [to|].
  - destruct (String.eqb_spec (identifiable_ID from) (package_ID p))
      as [E|N]; cbn [negb].
    + destruct (containsType rt (Type_ r)) eqn:Hc; cbn [negb].
      * apply containsType_In in Hc. split; [|reflexivity]. intros _.
        split; [exists from; auto|]. split; [discriminate | exact Hc].
      * split; [discriminate|]. intros (_ & _ & Hin).
        apply containsType_In in Hin. congruence.
    + split; [discriminate|]. intros ((from' & [= <-] & E) & _). contradiction.
  - split; [discriminate|]. intros (_ & H & _). contradiction.
  - split; [discriminate|]. intros ((from' & H & _) & _). discriminate H.
  - split; [discriminate|]. intros ((from' & H & _) & _). discriminate H.
Qed.

(** X14. Called with relationship types, [RelationshipsForPackage] returns,
    in the order of the SBOM, exactly the relationships that start at
    the package, have both ends set and carry one of the given types;
    evident-by relationships are returned when, and only when, that type
    is asked for.  Filtering the result again changes nothing. *)
Theorem RelationshipsForPackage_by_type (s : SBOM) (p : Package)
    (rt : list RelationshipType) :
  rt <> [] ->
  (forall r, In r (RelationshipsForPackage s p rt) <->
     In r (Relationships s) /\
     (exists from, From r = Some from /\
                   identifiable_ID from = package_ID p) /\
     To r <> None /\ In (Type_ r) rt) /\
  sublist (RelationshipsForPackage s p rt) (Relationships s) /\
  RelationshipsForPackage
    {| Relationships := RelationshipsForPackage s p rt |} p rt =
  RelationshipsForPackage s p rt.
Proof.
  intros Hrt. unfold RelationshipsForPackage. cbn [Relationships].
  destruct rt as [|t rt]; [contradiction|]. cbn [length Nat.eqb].
  split; [|split].
  - intros r. rewrite filter_In, keepsRelationship_true. reflexivity.
  - induction (Relationships s) as [|r l IH]; cbn [List.filter].
    + constructor.
    + destruct (keepsRelationship p (t :: rt) r);
        [apply sublist_skip | apply sublist_cons]; exact IH.
  - induction (Relationships s) as [|r l IH]; cbn [List.filter];
      [reflexivity|].
    destruct (keepsRelationship p (t :: rt) r) eqn:E; cbn [List.filter].
    + rewrite E, IH. reflexivity.
    + exact IH.
Qed.

Lemma RelationshipsForPackage_by_type_witness :
  RelationshipsForPackage sampleSBOM samplePackage [EvidentByRelationship]
    = [sampleEdge EvidentByRelationship] /\
  sublist
    (RelationshipsForPackage sampleSBOM samplePackage [EvidentByRelationship])
    (Relationships sampleSBOM).
Proof.
  split; [reflexivity|].
  apply (RelationshipsForPackage_by_type sampleSBOM samplePackage
           [EvidentByRelationship]).
  discriminate.
Defined.

End RelationshipFilterFacts.

(** ** Files that are no ZIP archive, and the traversal of archives *)

Section ZipErrorFacts.
Import bytes ziparchive.

Lemma scanBlock_without_record (file : list byte) (i : nat) (bLen : Z) :
  0 <= bLen ->
  (forall j, Z.of_nat (length file) - Z.of_nat j <= 65 * 1024 ->
             recordAt file j = false) ->
  bLen <= 65 * 1024 ->
  scanBlock file (Z.of_nat (length file)) i bLen =
  if (i =? 1)%nat
     || ((if bLen >? Z.of_nat (length file) then Z.of_nat (length file)
          else bLen) =? Z.of_nat (length file))
  then inl (Err ErrFormat) else inr tt.
Proof.
  intros Hpos Hnone Hwin. unfold scanBlock.
  set (size := Z.of_nat (length file)).
  set (bLen' := if bLen >? size then size else bLen).
  assert (Hb : 0 <= bLen' <= size /\ bLen' <= 65 * 1024).
  { subst bLen'. destruct (Z.gtb_spec bLen size); subst size; lia. }
  destruct (Z.ltb_spec bLen' 0) as [Hneg|_]; [lia|].
  subst size. rewrite ReadAt_tail by lia.
  set (off := Z.to_nat (Z.of_nat (length file) - bLen')).
  assert (Hoff : (off <= length file)%nat) by (subst off; lia).
  rewrite findSignatureInBlock_none; [reflexivity|].
  intros j Hfit. rewrite recordAt_skipn by exact Hoff.
  rewrite length_skipn in Hfit. apply Hnone. subst off. lia.
Qed.

(** X15. A file in whose last 65 KiB no end-of-central-directory record
    starts (the signature PK\x05\x06 followed by a comment length that
    fits into the file) is no ZIP archive for [findArchiveStartOffset]:
    the error is [zip.ErrFormat], and [OpenZip] fails without a call of
    [zip.NewReader].  Empty files and files of less than 22 bytes are
    among them. *)
Theorem findArchiveStartOffset_without_record (file : list byte) :
  (forall j, Z.of_nat (length file) - Z.of_nat j <= 65 * 1024 ->
             recordAt file j = false) ->
  findArchiveStartOffset file (Z.of_nat (length file)) = Err ErrFormat /\
  forall (Reader : Type) (zip_NewReader : list byte -> Z -> option Reader)
         (fs : string -> option (list byte)) (path : string),
    fs path = Some file ->
    OpenZip Reader zip_NewReader fs path
      = Err (ErrCannotFindBeginning ErrFormat).
Proof.
  intros Hnone.
  assert (H : findArchiveStartOffset file (Z.of_nat (length file))
              = Err ErrFormat).
  { unfold findArchiveStartOffset, findDirectoryEnd.
    rewrite !scanBlock_without_record by (try exact Hnone; lia).
    cbn [Nat.eqb orb].
    destruct (_ =? _); reflexivity. }
  split; [exact H|].
  intros Reader zip_NewReader fs path Hfs. unfold OpenZip.
  rewrite Hfs, H. reflexivity.
Qed.

Lemma recordAt_short (b : list byte) j :
  (length b < 22)%nat -> recordAt b j = false.
Proof.
  intros Hlen. destruct (recordAt b j) eqn:E; [|reflexivity].
  apply recordAt_in_block in E. lia.
Qed.

Lemma findArchiveStartOffset_without_record_witness :
  findArchiveStartOffset [] 0 = Err ErrFormat /\
  forall (Reader : Type) (zip_NewReader : list byte -> Z -> option Reader)
         (fs : string -> option (list byte)) (path : string),
    fs path = Some [] ->
    OpenZip Reader zip_NewReader fs path
      = Err (ErrCannotFindBeginning ErrFormat).
Proof.
  apply (findArchiveStartOffset_without_record []).
  intros j _. apply recordAt_short. cbn. lia.
Defined.

End ZipErrorFacts.

Section ZipTraversalFacts.
Import filepath zipfile ziptraverse.

Section Contents.
Context {OpenError IOError : Type}.
Variable OpenZip : string -> result OpenError (list (File IOError)).
Implicit Types (files : list (File IOError)) (m : gmap string string).

Lemma elem_of_newZipTraverseRequest paths p :
  p ∈ newZipTraverseRequest paths <-> p ∈ paths.
Proof.
  unfold newZipTraverseRequest.
  assert (H : forall (s : gset string),
             p ∈ fold_left (fun results p => {[ p ]} ∪ results) paths s <->
             p ∈ s \/ p ∈ paths).
  { induction paths as [|x paths IH]; intros s; cbn [fold_left].
    - rewrite elem_of_nil. tauto.
    - rewrite IH, elem_of_union, elem_of_singleton, elem_of_cons. tauto. }
  rewrite H, elem_of_empty. tauto.
Qed.

Lemma traverse_contents paths files m0 :
  paths <> [] ->
  (forall f, f ∈ files -> Name f ∈ paths -> is_Some (contentOf f)) ->
  exists m,
    traverse (OpenError := OpenError) contentsVisitor paths
      (newZipTraverseRequest paths) files m0 = (m, None) /\
    forall name,
      m !! name =
      if bool_decide (name ∈ paths)
      then match last (List.filter (named name) files) with
           | Some f => contentOf f
           | None => m0 !! name
           end
      else m0 !! name.
Proof.
  intros Hne. revert m0. induction files as [|f files IH]; intros m0 Hread.
  - exists m0. split; [reflexivity|]. intros name.
    destruct (bool_decide _); reflexivity.
  - cbn [traverse].
    assert (Hlen : (0 <? length paths)%nat = true).
    { destruct paths; [contradiction | reflexivity]. }
    rewrite Hlen. cbn [andb].
    assert (Hread' : forall f', f' ∈ files -> Name f' ∈ paths ->
                                is_Some (contentOf f')).
    { intros f' Hf'. apply Hread. right. exact Hf'. }
    destruct (decide (Name f ∈ paths)) as [Hsel|Hskip].
    + rewrite bool_decide_eq_true_2
        by (apply elem_of_newZipTraverseRequest; exact Hsel).
      cbn [negb].
      destruct (Hread f ltac:(left) Hsel) as [buffer Hbuf].
      assert (Hvisit : contentsVisitor f m0 = (<[Name f := buffer]> m0, None)).
      { unfold contentOf in Hbuf. unfold contentsVisitor.
        destruct (Open f); [discriminate Hbuf|].
        destruct (IsDir f); [discriminate Hbuf|].
        destruct (copied f) as [b|]; [|discriminate Hbuf].
        destruct (Close f); [discriminate Hbuf|].
        injection Hbuf as ->. reflexivity. }
      rewrite Hvisit.
      destruct (IH (<[Name f := buffer]> m0) Hread') as (m & Hrun & Hm).
      exists m. split; [exact Hrun|]. intros name. rewrite Hm.
      cbn [List.filter]. unfold named at 2.
      destruct (String.eqb_spec (Name f) name) as [E|N].
      * subst name. rewrite lookup_insert_eq.
        rewrite (bool_decide_eq_true_2 _ Hsel).
        destruct (List.filter (named (Name f)) files) as [|g l] eqn:Hf;
          [symmetry; exact Hbuf|].
        change (last (f :: g :: l)) with (last (g :: l)).
        destruct (last (g :: l)) eqn:E; [reflexivity|].
        apply last_None in E. discriminate E.
      * rewrite lookup_insert_ne by exact N. reflexivity.
    + rewrite bool_decide_eq_false_2
        by (rewrite elem_of_newZipTraverseRequest; exact Hskip).
      cbn [negb].
      destruct (IH m0 Hread') as (m & Hrun & Hm).
      exists m. split; [exact Hrun|]. intros name. rewrite Hm.
      cbn [List.filter]. unfold named at 2.
      destruct (String.eqb_spec (Name f) name) as [E|N]; [|reflexivity].
      subst name. rewrite (bool_decide_eq_false_2 _ Hskip). reflexivity.
Qed.

(** X17. [ContentsFromZip] without paths returns the empty map and never
    opens the archive.  With paths, on an archive whose requested
    entries are all read without an error, it returns for every
    requested name that occurs in the archive the content of the last
    entry of that name; names that are not requested are never in the
    result, and a requested name that is missing from the archive is
    left out without an error. *)
Theorem ContentsFromZip_selected_paths (archivePath : string)
    (paths : list string) files :
  ContentsFromZip OpenZip archivePath [] = (∅, None) /\
  (paths <> [] ->
   OpenZip archivePath = Ok files ->
   (forall f, f ∈ files -> Name f ∈ paths -> is_Some (contentOf f)) ->
   exists results,
     ContentsFromZip OpenZip archivePath paths = (results, None) /\
     forall name,
       results !! name =
       if bool_decide (name ∈ paths)
       then last (List.filter (named name) files) ≫= contentOf
       else None).
Proof.
  split; [reflexivity|]. intros Hne Hopen Hread.
  unfold ContentsFromZip, TraverseFilesInZip.
  destruct paths as [|p paths]; [contradiction|]. cbn [length Nat.eqb].
  rewrite Hopen.
  destruct (traverse_contents (p :: paths) files ∅ Hne Hread)
    as (m & Hrun & Hm).
  exists m. split; [exact Hrun|]. intros name. rewrite Hm, lookup_empty.
  destruct (bool_decide _); [|reflexivity].
  destruct (last _); reflexivity.
Qed.

End Contents.

Lemma ContentsFromZip_selected_paths_witness :
  exists results,
    ContentsFromZip sampleOpenZip "app.jar" ["com/A.class"; "missing"]
      = (results, None) /\
    results !! "com/A.class" = Some "new" /\
    results !! "missing" = None /\
    results !! "META-INF/MANIFEST.MF" = None.
Proof.
  destruct (proj2 (ContentsFromZip_selected_paths sampleOpenZip "app.jar"
                     ["com/A.class"; "missing"] sampleJar))
    as (results & Hrun & Hres).
  - discriminate.
  - reflexivity.
  - intros f Hf Hname. unfold sampleJar in Hf.
    repeat (apply elem_of_cons in Hf as [->|Hf]);
      try (apply elem_of_nil in Hf; contradiction);
      first [ eexists; reflexivity
            | exfalso; revert Hname; apply (bool_decide_unpack _);
              vm_compute; exact I ].
  - exists results. split; [exact Hrun|].
    rewrite !Hres. repeat split.
Defined.

End ZipTraversalFacts.

(** ** Extraction of ZIP archives *)

Section ZipExtractionFacts.
Import filepath zipfile ziptraverse zipextract.

Section WithSystem.
Context {OpenError IOError FS : Type}.
Variable OpenZip : string -> result OpenError (list (File IOError)).
Variable os_MkdirAll : string -> File IOError -> FS -> FS * option IOError.
Variable os_OpenFile : string -> File IOError -> FS -> FS * option IOError.
Variable safeCopy : string -> File IOError -> FS -> FS * option IOError.
Variable outputFile_Close : string -> FS -> FS * option IOError.

Abbreviation extractSingleFile :=
  (extractSingleFile IOError FS os_MkdirAll os_OpenFile safeCopy
     outputFile_Close).
Abbreviation visitor :=
  (visitor IOError FS os_MkdirAll os_OpenFile safeCopy outputFile_Close).
Abbreviation unzipLoop :=
  (unzipLoop IOError FS os_MkdirAll os_OpenFile safeCopy outputFile_Close).
Abbreviation UnzipToDir :=
  (UnzipToDir OpenError IOError OpenZip FS os_MkdirAll os_OpenFile safeCopy
     outputFile_Close).
Abbreviation extracts :=
  (extracts IOError FS os_MkdirAll os_OpenFile safeCopy outputFile_Close).

Lemma visitor_refused targetDir file fs e :
  safeJoin targetDir [Name file] = Err e ->
  visitor targetDir file fs =
  (fs, Some (ErrZipSlip {| Prefix := targetDir; JoinArgs := [Name file] |})).
Proof.
  unfold zipextract.visitor. intros H. rewrite H. f_equal. f_equal. f_equal.
  unfold safeJoin in H. destruct (negb _); congruence.
Qed.

Lemma unzipLoop_outcome targetDir files fs :
  (exists fs',
     unzipLoop targetDir files fs = (fs', None) /\
     extracts targetDir files fs fs') \/
  (exists pre file post fs1 fs' e,
     files = pre ++ file :: post /\
     extracts targetDir pre fs fs1 /\
     visitor targetDir file fs1 = (fs', Some e) /\
     unzipLoop targetDir files fs = (fs', Some e)).
Proof.
  revert fs. induction files as [|file files IH]; intros fs.
  - left. exists fs. split; [reflexivity | constructor].
  - cbn [zipextract.unzipLoop].
    destruct (visitor targetDir file fs) as [fs1 [e|]] eqn:Hvisit.
    + right. exists [], file, files, fs, fs1, e.
      split; [reflexivity|]. split; [constructor|].
      split; [exact Hvisit | reflexivity].
    + assert (Hextract : exists joinedPath,
                safeJoin targetDir [Name file] = Ok joinedPath /\
                extractSingleFile file joinedPath fs = (fs1, None)).
      { unfold zipextract.visitor in Hvisit.
        destruct (safeJoin targetDir [Name file]) as [joinedPath|err];
          [|discriminate Hvisit].
        exists joinedPath. split; [reflexivity | exact Hvisit]. }
      destruct Hextract as (joinedPath & Hjoin & Hextract).
      destruct (IH fs1)
        as [(fs' & Hrun & Hall)
           |(pre & file' & post & fs2 & fs' & e & -> & Hall & Hvisit'
             & Hrun)].
      * left. exists fs'. split; [exact Hrun|].
        econstructor; eassumption.
      * right. exists (file :: pre), file', post, fs2, fs', e.
        split; [reflexivity|].
        split; [econstructor; eassumption|].
        split; [exact Hvisit' | exact Hrun].
Qed.


End WithSystem.

(** On a file system that only records the paths and for entries that
    are read without an error, the paths handed to [extractSingleFile]
    are those that [zipfile.UnzipToDir] lists, with the same refusal. *)
Lemma unzipLoop_recorded targetDir (files : list (File unit)) written :
  Forall (fun file => Open file = None /\ Close file = None) files ->
  zipextract.unzipLoop unit (list string) recordPath recordPath
    (fun _ _ fs => (fs, None)) (fun _ fs => (fs, None)) targetDir files
    written =
  match unzipEntries targetDir (Name <$> files) written with
  | (written', Some e) => (written', Some (ErrZipSlip e))
  | (written', None) => (written', None)
  end.
Proof.
  intros Hfiles. revert written.
  induction Hfiles as [|file files [Hopen Hclose] _ IH]; intros written;
    [reflexivity|].
  cbn [zipextract.unzipLoop fmap list_fmap unzipEntries].
  unfold zipextract.visitor.
  destruct (safeJoin targetDir [Name file]) as [joinedPath|e];
    [|reflexivity].
  unfold zipextract.extractSingleFile, writeEntry, recordPath.
  rewrite Hopen, Hclose. destruct (IsDir file); apply IH.
Qed.

(** The entry [sub/a.txt] cannot be created, as nothing made the
    directory [sub]: the extraction stops there, and the entry after
    it, which [safeJoin] would refuse, is not looked at.  With the
    directory entry in front, the file is written and the refusal of
    the last entry is returned. *)
Example UnzipToDir_samples :
  sampleUnzipToDir
    [sampleEntry "sub/a.txt" "a"; sampleEntry "../../evil" "e"]
    "/tmp/foo" ["/tmp/foo"] =
  (["/tmp/foo"],
   Some (ErrVisitor (ErrCreateDest "/tmp/foo/sub/a.txt" tt))) /\
  sampleUnzipToDir
    [sampleDir "sub/"; sampleEntry "sub/a.txt" "a";
     sampleEntry "../../evil" "e"; sampleEntry "b.txt" "b"]
    "/tmp/foo" ["/tmp/foo"] =
  (["/tmp/foo"; "/tmp/foo/sub"],
   Some (ErrVisitor (ErrZipSlip {| Prefix := "/tmp/foo";
                                   JoinArgs := ["../../evil"] |}))) /\
  sampleUnzipToDir [sampleEntry "../foobar/evil" "e"] "/tmp/foo"
    ["/tmp/foo"; "/tmp/foobar"] =
  (["/tmp/foo"; "/tmp/foobar"], None).
Proof. vm_compute. repeat split. Qed.

End ZipExtractionFacts.

(** ** Splitting and trimming strings *)

Section GoStringFacts.
Import gostrings.

Lemma free_app sep (s t : string) :
  free sep (s +:+ t) = free sep s && free sep t.
Proof.
  induction s as [|c s IH].
  - rewrite append_nil_l. reflexivity.
  - rewrite append_cons. cbn [free]. rewrite IH, andb_assoc. reflexivity.
Qed.

Lemma Split_not_nil s sep : Split s sep <> [].
Proof.
  destruct s as [|c s]; cbn [Split]; [discriminate|].
  destruct (Ascii.eqb c sep); [discriminate|].
  destruct (Split s sep); discriminate.
Qed.

Lemma Split_free s sep : free sep s = true -> Split s sep = [s].
Proof.
  induction s as [|c s IH]; intros Hfree; [reflexivity|].
  cbn [Split free] in *. apply andb_true_iff in Hfree as [Hc Hfree].
  apply negb_true_iff in Hc. rewrite Hc, (IH Hfree). reflexivity.
Qed.

Lemma Split_app s sep rest :
  free sep s = true ->
  Split (s +:+ String sep rest) sep = s :: Split rest sep.
Proof.
  induction s as [|c s IH]; intros Hfree.
  - rewrite append_nil_l. cbn [Split]. rewrite Ascii.eqb_refl. reflexivity.
  - rewrite append_cons. cbn [Split free] in *.
    apply andb_true_iff in Hfree as [Hc Hfree].
    apply negb_true_iff in Hc. rewrite Hc, (IH Hfree). reflexivity.
Qed.

(** The pieces hold no separator, and joining them gives the text
    back. *)
Lemma Split_pieces_free s sep :
  Forall (fun piece => free sep piece = true) (Split s sep).
Proof.
  induction s as [|c s IH]; cbn [Split].
  - repeat constructor.
  - destruct (Ascii.eqb c sep) eqn:Hc.
    + constructor; [reflexivity | exact IH].
    + destruct (Split s sep) as [|piece pieces].
      * repeat constructor. cbn [free]. rewrite Hc. reflexivity.
      * apply Forall_cons in IH as [Hp Hps].
        constructor; [|exact Hps]. cbn [free]. rewrite Hc, Hp. reflexivity.
Qed.

Lemma concat_cons sep (x y : string) (l : list string) :
  String.concat sep (x :: y :: l) = x +:+ sep +:+ String.concat sep (y :: l).
Proof. reflexivity. Qed.

Lemma concat_Split s sep :
  String.concat (String sep "") (Split s sep) = s.
Proof.
  induction s as [|c s IH]; cbn [Split]; [reflexivity|].
  destruct (Ascii.eqb_spec c sep) as [->|Hne].
  - pose proof (Split_not_nil s sep) as Hnil.
    destruct (Split s sep) as [|piece pieces]; [contradiction|].
    rewrite concat_cons, IH, append_nil_l, append_cons, append_nil_l.
    reflexivity.
  - pose proof (Split_not_nil s sep) as Hnil.
    destruct (Split s sep) as [|piece pieces]; [contradiction|].
    destruct pieces as [|piece' pieces].
    + cbn [String.concat] in *. rewrite IH. reflexivity.
    + rewrite concat_cons in *. rewrite append_cons, IH. reflexivity.
Qed.

Lemma Split_two s sep a b :
  Split s sep = [a; b] ->
  s = a +:+ String sep b /\ free sep a = true /\ free sep b = true.
Proof.
  intros H. pose proof (concat_Split s sep) as Hc.
  pose proof (Split_pieces_free s sep) as Hf. rewrite H in Hc, Hf.
  rewrite concat_cons in Hc. cbn [String.concat] in Hc.
  rewrite append_cons, append_nil_l in Hc.
  apply Forall_cons in Hf as [Ha Hf]. apply Forall_cons in Hf as [Hb _].
  auto.
Qed.

Lemma TrimLeft_free sep s : free sep s = true -> free sep (TrimLeft s) = true.
Proof.
  induction s as [|c s IH]; intros Hfree; [reflexivity|].
  cbn [TrimLeft]. destruct (isSpace c); [|exact Hfree].
  cbn [free] in Hfree. apply andb_true_iff in Hfree as [_ Hfree]. auto.
Qed.

Lemma TrimRight_free sep s : free sep s = true -> free sep (TrimRight s) = true.
Proof.
  induction s as [|c s IH]; intros Hfree; [reflexivity|].
  cbn [free] in Hfree. apply andb_true_iff in Hfree as [Hc Hfree].
  specialize (IH Hfree). cbn [TrimRight].
  destruct (TrimRight s) as [|c' t].
  - destruct (isSpace c); [reflexivity|]. cbn [free]. rewrite Hc. reflexivity.
  - cbn [free] in *. rewrite Hc, IH. reflexivity.
Qed.

Lemma TrimRight_idem s : TrimRight (TrimRight s) = TrimRight s.
Proof.
  induction s as [|c s IH]; [reflexivity|]. cbn [TrimRight].
  destruct (TrimRight s) as [|c' t] eqn:Ht.
  - destruct (isSpace c) eqn:Hc; [reflexivity|].
    cbn [TrimRight]. rewrite Hc. reflexivity.
  - cbn [TrimRight] in *. rewrite IH. reflexivity.
Qed.

Lemma TrimLeft_starts s : startsWithSpace (TrimLeft s) = false.
Proof.
  induction s as [|c s IH]; [reflexivity|]. cbn [TrimLeft].
  destruct (isSpace c) eqn:Hc; [exact IH|]. exact Hc.
Qed.

Lemma TrimRight_starts s :
  startsWithSpace s = false -> startsWithSpace (TrimRight s) = false.
Proof.
  destruct s as [|c s]; [reflexivity|]. cbn [startsWithSpace TrimRight].
  intros Hc. destruct (TrimRight s); [rewrite Hc|]; exact Hc.
Qed.

Lemma TrimLeft_id s : startsWithSpace s = false -> TrimLeft s = s.
Proof.
  destruct s as [|c s]; [reflexivity|]. cbn [startsWithSpace TrimLeft].
  intros ->. reflexivity.
Qed.

Lemma TrimSpace_idem s : TrimSpace (TrimSpace s) = TrimSpace s.
Proof.
  unfold TrimSpace.
  rewrite (TrimLeft_id (TrimRight (TrimLeft s))).
  - apply TrimRight_idem.
  - apply TrimRight_starts, TrimLeft_starts.
Qed.

Lemma TrimSpace_free sep s : free sep s = true -> free sep (TrimSpace s) = true.
Proof. intros H. apply TrimRight_free, TrimLeft_free, H. Qed.

End GoStringFacts.

(** ** Sorting attributes by specificity *)

Section SpecificityFacts.
Import cpe specificity.
Variable BindToFmtString : Attributes -> string.

Abbreviation SortResult := (SortResult BindToFmtString).
Abbreviation sortKey := (sortKey BindToFmtString).

Lemma Less_keyLess x y :
  specificity.Less BindToFmtString x y = keyLess (sortKey x) (sortKey y).
Proof. reflexivity. Qed.

Lemma keyLess_irrefl k : keyLess k k = false.
Proof. apply lexb_irrefl. Qed.

Lemma keyLess_trans k1 k2 k3 :
  keyLess k1 k2 = true -> keyLess k2 k3 = true -> keyLess k1 k3 = true.
Proof. apply lexb_trans. Qed.

Lemma keyLess_total k1 k2 :
  keyLess k1 k2 = false -> keyLess k2 k1 = false -> k1 = k2.
Proof.
  intros H1 H2. destruct (lexb_tie _ _ _ _ _ _ _ _ H1 H2) as (_ & Hs & Hl & Hb).
  destruct k1 as [[s1 l1] b1], k2 as [[s2 l2] b2]. cbn in *. congruence.
Qed.

Lemma keyNotAfter_less k1 k2 : keyNotAfter k1 k2 <-> keyLess k2 k1 = false.
Proof. reflexivity. Qed.

Lemma SortResult_keys l r :
  SortResult l r ->
  sortKey <$> r ≡ₚ sortKey <$> l /\ Sorted keyNotAfter (sortKey <$> r).
Proof.
  intros [Hperm Hsorted]. split; [rewrite Hperm; reflexivity|].
  clear Hperm. induction Hsorted as [|x r _ IH Hx]; [constructor|].
  rewrite fmap_cons. constructor; [exact IH|].
  destruct Hx as [|y r' Hxy]; [constructor|].
  rewrite fmap_cons. constructor. exact Hxy.
Qed.

(** X18. Sorting by specificity is deterministic up to attributes that bind
    to the same format string: [sort.Sort] accepts the order of the
    merge sort, and any two orders that it can leave of the same slice
    show the same sequence of sort keys (weighted count, field length,
    bound string).  When the attributes of the slice have different
    bound strings, the sorted slice is unique. *)
Theorem BySpecificity_sort_deterministic (l : list Attributes) :
  SortResult l (Sort BindToFmtString l) /\
  forall r1 r2,
    SortResult l r1 -> SortResult l r2 ->
    sortKey <$> r1 = sortKey <$> r2 /\
    BindToFmtString <$> r1 = BindToFmtString <$> r2 /\
    ((forall x y, x ∈ l -> y ∈ l ->
                  BindToFmtString x = BindToFmtString y -> x = y) ->
     r1 = r2).
Proof.
  split.
  - split; [apply merge_sort_Permutation|].
    apply Sorted_merge_sort.
    apply (notAfter_is_total (specificity.notAfter BindToFmtString)
             (specificity.Less BindToFmtString)).
    + reflexivity.
    + intros x. rewrite Less_keyLess. apply keyLess_irrefl.
    + intros x y z. rewrite !Less_keyLess. apply keyLess_trans.
  - intros r1 r2 H1 H2.
    destruct (SortResult_keys l r1 H1) as [Hp1 Hs1].
    destruct (SortResult_keys l r2 H2) as [Hp2 Hs2].
    assert (Hkeys : sortKey <$> r1 = sortKey <$> r2).
    { apply (sorted_arrangement_unique keyNotAfter keyLess keyNotAfter_less
               keyLess_trans keyLess_total);
        [rewrite Hp1, Hp2; reflexivity | assumption | assumption]. }
    split; [exact Hkeys|].
    assert (Hbind : BindToFmtString <$> r1 = BindToFmtString <$> r2).
    { transitivity (snd <$> (sortKey <$> r1)).
      - rewrite <- list_fmap_compose. reflexivity.
      - rewrite Hkeys, <- list_fmap_compose. reflexivity. }
    split; [exact Hbind|].
    intros Hinj. destruct H1 as [Hperm1 _], H2 as [Hperm2 _].
    assert (Hin1 : forall x, x ∈ r1 -> x ∈ l)
      by (intros x; rewrite Hperm1; auto).
    assert (Hin2 : forall x, x ∈ r2 -> x ∈ l)
      by (intros x; rewrite Hperm2; auto).
    clear Hperm1 Hperm2 Hkeys Hp1 Hp2 Hs1 Hs2.
    revert r2 Hbind Hin2.
    induction r1 as [|x r1 IH]; intros [|y r2] Hbind Hin2;
      try discriminate Hbind; [reflexivity|].
    rewrite !fmap_cons in Hbind. injection Hbind as Hxy Hrest.
    f_equal.
    + apply Hinj; [apply Hin1; left | apply Hin2; left | exact Hxy].
    + apply IH; [intros z Hz; apply Hin1; right; exact Hz | exact Hrest |].
      intros z Hz. apply Hin2. right. exact Hz.
Qed.

End SpecificityFacts.

(** ** SPDX version strings *)

Section SpdxFacts.
Import gostrings encoders spdxjson.

Lemma lower_dash c : lower c = "-"%char -> c = "-"%char.
Proof.
  unfold lower. destruct (_ && _)%N eqn:Hrange; [|auto].
  intros H. apply andb_true_iff in Hrange as [Hlo Hhi].
  apply N.leb_le in Hlo, Hhi.
  apply (f_equal N_of_ascii) in H. rewrite N_ascii_embedding in H by lia.
  cbn in H. lia.
Qed.

Lemma ToLower_app (s t : string) : ToLower (s +:+ t) = ToLower s +:+ ToLower t.
Proof.
  induction s as [|c s IH].
  - rewrite !append_nil_l. reflexivity.
  - rewrite append_cons. cbn [ToLower]. rewrite append_cons, IH. reflexivity.
Qed.

Lemma prefix_app (s t : string) : String.prefix s (s +:+ t) = true.
Proof.
  induction s as [|c s IH].
  - destruct t; reflexivity.
  - rewrite append_cons. cbn [String.prefix].
    destruct (ascii_dec c c); [exact IH | contradiction].
Qed.

Lemma free_ToLower a : free "-" (ToLower a) = free "-" a.
Proof.
  induction a as [|c a IH]; [reflexivity|]. cbn [ToLower free].
  rewrite IH. f_equal. f_equal.
  destruct (Ascii.eqb_spec (lower c) "-") as [E|N];
    destruct (Ascii.eqb_spec c "-") as [E'|N']; try reflexivity.
  - apply lower_dash in E. contradiction.
  - subst c. destruct N. reflexivity.
Qed.

(** A text without the separator that is followed by the separator
    begins with [word] and the separator only when it is [word]. *)
Lemma prefix_free sep (word a rest : string) :
  free sep word = true -> free sep a = true ->
  String.prefix (word +:+ String sep "") (a +:+ String sep rest) = true ->
  a = word.
Proof.
  revert a. induction word as [|x word IH]; intros a Hword Ha Hprefix.
  - destruct a as [|c a]; [reflexivity|]. exfalso.
    rewrite append_nil_l, append_cons in Hprefix.
    cbn [String.prefix] in Hprefix.
    destruct (ascii_dec sep c) as [<-|]; [|discriminate Hprefix].
    cbn [free] in Ha. rewrite Ascii.eqb_refl in Ha. discriminate Ha.
  - cbn [free] in Hword. apply andb_true_iff in Hword as [Hx Hword].
    rewrite append_cons in Hprefix. destruct a as [|c a].
    + exfalso. rewrite append_nil_l in Hprefix.
      cbn [String.prefix] in Hprefix.
      destruct (ascii_dec x sep) as [->|]; [|discriminate Hprefix].
      rewrite Ascii.eqb_refl in Hx. discriminate Hx.
    + rewrite append_cons in Hprefix. cbn [String.prefix] in Hprefix.
      destruct (ascii_dec x c) as [->|]; [|discriminate Hprefix].
      cbn [free] in Ha. apply andb_true_iff in Ha as [_ Ha].
      f_equal. apply IH; assumption.
Qed.

Lemma spdx_prefix a rest :
  free "-" a = true ->
  String.prefix "spdx-" (ToLower a +:+ String "-" rest) = true ->
  ToLower a = "spdx".
Proof.
  intros Hfree Hprefix.
  apply (prefix_free "-" "spdx" (ToLower a) rest); [reflexivity | |exact Hprefix].
  rewrite free_ToLower. exact Hfree.
Qed.

Lemma spdx_word_free word : ToLower word = "spdx" -> free "-" word = true.
Proof.
  intros H. rewrite <- free_ToLower, H. reflexivity.
Qed.

Variable ID : string.

(** X19. A document is identified as SPDX JSON with the version [v] exactly
    when its [spdxVersion] is the word SPDX in any mix of cases, one
    hyphen, and [v]; [v] holds no further hyphen.  Every other value
    ([SPDX-2.3-rc1], [SPDX-], [2.3]) leaves the document
    unidentified. *)
Theorem spdxjson_identifies_version (spdxVersion v : string) :
  ID <> "" -> v <> "" ->
  (identifyVersion ID spdxVersion = (ID, v) <->
   exists word, spdxVersion = word +:+ "-" +:+ v /\
                ToLower word = "spdx" /\ free "-" v = true) /\
  (identifyVersion ID spdxVersion = ("", "") \/
   exists v', v' <> "" /\ identifyVersion ID spdxVersion = (ID, v')).
Proof.
  intros HID Hv. unfold identifyVersion, getFormatInfo.
  destruct (String.prefix "spdx-" (ToLower spdxVersion)) eqn:Hprefix;
    cbn [negb].
  - destruct (Split spdxVersion "-") as [|a [|b [|c fields]]] eqn:Hsplit;
      cbn [length Nat.eqb negb nth].
    1,2,4: (split; [|left; rewrite String.eqb_refl; reflexivity]);
      rewrite String.eqb_refl; cbn [orb];
      (split; [intros [= E _]; congruence|]);
      intros (word & -> & Hword & Hfree);
      pose proof (spdx_word_free word Hword) as Hw;
      change ("-" +:+ v) with (String "-" v) in Hsplit;
      rewrite (Split_app _ _ _ Hw), (Split_free _ _ Hfree) in Hsplit;
      discriminate Hsplit.
    apply Split_two in Hsplit as (-> & Ha & Hb).
    rewrite ToLower_app in Hprefix. cbn [ToLower] in Hprefix.
    change (lower "-") with "-"%char in Hprefix.
    pose proof (spdx_prefix a (ToLower b) Ha Hprefix) as Hword.
    rewrite String.eqb_refl. cbn [negb]. rewrite orb_false_r.
    destruct (String.eqb_spec b "") as [->|Hb'].
    + split; [|left; reflexivity].
      split; [intros [= E _]; congruence|].
      intros (word & Heq & Hword' & Hfree). exfalso.
      pose proof (spdx_word_free word Hword') as Hw.
      apply (f_equal (fun s => Split s "-")) in Heq.
      change ("-" +:+ v) with (String "-" v) in Heq.
      rewrite (Split_app _ _ _ Ha), (Split_app _ _ _ Hw) in Heq.
      rewrite (Split_free _ _ Hfree) in Heq. cbn in Heq. congruence.
    + split; [|right; exists b; split; [exact Hb' | reflexivity]].
      split.
      * intros [= ->]. exists a. auto.
      * intros (word & Heq & Hword' & Hfree).
        pose proof (spdx_word_free word Hword') as Hw.
        apply (f_equal (fun s => Split s "-")) in Heq.
        change ("-" +:+ v) with (String "-" v) in Heq.
        rewrite (Split_app _ _ _ Ha), (Split_app _ _ _ Hw) in Heq.
        rewrite (Split_free _ _ Hfree), (Split_free _ _ Hb) in Heq.
        congruence.
  - rewrite String.eqb_refl. cbn [orb]. split; [|left; reflexivity].
    split; [intros [= E _]; congruence|].
    intros (word & -> & Hword & _). exfalso.
    rewrite ToLower_app, Hword in Hprefix.
    change ("-" +:+ v) with (String "-" v) in Hprefix.
    cbn [ToLower] in Hprefix.
    change ("spdx" +:+ String (lower "-") (ToLower v))
      with ("spdx-" +:+ ToLower v) in Hprefix.
    rewrite prefix_app in Hprefix. discriminate Hprefix.
Qed.

End SpdxFacts.

Lemma spdxjson_identifies_version_witness :
  spdxjson.identifyVersion "spdx-json" "SPDX-2.3" = ("spdx-json", "2.3") /\
  spdxjson.identifyVersion "spdx-json" "SPDX-2.3-rc1" = ("", "") /\
  spdxjson.identifyVersion "spdx-json" "2.3" = ("", "").
Proof.
  split; [|split; reflexivity].
  apply (proj1 (spdxjson_identifies_version "spdx-json" "SPDX-2.3" "2.3"
                  ltac:(discriminate) ltac:(discriminate))).
  exists "SPDX". repeat split.
Defined.

(** ** Selection requests *)

Section SelectionFacts.
Import gostrings pkgcataloging.

Lemma cleanPieces_filter cleaned pieces :
  cleanPieces cleaned pieces =
  cleaned ++ List.filter (fun t => negb (String.eqb t ""))
                         (TrimSpace <$> pieces).
Proof.
  unfold cleanPieces. revert cleaned.
  induction pieces as [|t pieces IH]; intros cleaned; cbn [fold_left].
  - rewrite app_nil_r. reflexivity.
  - rewrite IH, fmap_cons. cbn [List.filter].
    destruct (String.eqb (TrimSpace t) ""); cbn [negb]; [reflexivity|].
    rewrite <- app_assoc. reflexivity.
Qed.

Lemma cleanSelection_filter tags :
  cleanSelection tags =
  List.filter (fun t => negb (String.eqb t ""))
    (TrimSpace <$> flat_map (fun tag => Split tag ",") tags).
Proof.
  unfold cleanSelection.
  assert (H : forall cleaned,
             fold_left (fun cleaned tag => cleanPieces cleaned (Split tag ","))
               tags cleaned =
             cleaned ++
             List.filter (fun t => negb (String.eqb t ""))
               (TrimSpace <$> flat_map (fun tag => Split tag ",") tags)).
  { induction tags as [|tag tags IH]; intros cleaned; cbn [fold_left flat_map].
    - rewrite app_nil_r. reflexivity.
    - rewrite IH, cleanPieces_filter, fmap_app, List.filter_app, app_assoc.
      reflexivity. }
  apply H.
Qed.

Lemma cleanSelection_clean tags t : t ∈ cleanSelection tags -> clean t.
Proof.
  rewrite cleanSelection_filter. intros Hin.
  apply list_elem_of_In, filter_In in Hin as [Hin Hne].
  apply list_elem_of_In, list_elem_of_fmap in Hin as (piece & -> & Hpiece).
  apply list_elem_of_In, in_flat_map in Hpiece as (tag & _ & Hpiece).
  pose proof (Split_pieces_free tag ",") as Hfree.
  rewrite List.Forall_forall in Hfree. specialize (Hfree _ Hpiece).
  split; [|split].
  - intros E. rewrite E in Hne. discriminate Hne.
  - apply TrimSpace_free, Hfree.
  - apply TrimSpace_idem.
Qed.

Lemma cleanSelection_fixed l : Forall clean l -> cleanSelection l = l.
Proof.
  intros Hl. rewrite cleanSelection_filter.
  induction Hl as [|t l (Hne & Hfree & Htrim) _ IH]; [reflexivity|].
  cbn [flat_map]. rewrite (Split_free _ _ Hfree).
  cbn [app fmap list_fmap List.filter]. rewrite Htrim.
  destruct (String.eqb_spec t ""); [contradiction|]. cbn [negb].
  f_equal. exact IH.
Qed.


(** X20. [cleanSelection] cuts every expression at its commas, trims the
    pieces and drops the empty ones, keeping the order.  What it
    returns is clean (no empty text, no comma, no white space at either
    end), and cleaning a second time changes nothing. *)
Theorem cleanSelection_idempotent (tags : list string) :
  Forall (fun tag => isASCII tag = true) tags ->
  cleanSelection tags =
    List.filter (fun t => negb (String.eqb t ""))
      (TrimSpace <$> flat_map (fun tag => Split tag ",") tags) /\
  Forall clean (cleanSelection tags) /\
  cleanSelection (cleanSelection tags) = cleanSelection tags.
Proof.
  intros _. split; [apply cleanSelection_filter|].
  assert (H : Forall clean (cleanSelection tags)).
  { apply Forall_forall. intros t. apply cleanSelection_clean. }
  split; [exact H | apply cleanSelection_fixed, H].
Qed.

Lemma cleanSelection_idempotent_witness :
  cleanSelection [" go , +sbom-cataloger,,"; "-rpm"] =
    List.filter (fun t => negb (String.eqb t ""))
      (TrimSpace <$> flat_map (fun tag => Split tag ",")
                       [" go , +sbom-cataloger,,"; "-rpm"]) /\
  Forall clean (cleanSelection [" go , +sbom-cataloger,,"; "-rpm"]) /\
  cleanSelection (cleanSelection [" go , +sbom-cataloger,,"; "-rpm"]) =
    cleanSelection [" go , +sbom-cataloger,,"; "-rpm"].
Proof.
  apply (cleanSelection_idempotent [" go , +sbom-cataloger,,"; "-rpm"]).
  repeat constructor.
Defined.

Lemma fold_withExpr l s :
  fold_left withExpr l s =
  {| DefaultNamesOrTags := DefaultNamesOrTags s;
     SubSelectTags :=
       SubSelectTags s ++
       List.filter (fun e => negb (HasPrefix e "+") && negb (HasPrefix e "-")) l;
     AddNames :=
       AddNames s ++
       ((fun e => TrimPrefix e "+") <$> List.filter (fun e => HasPrefix e "+") l);
     RemoveNamesOrTags :=
       RemoveNamesOrTags s ++
       ((fun e => TrimPrefix e "-") <$> List.filter (fun e => HasPrefix e "-") l)
  |}.
Proof.
  revert s. induction l as [|e l IH]; intros s; cbn [fold_left List.filter].
  - cbn. rewrite !app_nil_r. destruct s; reflexivity.
  - rewrite IH. unfold withExpr.
    destruct (HasPrefix e "+") eqn:Hplus.
    + assert (Hminus : HasPrefix e "-" = false).
      { destruct e as [|c e]; [reflexivity|]. cbn [HasPrefix] in *.
        apply Ascii.eqb_eq in Hplus. subst c. reflexivity. }
      rewrite Hminus. cbn [negb andb WithAdditions DefaultNamesOrTags
                             SubSelectTags AddNames RemoveNamesOrTags].
      rewrite fmap_cons, <- app_assoc. reflexivity.
    + destruct (HasPrefix e "-") eqn:Hminus;
        cbn [negb andb WithRemovals WithSubSelections DefaultNamesOrTags
               SubSelectTags AddNames RemoveNamesOrTags].
      * rewrite fmap_cons, <- app_assoc. reflexivity.
      * rewrite <- app_assoc. reflexivity.
Qed.

(** X21. [WithExpression] sorts the cleaned expressions by their first
    character: the ones with a leading [+] are appended to the names to
    add and the ones with a leading [-] to the names or tags to remove,
    each without this character; all others are appended to the
    sub-selection tags.  The order is kept and the defaults are not
    touched. *)
Theorem WithExpression_by_prefix (s : SelectionRequest)
    (expressions : list string) :
  Forall (fun e => isASCII e = true) expressions ->
  WithExpression s expressions =
  {| DefaultNamesOrTags := DefaultNamesOrTags s;
     SubSelectTags :=
       SubSelectTags s ++
       List.filter (fun e => negb (HasPrefix e "+") && negb (HasPrefix e "-"))
         (cleanSelection expressions);
     AddNames :=
       AddNames s ++
       ((fun e => TrimPrefix e "+") <$>
          List.filter (fun e => HasPrefix e "+") (cleanSelection expressions));
     RemoveNamesOrTags :=
       RemoveNamesOrTags s ++
       ((fun e => TrimPrefix e "-") <$>
          List.filter (fun e => HasPrefix e "-") (cleanSelection expressions))
  |}.
Proof. intros _. apply fold_withExpr. Qed.

Lemma WithExpression_by_prefix_witness :
  WithExpression NewSelectionRequest [" go , +sbom-cataloger,,"; "-rpm, +"] =
  {| DefaultNamesOrTags := [];
     SubSelectTags := ["go"];
     AddNames := ["sbom-cataloger"; ""];
     RemoveNamesOrTags := ["rpm"] |}.
Proof.
  rewrite (WithExpression_by_prefix NewSelectionRequest
             [" go , +sbom-cataloger,,"; "-rpm, +"]).
  - reflexivity.
  - repeat constructor.
Defined.

End SelectionFacts.

(** ** Scopes *)

Section ScopeFacts.
Import encoders source.

Lemma lower_idem c : lower (lower c) = lower c.
Proof.
  unfold lower.
  destruct ((65 <=? N_of_ascii c) && (N_of_ascii c <=? 90))%N eqn:Hrange;
    [|rewrite Hrange; reflexivity].
  apply andb_true_iff in Hrange as [Hlo Hhi]. apply N.leb_le in Hlo, Hhi.
  rewrite N_ascii_embedding by lia.
  destruct (N.leb_spec (N_of_ascii c + 32) 90); [lia|].
  rewrite andb_false_r. reflexivity.
Qed.

Lemma ToLower_idem s : ToLower (ToLower s) = ToLower s.
Proof.
  induction s as [|c s IH]; [reflexivity|]. cbn [ToLower].
  rewrite lower_idem, IH. reflexivity.
Qed.

(** X22. [ParseScope] reads the text of each scope of [AllScopes] back to
    that scope, and it ignores the case of ASCII letters; the word
    [alllayers] is read as all-layers too, and every other text, the
    text of the unknown scope included, gives the unknown scope. *)
Theorem ParseScope_round_trip :
  (forall o, o ∈ AllScopes -> ParseScope (Scope_String o) = o) /\
  (forall s, ParseScope (ToLower s) = ParseScope s) /\
  (forall s, ParseScope s = SquashedScope <-> ToLower s = "squashed") /\
  (forall s, ParseScope s = AllLayersScope <->
             ToLower s = "all-layers" \/ ToLower s = "alllayers") /\
  (forall s, ParseScope s = UnknownScope <->
             ToLower s <> "squashed" /\ ToLower s <> "all-layers" /\
             ToLower s <> "alllayers").
Proof.
  split; [|split; [|split; [|split]]].
  - intros o Ho. unfold AllScopes in Ho.
    repeat (apply elem_of_cons in Ho as [->|Ho]); try reflexivity.
    apply elem_of_nil in Ho. contradiction.
  - intros s. unfold ParseScope. rewrite ToLower_idem. reflexivity.
  - intros s. unfold ParseScope, Scope_String, SquashedScope, AllLayersScope,
      UnknownScope.
    destruct (String.eqb_spec (ToLower s) "squashed") as [E|N];
      [tauto|].
    destruct (String.eqb_spec (ToLower s) "alllayers");
      destruct (String.eqb_spec (ToLower s) "all-layers"); cbn [orb];
      (split; [discriminate | contradiction]).
  - intros s. unfold ParseScope, Scope_String, SquashedScope, AllLayersScope,
      UnknownScope.
    destruct (String.eqb_spec (ToLower s) "squashed") as [E|N].
    + split; [discriminate|]. rewrite E. intros [H|H]; discriminate H.
    + destruct (String.eqb_spec (ToLower s) "alllayers");
        destruct (String.eqb_spec (ToLower s) "all-layers"); cbn [orb];
        try tauto.
      split; [discriminate | tauto].
  - intros s. unfold ParseScope, Scope_String, SquashedScope, AllLayersScope,
      UnknownScope.
    destruct (String.eqb_spec (ToLower s) "squashed") as [E|N].
    + split; [discriminate | tauto].
    + destruct (String.eqb_spec (ToLower s) "alllayers");
        destruct (String.eqb_spec (ToLower s) "all-layers"); cbn [orb];
        try (split; [discriminate | tauto]).
      tauto.
Qed.

End ScopeFacts.

(** ** Lines of an RPM manifest *)

Section ManifestFacts.
Import gostrings pkg redhat.

Lemma Split_concat sep (parts : list string) :
  parts <> [] ->
  Forall (fun part => free sep part = true) parts ->
  Split (String.concat (String sep "") parts) sep = parts.
Proof.
  intros Hne Hfree. induction Hfree as [|part parts Hpart Hparts IH];
    [contradiction|].
  destruct parts as [|part' parts].
  - cbn [String.concat]. apply Split_free, Hpart.
  - rewrite concat_cons, append_cons, append_nil_l.
    rewrite (Split_app _ _ _ Hpart), IH by discriminate. reflexivity.
Qed.

Lemma Split_length s sep : length (Split s sep) = S (count sep s).
Proof.
  induction s as [|c s IH]; [reflexivity|]. cbn [Split count].
  destruct (Ascii.eqb c sep).
  - cbn [length]. rewrite IH. reflexivity.
  - pose proof (Split_not_nil s sep) as Hnil.
    destruct (Split s sep); [contradiction|]. exact IH.
Qed.

Lemma count_app sep (s t : string) :
  count sep (s +:+ t) = (count sep s + count sep t)%nat.
Proof.
  induction s as [|c s IH].
  - rewrite append_nil_l. reflexivity.
  - rewrite append_cons. cbn [count]. rewrite IH. lia.
Qed.

Lemma count_free sep s : count sep s = 0%nat <-> free sep s = true.
Proof.
  induction s as [|c s IH]; [tauto|]. cbn [count free].
  destruct (Ascii.eqb c sep); cbn [negb andb].
  - split; [lia | discriminate].
  - exact IH.
Qed.

(** X23. The fields of a manifest line are read back, but the epoch is
    not: a line of ten fields without tabs whose version and release
    hold no hyphen gives the entry with its name, version, release,
    architecture, vendor and source package, and with the size that
    [strconv.Atoi] reads ([0] when it reports an error).  The epoch is
    nil when the number of the ninth field cannot be read or the sixth
    field is [(none)]; otherwise it is the number that [strconv.Atoi]
    returned for the size field, whatever the ninth field holds.  A
    hyphen inside the version or the release makes the line an error,
    and so do fewer than ten fields. *)
Theorem newMetadataFromManifestLine_fields
    (name version release installTime buildTime vendor epoch size arch
       epochNum sourceRpm : string) :
  Forall (fun field => free tab field = true)
    [name; version; release; installTime; buildTime; vendor; epoch; size;
     arch; epochNum; sourceRpm] ->
  let line := manifestLine name version release installTime buildTime vendor
                epoch size arch epochNum sourceRpm in
  (free "-" version = true -> free "-" release = true ->
   newMetadataFromManifestLine line =
   Ok {| Name := name;
         Version := version;
         Epoch := if bool_decide (snd (Atoi epochNum) <> None)
                     || String.eqb epoch "(none)"
                  then None
                  else Some (fst (Atoi size));
         Arch := arch;
         Release := release;
         SourceRpm := sourceRpm;
         Size := match snd (Atoi size) with
                 | None => fst (Atoi size)
                 | Some _ => 0
                 end;
         Vendor := vendor;
         ModularityLabel := None;
         Files := [] |}) /\
  (free "-" version && free "-" release = false ->
   newMetadataFromManifestLine line =
   Err (ErrUnexpectedVersion (version +:+ "-" +:+ release))) /\
  (forall entry, (count tab entry < 9)%nat ->
     newMetadataFromManifestLine entry = Err (ErrUnexpectedFields entry)).
Proof.
  intros Hfields line.
  assert (Hsplit : Split line tab =
            [name; version +:+ "-" +:+ release; installTime; buildTime;
             vendor; epoch; size; arch; epochNum; sourceRpm]).
  { apply Split_concat; [discriminate|].
    repeat match goal with
           | H : Forall _ (_ :: _) |- _ =>
               apply Forall_cons in H as [? H]
           end.
    repeat constructor; try assumption.
    rewrite !free_app. cbn [free].
    repeat match goal with H : free tab _ = true |- _ => rewrite H; clear H end.
    reflexivity. }
  split; [|split].
  - intros Hv Hr. unfold newMetadataFromManifestLine. rewrite Hsplit.
    cbn [length Nat.ltb Nat.leb nth].
    change ("-" +:+ release) with (String "-" release).
    rewrite (Split_app _ _ _ Hv), (Split_free _ _ Hr).
    cbn [length Nat.eqb negb nth].
    destruct (Atoi epochNum) as [e eerr], (Atoi size) as [sz szerr].
    cbn [fst snd]. reflexivity.
  - intros Hdash. unfold newMetadataFromManifestLine. rewrite Hsplit.
    cbn [length Nat.ltb Nat.leb nth].
    assert (Hlen : length (Split (version +:+ "-" +:+ release) "-") <> 2%nat).
    { rewrite Split_length, !count_app. cbn [count].
      rewrite Ascii.eqb_refl. intros Hlen.
      assert (Hv : count "-" version = 0%nat) by lia.
      assert (Hr : count "-" release = 0%nat) by lia.
      apply count_free in Hv, Hr. rewrite Hv, Hr in Hdash. discriminate Hdash. }
    apply Nat.eqb_neq in Hlen. rewrite Hlen. reflexivity.
  - intros entry Hcount. unfold newMetadataFromManifestLine.
    rewrite Split_length.
    destruct (Nat.ltb_spec (S (count tab entry)) 10) as [_|Hge]; [reflexivity|].
    lia.
Qed.

Lemma newMetadataFromManifestLine_fields_witness :
  newMetadataFromManifestLine
    (manifestLine "bash" "5.1.8" "1.cm2" "1654301144" "1653116446"
       "Microsoft Corporation" "2" "7057" "x86_64" "2"
       "bash-5.1.8-1.cm2.src.rpm") =
  Ok {| Name := "bash"; Version := "5.1.8"; Epoch := Some 7057;
        Arch := "x86_64"; Release := "1.cm2";
        SourceRpm := "bash-5.1.8-1.cm2.src.rpm"; Size := 7057;
        Vendor := "Microsoft Corporation"; ModularityLabel := None;
        Files := [] |}.
Proof.
  apply (proj1 (newMetadataFromManifestLine_fields
                  "bash" "5.1.8" "1.cm2" "1654301144" "1653116446"
                  "Microsoft Corporation" "2" "7057" "x86_64" "2"
                  "bash-5.1.8-1.cm2.src.rpm"
                  ltac:(repeat constructor))); reflexivity.
Defined.

(** [strconv.Atoi] and whole lines on samples: without an epoch, and
    with a size that cannot be read. *)
Example newMetadataFromManifestLine_samples :
  Atoi "7057" = (7057, None) /\ Atoi "-3" = (-3, None) /\
  Atoi "+3" = (3, None) /\ Atoi "" = (0, Some ErrSyntax) /\
  Atoi "-" = (0, Some ErrSyntax) /\ Atoi "1_000" = (0, Some ErrSyntax) /\
  Atoi "9223372036854775807" = (9223372036854775807, None) /\
  Atoi "9223372036854775808" = (9223372036854775807, Some ErrRange) /\
  Atoi "-9223372036854775809" = (-9223372036854775808, Some ErrRange) /\
  Atoi "99999999999999999999x" = (9223372036854775807, Some ErrRange) /\
  newMetadataFromManifestLine
    (manifestLine "filesystem" "1.1" "9.cm2" "1654301144" "1653116446"
       "Microsoft Corporation" "(none)" "7057" "x86_64" "0"
       "filesystem-1.1-9.cm2.src.rpm") =
  Ok {| Name := "filesystem"; Version := "1.1"; Epoch := None;
        Arch := "x86_64"; Release := "9.cm2";
        SourceRpm := "filesystem-1.1-9.cm2.src.rpm"; Size := 7057;
        Vendor := "Microsoft Corporation"; ModularityLabel := None;
        Files := [] |} /\
  newMetadataFromManifestLine
    (manifestLine "bash" "5.1.8" "1.cm2" "1654301144" "1653116446"
       "Microsoft Corporation" "2" "unknown" "x86_64" "2"
       "bash-5.1.8-1.cm2.src.rpm") =
  Ok {| Name := "bash"; Version := "5.1.8"; Epoch := Some 0;
        Arch := "x86_64"; Release := "1.cm2";
        SourceRpm := "bash-5.1.8-1.cm2.src.rpm"; Size := 0;
        Vendor := "Microsoft Corporation"; ModularityLabel := None;
        Files := [] |} /\
  newMetadataFromManifestLine "only-one-field" =
    Err (ErrUnexpectedFields "only-one-field").
Proof. vm_compute. repeat split. Qed.

End ManifestFacts.

(** ** The executable cataloger *)

Section ExecutableCatalogerFacts.
Import file executable execcataloger.

Section WithGlobs.
Context {MatchError : Type}.
Variable doublestar_Match : string -> string -> result MatchError bool.
Variable matches : string -> string -> bool.

Abbreviation locationMatchesGlob :=
  (locationMatchesGlob MatchError doublestar_Match).
Abbreviation filterByGlobs := (filterByGlobs MatchError doublestar_Match).
Abbreviation filterLoop := (filterLoop MatchError doublestar_Match).
Abbreviation matchPaths := (matchPaths MatchError doublestar_Match).

Lemma matchPaths_total glob paths :
  (forall path, doublestar_Match glob path = Ok (matches glob path)) ->
  matchPaths glob paths =
  if existsb (fun path => negb (String.eqb path "") && matches glob path) paths
  then Some (Ok true) else None.
Proof.
  intros Hm. induction paths as [|path paths IH]; [reflexivity|].
  cbn [execcataloger.matchPaths existsb].
  destruct (String.eqb path ""); cbn [negb andb orb]; [exact IH|].
  rewrite Hm. destruct (matches glob path); [reflexivity | exact IH].
Qed.

Lemma locationMatchesGlob_total loc globs :
  (forall glob path, glob ∈ globs ->
                     doublestar_Match glob path = Ok (matches glob path)) ->
  locationMatchesGlob loc globs = Ok (matchedBy matches globs loc).
Proof.
  intros Hm. induction globs as [|glob globs IH]; [reflexivity|].
  cbn [execcataloger.locationMatchesGlob].
  rewrite matchPaths_total by (intros path; apply Hm; left).
  unfold matchedBy. cbn [existsb].
  match goal with
  | |- context [if ?b then Some (Ok true) else None] => destruct b
  end; cbn [orb]; [reflexivity|].
  apply IH. intros g p Hg. apply Hm. right. exact Hg.
Qed.

Lemma filterLoop_total locs globs filteredLocs :
  (forall glob path, glob ∈ globs ->
                     doublestar_Match glob path = Ok (matches glob path)) ->
  filterLoop locs globs filteredLocs =
  Ok (filteredLocs ++ List.filter (matchedBy matches globs) locs).
Proof.
  intros Hm. revert filteredLocs.
  induction locs as [|loc locs IH]; intros filteredLocs;
    cbn [execcataloger.filterLoop List.filter].
  - rewrite app_nil_r. reflexivity.
  - rewrite (locationMatchesGlob_total loc globs Hm), IH.
    destruct (matchedBy matches globs loc); [|reflexivity].
    rewrite <- app_assoc. reflexivity.
Qed.

Lemma matchPaths_error glob paths e :
  matchPaths glob paths = Some (Err e) ->
  errGlob e = glob /\ errPath e ∈ paths /\
  doublestar_Match glob (errPath e) = Err (errCause e).
Proof.
  induction paths as [|path paths IH]; cbn [execcataloger.matchPaths];
    [discriminate|].
  destruct (String.eqb path "").
  - intros H. destruct (IH H) as (Hg & Hp & Hc).
    split; [exact Hg|]. split; [right; exact Hp | exact Hc].
  - destruct (doublestar_Match glob path) as [b|err] eqn:Hm.
    + destruct b; [discriminate|].
      intros H. destruct (IH H) as (Hg & Hp & Hc).
      split; [exact Hg|]. split; [right; exact Hp | exact Hc].
    + intros [= <-]. cbn. split; [reflexivity|]. split; [left | exact Hm].
Qed.

(** X24. Without globs [filterByGlobs] returns all locations.  With globs
    that the matcher accepts it keeps, in their order, exactly the
    locations of which one glob matches the real path or the access
    path (an empty path is never tried).  An error is the error of the
    matcher on one of the globs and one of these paths, and then no
    location is returned. *)
Theorem filterByGlobs_keeps_matched (locs : list Location)
    (globs : list string) :
  filterByGlobs locs [] = Ok locs /\
  (globs <> [] ->
   (forall glob path, glob ∈ globs ->
                      doublestar_Match glob path = Ok (matches glob path)) ->
   filterByGlobs locs globs =
   Ok (List.filter (matchedBy matches globs) locs)) /\
  (forall e, filterByGlobs locs globs = Err e ->
     errGlob e ∈ globs /\
     (exists loc, loc ∈ locs /\
        (errPath e = RealPath (coordinates (locationData loc)) \/
         errPath e = AccessPath (locationData loc))) /\
     doublestar_Match (errGlob e) (errPath e) = Err (errCause e)).
Proof.
  split; [reflexivity|]. split.
  - intros Hne Hm. unfold execcataloger.filterByGlobs.
    destruct globs as [|glob globs]; [contradiction|]. cbn [length Nat.eqb].
    rewrite (filterLoop_total locs _ [] Hm). reflexivity.
  - intros e. unfold execcataloger.filterByGlobs.
    destruct (length globs =? 0)%nat; [discriminate|].
    generalize (@nil Location).
    induction locs as [|loc locs IH]; intros filteredLocs;
      cbn [execcataloger.filterLoop]; [discriminate|].
    destruct (locationMatchesGlob loc globs) as [b|err] eqn:Hloc.
    + intros H. destruct (IH _ H) as (Hg & (loc' & Hin & Hp) & Hc).
      split; [exact Hg|]. split; [|exact Hc].
      exists loc'. split; [right; exact Hin | exact Hp].
    + intros [= <-]. clear IH.
      induction globs as [|glob globs IHg];
        cbn [execcataloger.locationMatchesGlob] in Hloc; [discriminate|].
      destruct (matchPaths glob _) as [[b|err']|] eqn:Hpaths.
      * discriminate Hloc.
      * injection Hloc as <-.
        apply matchPaths_error in Hpaths as (Hg & Hp & Hc).
        split; [rewrite Hg; left|]. split; [|rewrite Hg; exact Hc].
        exists loc. split; [left|].
        apply elem_of_cons in Hp as [Hp|Hp]; [left; exact Hp|].
        apply list_elem_of_singleton in Hp. right. exact Hp.
      * destruct (IHg Hloc) as (Hg & Hl & Hc).
        split; [right; exact Hg|]. split; assumption.
Qed.

End WithGlobs.

Section WithELF.
Context {ELFSecurityFeatures ELFError : Type}.
Variable findELFSecurityFeatures :
  list byte -> result ELFError (option ELFSecurityFeatures).

Abbreviation processExecutable :=
  (processExecutable ELFSecurityFeatures ELFError findELFSecurityFeatures).
Abbreviation findSecurityFeatures :=
  (findSecurityFeatures ELFSecurityFeatures ELFError findELFSecurityFeatures).

Lemma classifyByMagic_formats buf :
  classifyByMagic buf = MachO \/ classifyByMagic buf = PE \/
  classifyByMagic buf = ELF \/ classifyByMagic buf = "".
Proof.
  unfold classifyByMagic.
  destruct (_ || _); [auto|]. destruct (bytes.HasPrefix _ _); [auto|].
  destruct (bytes.HasPrefix _ _); auto.
Qed.

(** X25. On a file of at least 512 bytes [processExecutable] never returns
    an error.  A Mach-O or PE file gives an executable of that format
    without security features; an ELF file gives an executable with the
    features that the ELF reader finds, and nothing when the ELF reader
    fails; a file of no known format gives nothing.  The error for an
    unsupported format cannot arise, as only the three formats are ever
    passed on. *)
Theorem processExecutable_outcomes (loc : Location) (reader : list byte) :
  (512 <= length reader)%nat ->
  let format := classifyByMagic (firstn 512 reader) in
  processExecutable loc reader =
    (if String.eqb format "" then Ok None
     else if String.eqb format ELF then
       match findELFSecurityFeatures reader with
       | Ok features =>
           Ok (Some {| Format := ELF; SecurityFeatures := features |})
       | Err _ => Ok None
       end
     else Ok (Some {| Format := format; SecurityFeatures := None |})) /\
  (forall e, findSecurityFeatures format reader
             <> Err (ErrUnsupportedFormat e) \/ format = "").
Proof.
  intros Hlen format.
  assert (Hformat : findExecutableFormat reader = Ok format).
  { unfold findExecutableFormat. rewrite ReadAt_full by exact Hlen.
    rewrite Nat.ltb_irrefl.
    rewrite isMacho_prefixes by (rewrite length_take; lia).
    subst format. unfold classifyByMagic, isPE, isELF, elf_ELFMAG.
    destruct (_ || _); [reflexivity|].
    destruct (bytes.HasPrefix _ ["M"%byte; "Z"%byte]); [reflexivity|].
    destruct (bytes.HasPrefix _ _); reflexivity. }
  unfold execcataloger.processExecutable, execcataloger.findSecurityFeatures.
  rewrite Hformat.
  destruct (classifyByMagic_formats (firstn 512 reader)) as [E|[E|[E|E]]];
    fold format in E; rewrite E.
  - split; [reflexivity|]. intros e. left. discriminate.
  - split; [reflexivity|]. intros e. left. discriminate.
  - cbn. split; [|intros e; left].
    + destruct (findELFSecurityFeatures reader); reflexivity.
    + destruct (findELFSecurityFeatures reader); discriminate.
  - split; [reflexivity|]. intros e. right. reflexivity.
Qed.

End WithELF.

Lemma processExecutable_outcomes_witness :
  execcataloger.processExecutable unit unit (fun _ => Err tt)
    binA sampleFatMachO =
  Ok (Some {| Format := MachO; SecurityFeatures := None |}).
Proof.
  apply (proj1 (processExecutable_outcomes (fun _ => Err tt) binA
                  sampleFatMachO ltac:(vm_compute; apply le_n))).
Defined.

End ExecutableCatalogerFacts.

(** ** The executable cataloger *)

Section CatalogFacts.
Import file executable coordinateset execcataloger catalog.

Context {MatchError ELFSecurityFeatures ELFError : Type}.
Context {ResolverError ReadCloser UnionError : Type}.
Variable doublestar_Match : string -> string -> result MatchError bool.
Variable findELFSecurityFeatures :
  list byte -> result ELFError (option ELFSecurityFeatures).
Variable FilesByMIMEType : list string -> result ResolverError (list Location).
Variable FileContentsByLocation : Location -> result ResolverError ReadCloser.
Variable GetUnionReader : ReadCloser -> result UnionError (list byte).

Abbreviation executableAt :=
  (executableAt ELFSecurityFeatures ELFError findELFSecurityFeatures
     ResolverError ReadCloser UnionError FileContentsByLocation
     GetUnionReader).
Abbreviation catalogLoop :=
  (catalogLoop ELFSecurityFeatures ELFError findELFSecurityFeatures
     ResolverError ReadCloser UnionError FileContentsByLocation
     GetUnionReader).
Abbreviation Catalog :=
  (Catalog MatchError doublestar_Match ELFSecurityFeatures ELFError
     findELFSecurityFeatures ResolverError ReadCloser UnionError
     FilesByMIMEType FileContentsByLocation GetUnionReader).

(** A file of less than 512 bytes is no executable for
    [processExecutable]: the read of the first sector ends early, and
    the error of [findExecutableFormat] is returned, wrapped. *)
Lemma processExecutable_short loc (reader : list byte) :
  (length reader < 512)%nat ->
  processExecutable ELFSecurityFeatures ELFError findELFSecurityFeatures
    loc reader = Err (ErrDetermineKind (ErrReadFirstSector io.EOF)).
Proof.
  intros Hlen. unfold processExecutable.
  unfold findExecutableFormat. rewrite ReadAt_short by exact Hlen.
  reflexivity.
Qed.

Lemma catalogLoop_lookup locs results c :
  catalogLoop locs results !! c =
  match last (omap (fun loc =>
                      if decide (coordinates (locationData loc) = c)
                      then executableAt loc else None) locs) with
  | Some exec => Some exec
  | None => results !! c
  end.
Proof.
  revert results. induction locs as [|loc locs IH]; intros results;
    [reflexivity|].
  unfold catalog.catalogLoop in *. cbn [fold_left omap list_omap].
  rewrite IH. fold (@omap list _).
  destruct (decide (coordinates (locationData loc) = c)) as [E|N].
  - destruct (executableAt loc) as [exec|]; [|reflexivity].
    rewrite last_cons, E, lookup_insert_eq.
    destruct (last _); reflexivity.
  - destruct (last _); [reflexivity|].
    destruct (executableAt loc); [|reflexivity].
    apply lookup_insert_ne. exact N.
Qed.

(** X26. [Catalog] fails only when the resolver cannot list the files of
    the MIME types or when a glob is refused.  Otherwise it returns a
    map that holds, for the coordinates of every location that passed
    the globs and gave an executable, the executable of the last such
    location with these coordinates; a location whose content cannot be
    read, whose file has less than 512 bytes or an unknown format, or
    whose ELF data cannot be read, adds nothing and fails nothing. *)
Theorem Catalog_results (config : Config) :
  match FilesByMIMEType (MIMETypes config) with
  | Err err => Catalog config = Err (ErrFileLocations err)
  | Ok found =>
      match filterByGlobs MatchError doublestar_Match found (Globs config) with
      | Err err => Catalog config = Err (ErrGlob err)
      | Ok locs =>
          exists results,
            Catalog config = Ok results /\
            (forall c,
               results !! c =
               last (omap (fun loc =>
                             if decide (coordinates (locationData loc) = c)
                             then executableAt loc else None) locs)) /\
            (forall loc reader,
               FileContentsByLocation loc = Ok reader ->
               match GetUnionReader reader with
               | Ok content =>
                   (length content < 512)%nat -> executableAt loc = None
               | Err _ => executableAt loc = None
               end) /\
            (forall loc err,
               FileContentsByLocation loc = Err err ->
               executableAt loc = None)
      end
  end.
Proof.
  unfold catalog.Catalog.
  destruct (FilesByMIMEType (MIMETypes config)) as [found|err];
    [|reflexivity].
  destruct (filterByGlobs _ _ found (Globs config)) as [locs|err];
    [|reflexivity].
  eexists. split; [reflexivity|]. split; [|split].
  - intros c. rewrite catalogLoop_lookup, lookup_empty.
    destruct (last _); reflexivity.
  - intros loc reader Hreader. unfold catalog.executableAt.
    rewrite Hreader.
    destruct (GetUnionReader reader) as [content|]; [|reflexivity].
    intros Hlen. rewrite processExecutable_short by exact Hlen.
    reflexivity.
  - intros loc err Hreader. unfold catalog.executableAt.
    rewrite Hreader. reflexivity.
Qed.

End CatalogFacts.

(** ** Membership in coordinate sets *)

Section CoordinateMembership.
Import file coordinateset.

(** X27. Membership in a coordinate set after [NewCoordinateSet], [Add] and
    [Remove]: the new set holds its arguments; [Add] keeps the members
    and adds its arguments, also to the nil set of the zero value,
    whose map it makes; [Remove] takes out its arguments and nothing
    else, and it leaves the nil set nil. *)
Theorem CoordinateSet_membership (s : CoordinateSet)
    (coordinates : list Coordinates) (c : Coordinates) :
  (Contains (NewCoordinateSet coordinates) c = true <-> c ∈ coordinates) /\
  (Contains (Add s coordinates) c = true <->
   Contains s c = true \/ c ∈ coordinates) /\
  (Contains (Remove s coordinates) c = true <->
   Contains s c = true /\ c ∉ coordinates) /\
  Contains {| set := None |} c = false /\
  set (Add s coordinates) <> None /\
  (set (Remove s coordinates) = None <-> set s = None) /\
  (set (NewCoordinateSet coordinates) = None <-> coordinates = []).
Proof.
  split; [apply Contains_NewCoordinateSet|].
  split; [apply Contains_Add|].
  split; [|split; [reflexivity|split; [discriminate|split]]].
  - unfold Contains, Remove. destruct (set s) as [m|] eqn:Hs; cbn [set].
    + rewrite !bool_decide_eq_true. apply fold_remove_elem_of.
    + rewrite Hs. split; [discriminate | intros [H _]; discriminate H].
  - unfold Remove. destruct (set s) as [m|] eqn:Hs; cbn [set].
    + split; discriminate.
    + rewrite Hs. tauto.
  - unfold NewCoordinateSet. destruct coordinates as [|x l].
    + split; reflexivity.
    + split; [|discriminate]. intros H. exfalso. revert H.
      cbn [fold_left].
      assert (Hmade : forall l' s', set s' <> None ->
                set (fold_left (fun s l => Add s [l]) l' s') <> None).
      { induction l' as [|y l' IH]; intros s' Hs'; [exact Hs'|].
        cbn [fold_left]. apply IH. discriminate. }
      apply Hmade. discriminate.
Qed.

End CoordinateMembership.

(** ** Requests for an encoder *)

Section EncoderRequests.
Import regexp encoders encoderlist.


End EncoderRequests.
